(** * mini-redis: the storage engine and its command interpreter

    A shallow embedding of [src/hash_table.c], [src/mini_redis.h] and of
    [process_command] and [handle_client] in [src/engine/server.c], followed
    by the properties of the store, of the textual protocol and of a client
    connection.

    Conventions of the embedding.
    - The target is an LP64 platform: [size_t] and [uint64_t] are 64-bit
      unsigned integers, modelled as [Z] with the wrap-around written out
      ([wrap64]); pointers are 8 bytes; plain [char] is signed.
    - A C string ([const char *]) is modelled by the bytes that precede its
      terminating NUL, as a [string].
    - A bucket chain (entries linked through [next]) is a [list HashEntry],
      head first; the bucket array is a list of chains.
    - [malloc], [calloc] and [realloc] consult an oracle: the list of
      outcomes of the allocation requests still to come. Freed memory is not
      tracked.
    - [float] arithmetic is IEEE 754 binary32, evaluated in that format.
    - Pointer arguments are valid (the guards against null [ht], [key],
      [value] and [command] are not taken), and what the code writes to
      stdout and stderr is left out. *)

From Stdlib Require Import ZArith String Ascii List Bool Lia Permutation.
From Stdlib Require Import Floats.SpecFloat DecimalString DecimalPos DecimalFacts.
From stdpp Require Import base list strings gmap.
Import ListNotations.

Local Open Scope Z_scope.

(** ** Machine integers *)

Definition wrap64 (x : Z) : Z := x mod 2 ^ 64.

Definition add64 (a b : Z) : Z := wrap64 (a + b).
Definition sub64 (a b : Z) : Z := wrap64 (a - b).
Definition mul64 (a b : Z) : Z := wrap64 (a * b).
Definition shl64 (a n : Z) : Z := wrap64 (Z.shiftl a n).

(** ** mini_redis.h *)

Definition INITIAL_BUCKETS : Z := 64.
Definition MAX_KEY_SIZE : Z := 256.
Definition MAX_VALUE_SIZE : Z := 4096.

(** 0.75 as a binary32 number: 12582912 * 2^-24. The comparison
    [load_factor > LOAD_FACTOR_THRESHOLD] promotes the [float] to [double];
    the promotion is exact and 0.75 is representable in both formats, so the
    comparison is carried out on binary32 values. *)
Definition LOAD_FACTOR_THRESHOLD : spec_float := S754_finite false 12582912 (-24).

Record HashEntry := mkEntry {
  key : string;
  value : string;
  key_len : Z;
  value_len : Z
}.

Record HashTable := mkTable {
  buckets : list (list HashEntry);
  num_buckets : Z;
  num_entries : Z;
  memory_used : Z
}.

Definition sizeof_HashEntry : Z := 40.
Definition sizeof_HashTable : Z := 32.
Definition sizeof_ptr : Z := 8.

(** ** The allocator *)

Module Alloc.

(** A computation that may request memory: it reads the outcomes of its
    requests off the oracle and returns what is left of it. *)
Definition t (A : Type) : Type := list bool -> A * list bool.

Definition ret {A} (a : A) : t A := fun o => (a, o).

Definition bind {A B} (m : t A) (k : A -> t B) : t B :=
  fun o => let '(a, o') := m o in k a o'.

(** One request; an exhausted oracle grants everything. *)
Definition request : t bool :=
  fun o => match o with
           | [] => (true, [])
           | b :: o' => (b, o')
           end.

End Alloc.

Notation "'let*' x ':=' m 'in' k" := (Alloc.bind m (fun x => k))
  (at level 10, x name, m at level 200, k at level 200).

(** [malloc size]: [true] stands for a non-null result. *)
Definition malloc (size : Z) : Alloc.t bool := Alloc.request.

(** [realloc ptr size]: [true] stands for a non-null result. *)
Definition realloc (size : Z) : Alloc.t bool := Alloc.request.

(** [calloc nmemb size] fails when [nmemb * size] does not fit [size_t]. *)
Definition calloc (nmemb size : Z) : Alloc.t bool :=
  let* ok := Alloc.request in
  Alloc.ret (ok && (nmemb * size <? 2 ^ 64)).

(** ** hash_table.c *)

Definition strlen (s : string) : Z := Z.of_nat (String.length s).

(** The value of a plain (signed) [char] once converted to [int]. *)
Definition char_to_int (c : ascii) : Z :=
  let n := Z.of_N (N_of_ascii c) in
  if n <? 128 then n else n - 256.

Fixpoint hash_loop (str : string) (hash : Z) : Z :=
  match str with
  | EmptyString => hash
  | String c str' =>
      hash_loop str' (add64 (add64 (shl64 hash 5) hash) (char_to_int c))
  end.

Definition hash_djb2 (str : string) : Z := hash_loop str 5381.

Definition entry_create (k v : string) : Alloc.t (option HashEntry) :=
  let* ok := malloc sizeof_HashEntry in
  if negb ok then Alloc.ret None else
  let klen := strlen k in
  let vlen := strlen v in
  let* ok := malloc (add64 klen 1) in
  if negb ok then Alloc.ret None else
  let* ok := malloc (add64 vlen 1) in
  if negb ok then Alloc.ret None else
  Alloc.ret (Some {| key := k; value := v; key_len := klen; value_len := vlen |}).

Definition entry_memory (entry : HashEntry) : Z :=
  add64 (add64 (add64 (add64 sizeof_HashEntry (key_len entry)) 1)
               (value_len entry)) 1.

Definition ht_create (initial_buckets : Z) : Alloc.t (option HashTable) :=
  let* ok := malloc sizeof_HashTable in
  if negb ok then Alloc.ret None else
  let nb := if 0 <? initial_buckets then initial_buckets else INITIAL_BUCKETS in
  let* ok := calloc nb sizeof_ptr in
  if negb ok then Alloc.ret None else
  Alloc.ret (Some {| buckets := replicate (Z.to_nat nb) [];
                     num_buckets := nb;
                     num_entries := 0;
                     memory_used := add64 sizeof_HashTable (mul64 nb sizeof_ptr) |}).

(** [bs[i]], the head of chain [i]. *)
Definition bucket_at (bs : list (list HashEntry)) (i : nat) : list HashEntry :=
  default [] (bs !! i).

Definition bucket_index (k : string) (nb : Z) : nat :=
  Z.to_nat (hash_djb2 k mod nb).

(** One step of the rehash pass: link [entry] at the head of its new chain. *)
Definition relink (new_num_buckets : Z) (new_buckets : list (list HashEntry))
    (entry : HashEntry) : list (list HashEntry) :=
  let new_index := bucket_index (key entry) new_num_buckets in
  <[new_index := entry :: bucket_at new_buckets new_index]> new_buckets.

Definition rehash (new_num_buckets : Z) (old_buckets new_buckets : list (list HashEntry))
    : list (list HashEntry) :=
  fold_left (fun nbs chain => fold_left (relink new_num_buckets) chain nbs)
            old_buckets new_buckets.

Definition ht_resize (ht : HashTable) : Alloc.t (Z * HashTable) :=
  let new_num_buckets := mul64 (num_buckets ht) 2 in
  let* ok := calloc new_num_buckets sizeof_ptr in
  if negb ok then Alloc.ret (-1, ht) else
  let new_buckets :=
    rehash new_num_buckets (buckets ht) (replicate (Z.to_nat new_num_buckets) []) in
  Alloc.ret (0, {| buckets := new_buckets;
                   num_buckets := new_num_buckets;
                   num_entries := num_entries ht;
                   memory_used :=
                     add64 (sub64 (memory_used ht) (mul64 (num_buckets ht) sizeof_ptr))
                           (mul64 new_num_buckets sizeof_ptr) |}).

(** [(float)n] for a [size_t] [n]: round to nearest even in binary32. *)
Definition float_of_size_t (n : Z) : spec_float := binary_normalize 24 128 n 0 false.

Definition load_factor (ht : HashTable) : spec_float :=
  SFdiv 24 128 (float_of_size_t (num_entries ht)) (float_of_size_t (num_buckets ht)).

(** [load_factor > LOAD_FACTOR_THRESHOLD] *)
Definition load_factor_exceeded (ht : HashTable) : bool :=
  SFltb LOAD_FACTOR_THRESHOLD (load_factor ht).

(** The first entry of the chain whose key is [k]. *)
Fixpoint chain_find (k : string) (chain : list HashEntry) : option HashEntry :=
  match chain with
  | [] => None
  | entry :: next => if String.eqb (key entry) k then Some entry else chain_find k next
  end.

(** The chain with its first entry for [k] overwritten by [entry']. *)
Fixpoint chain_replace (k : string) (entry' : HashEntry) (chain : list HashEntry)
    : list HashEntry :=
  match chain with
  | [] => []
  | entry :: next =>
      if String.eqb (key entry) k then entry' :: next
      else entry :: chain_replace k entry' next
  end.

(** The chain with its first entry for [k] unlinked. *)
Fixpoint chain_unlink (k : string) (chain : list HashEntry) : list HashEntry :=
  match chain with
  | [] => []
  | entry :: next =>
      if String.eqb (key entry) k then next else entry :: chain_unlink k next
  end.

(** Lines 180-221 of [ht_set]: search the chain, update in place or insert
    at the head. *)
Definition ht_upsert (ht : HashTable) (k v : string) : Alloc.t (Z * HashTable) :=
  let index := bucket_index k (num_buckets ht) in
  let chain := bucket_at (buckets ht) index in
  match chain_find k chain with
  | Some entry =>
      let old_mem := entry_memory entry in
      let* ok := malloc (add64 (strlen v) 1) in
      if negb ok then Alloc.ret (-1, ht) else
      let entry' := {| key := key entry; value := v;
                       key_len := key_len entry; value_len := strlen v |} in
      Alloc.ret (0, {| buckets := <[index := chain_replace k entry' chain]> (buckets ht);
                       num_buckets := num_buckets ht;
                       num_entries := num_entries ht;
                       memory_used :=
                         add64 (sub64 (memory_used ht) old_mem) (entry_memory entry') |})
  | None =>
      let* new_entry := entry_create k v in
      match new_entry with
      | None => Alloc.ret (-1, ht)
      | Some new_entry =>
          Alloc.ret (0, {| buckets := <[index := new_entry :: chain]> (buckets ht);
                           num_buckets := num_buckets ht;
                           num_entries := add64 (num_entries ht) 1;
                           memory_used :=
                             add64 (memory_used ht) (entry_memory new_entry) |})
      end
  end.

Definition ht_set (ht : HashTable) (k v : string) : Alloc.t (Z * HashTable) :=
  if (MAX_KEY_SIZE <? strlen k) || (MAX_VALUE_SIZE <? strlen v)
  then Alloc.ret (-1, ht)
  else
    let* ht := (if load_factor_exceeded ht
                then let* r := ht_resize ht in Alloc.ret (snd r)
                else Alloc.ret ht) in
    ht_upsert ht k v.

Definition ht_get (ht : HashTable) (k : string) : option string :=
  let index := bucket_index k (num_buckets ht) in
  value <$> chain_find k (bucket_at (buckets ht) index).

Definition ht_delete (ht : HashTable) (k : string) : Z * HashTable :=
  let index := bucket_index k (num_buckets ht) in
  let chain := bucket_at (buckets ht) index in
  match chain_find k chain with
  | Some entry =>
      (0, {| buckets := <[index := chain_unlink k chain]> (buckets ht);
             num_buckets := num_buckets ht;
             num_entries := sub64 (num_entries ht) 1;
             memory_used := sub64 (memory_used ht) (entry_memory entry) |})
  | None => (-1, ht)
  end.

Definition ht_stats (ht : HashTable) : Z * Z := (num_entries ht, memory_used ht).

(** ** engine/server.c: the command interpreter *)

Local Open Scope string_scope.

(** [isspace] in the C locale: space, \t, \n, \v, \f, \r. *)
Definition isspace (c : ascii) : bool :=
  let n := nat_of_ascii c in
  (n =? 32)%nat || ((9 <=? n)%nat && (n <=? 13)%nat).

(** [toupper] in the C locale. *)
Definition toupper (c : ascii) : ascii :=
  let n := nat_of_ascii c in
  if ((97 <=? n)%nat && (n <=? 122)%nat)%bool then ascii_of_nat (n - 32) else c.

(** The loop that turns every byte of [tokens[0]] into upper case. *)
Fixpoint uppercase (s : string) : string :=
  match s with
  | EmptyString => EmptyString
  | String c s' => String (toupper c) (uppercase s')
  end.

(** Advance over a run of white space. *)
Fixpoint skip_space (s : string) : string :=
  match s with
  | EmptyString => EmptyString
  | String c s' => if isspace c then skip_space s' else s
  end.

(** Advance to the next white space or to the end of the string. *)
Fixpoint skip_nonspace (s : string) : string :=
  match s with
  | EmptyString => EmptyString
  | String c s' => if isspace c then s else skip_nonspace s'
  end.

(** [s] cut after its last byte that is not white space: what the backward
    scan of [trim_whitespace] keeps when it may stop anywhere. *)
Fixpoint drop_trailing_space (s : string) : string :=
  match s with
  | EmptyString => EmptyString
  | String c s' =>
      match drop_trailing_space s' with
      | EmptyString => if isspace c then EmptyString else String c EmptyString
      | kept => String c kept
      end
  end.

(** [trim_whitespace]: skip the leading white space; the scan from the end
    stops at the first byte ([end > str]), which is therefore kept. *)
Definition trim_whitespace (str : string) : string :=
  match skip_space str with
  | EmptyString => EmptyString
  | String c s' => String c (drop_trailing_space s')
  end.

(** [malloc] and [memcpy] of the string and its NUL. *)
Definition str_duplicate (str : string) : Alloc.t (option string) :=
  let* ok := malloc (add64 (strlen str) 1) in
  Alloc.ret (if ok then Some str else None).

(** The delimiters of [parse_command]: space and tab. *)
Definition is_delim (c : ascii) : bool :=
  let n := nat_of_ascii c in (n =? 32)%nat || (n =? 9)%nat.

Fixpoint skip_delims (s : string) : string :=
  match s with
  | EmptyString => EmptyString
  | String c s' => if is_delim c then skip_delims s' else s
  end.

(** The token at the head of [s] and what follows the delimiter that ends
    it ([strtok_r] overwrites that delimiter with a NUL). *)
Fixpoint split_token (s : string) : string * string :=
  match s with
  | EmptyString => (EmptyString, EmptyString)
  | String c s' =>
      if is_delim c then (EmptyString, s')
      else let '(token, rest) := split_token s' in (String c token, rest)
  end.

(** [strtok_r(str, " \t", &saveptr)]: the token and the new [saveptr], or
    [None] for a null result. *)
Definition strtok_r (str : string) : option (string * string) :=
  match skip_delims str with
  | EmptyString => None
  | s => Some (split_token s)
  end.

(** [parse_command]: the loop stores at most [max_tokens] tokens. *)
Fixpoint parse_command (cmd : string) (max_tokens : nat) : list string :=
  match max_tokens with
  | O => []
  | S n =>
      match strtok_r cmd with
      | None => []
      | Some (token, saveptr) => token :: parse_command saveptr n
      end
  end.

(** [snprintf] into a [char buffer[256]]: at most 255 bytes are kept. *)
Definition snprintf_256 (s : string) : string := substring 0 255 s.

(** [%zu] *)
Definition print_size_t (n : Z) : string :=
  DecimalString.NilZero.string_of_uint (N.to_uint (Z.to_N n)).

Definition dquote : string := String (ascii_of_nat 34) EmptyString.

(** What a call of [process_command] comes to: the string it returns ([None]
    for a null pointer) and the store it leaves, or undefined behaviour. *)
Inductive outcome : Type :=
  | Reply (response : option string) (ht : HashTable)
  | Undefined.

Definition reply (ht : HashTable) (text : string) : Alloc.t outcome :=
  let* response := str_duplicate text in
  Alloc.ret (Reply response ht).

(** The loop of the KEYS command over the entries, bucket after bucket;
    [None] when [realloc] fails. *)
Fixpoint keys_loop (entries : list HashEntry) (buffer : string) (buffer_size : Z)
    (first : bool) : Alloc.t (option string) :=
  match entries with
  | [] => Alloc.ret (Some buffer)
  | entry :: next =>
      let pos := strlen buffer in
      let needed := add64 (strlen (key entry)) 5 in
      let* grown :=
        (if (sub64 buffer_size 2 <=? add64 pos needed)%Z
         then let* ok := realloc (mul64 buffer_size 2) in
              Alloc.ret (if ok then Some (mul64 buffer_size 2) else None)
         else Alloc.ret (Some buffer_size)) in
      match grown with
      | None => Alloc.ret None
      | Some buffer_size =>
          let buffer := if first then buffer else buffer ++ "," in
          keys_loop next (buffer ++ dquote ++ key entry ++ dquote) buffer_size false
      end
  end.

Definition process_command (ht : HashTable) (command : string) : Alloc.t outcome :=
  let* cmd_copy := str_duplicate command in
  match cmd_copy with
  | None => reply ht "ERROR: Memory allocation failed"
  | Some cmd_copy =>
  let trimmed := trim_whitespace cmd_copy in
  if (strlen trimmed =? 0)%Z then reply ht "ERROR: Empty command" else
  match parse_command trimmed 10 with
  | [] => reply ht "ERROR: Empty command"
  | token0 :: args =>
  let name := uppercase token0 in
  if String.eqb name "SET" then
    match args with
    | k :: _ :: _ =>
        let* original_copy := str_duplicate command in
        match original_copy with
        | None => Alloc.ret Undefined
        | Some original_copy =>
            let trimmed_orig := trim_whitespace original_copy in
            let p := skip_space (skip_nonspace (skip_space (skip_nonspace trimmed_orig))) in
            match p with
            | String _ _ =>
                let* r := ht_set ht k p in
                if (fst r =? 0)%Z then reply (snd r) "OK"
                else reply (snd r) "ERROR: Failed to set value"
            | EmptyString => reply ht "ERROR: SET requires a value"
            end
        end
    | _ => reply ht "ERROR: SET requires key and value"
    end
  else if String.eqb name "GET" then
    match args with
    | k :: _ =>
        match ht_get ht k with
        | Some v => reply ht v
        | None => reply ht "NULL"
        end
    | [] => reply ht "ERROR: GET requires a key"
    end
  else if String.eqb name "DEL" then
    match args with
    | k :: _ =>
        let r := ht_delete ht k in
        if (fst r =? 0)%Z then reply (snd r) "OK" else reply (snd r) "NOT FOUND"
    | [] => reply ht "ERROR: DEL requires a key"
    end
  else if String.eqb name "STATS" then
    let '(num_keys, memory_bytes) := ht_stats ht in
    reply ht (snprintf_256 ("{" ++ dquote ++ "keys" ++ dquote ++ ": "
                            ++ print_size_t num_keys ++ ", "
                            ++ dquote ++ "memory_bytes" ++ dquote ++ ": "
                            ++ print_size_t memory_bytes ++ "}"))
  else if String.eqb name "KEYS" then
    let* ok := malloc 4096 in
    if negb ok then reply ht "ERROR: Memory allocation failed" else
    let* buffer := keys_loop (mjoin (buckets ht)) "[" 4096 true in
    match buffer with
    | Some buffer => Alloc.ret (Reply (Some (buffer ++ "]")) ht)
    | None => reply ht "ERROR: Memory allocation failed"
    end
  else if String.eqb name "PING" then reply ht "PONG"
  else if String.eqb name "QUIT" then reply ht "BYE"
  else reply ht (snprintf_256 ("ERROR: Unknown command '" ++ name ++ "'"))
  end
  end.

(** ** engine/server.c: a client connection *)

(** The C string at the start of a buffer: its bytes up to the first NUL. *)
Fixpoint c_string (bytes : string) : string :=
  match bytes with
  | EmptyString => EmptyString
  | String c rest =>
      if Ascii.eqb c Ascii.zero then EmptyString else String c (c_string rest)
  end.

Definition newline : string := String (ascii_of_nat 10) EmptyString.

(** What a turn of the loop of [handle_client] meets: [g_running] cleared
    by the signal handler, or the result of [recv]: -1 with [errno] EINTR,
    -1 with another error, or the bytes read, at most [BUFFER_SIZE - 1] of
    them and none when the peer has closed. *)
Inductive turn : Type :=
  | Stopped
  | Interrupted
  | Failed
  | Received (bytes : string).

(** A connection so far: the messages passed to [send] in order, the store,
    and whether the loop was left and the socket closed (otherwise [recv]
    waits for more); or undefined behaviour in [process_command]. *)
Inductive connection : Type :=
  | Connection (sent : list string) (ht : HashTable) (closed : bool)
  | UndefinedConnection.

(** The loop of [handle_client] on the global store. A reply is sent with a
    newline when the copy that holds both is granted; the loop is left on
    the reply BYE whether it was sent or not. *)
Fixpoint client_loop (ht : HashTable) (turns : list turn) (sent : list string)
    : Alloc.t connection :=
  match turns with
  | [] => Alloc.ret (Connection sent ht false)
  | Stopped :: _ => Alloc.ret (Connection sent ht true)
  | Interrupted :: turns => client_loop ht turns sent
  | Failed :: _ => Alloc.ret (Connection sent ht true)
  | Received bytes :: turns =>
      if (strlen bytes =? 0)%Z then Alloc.ret (Connection sent ht true) else
      let* out := process_command ht (c_string bytes) in
      match out with
      | Undefined => Alloc.ret UndefinedConnection
      | Reply None ht => client_loop ht turns sent
      | Reply (Some response) ht =>
          let* ok := malloc (add64 (strlen response) 2) in
          let sent := if ok then (sent ++ [(response ++ newline)%string])%list else sent in
          if String.eqb response "BYE" then Alloc.ret (Connection sent ht true)
          else client_loop ht turns sent
      end
  end.

Definition handle_client (ht : HashTable) (turns : list turn) : Alloc.t connection :=
  client_loop ht turns [].

Local Close Scope string_scope.

(** * Vocabulary of the properties *)

(** ** Equality modulo 2^64 *)

Definition eq64 (a b : Z) : Prop := wrap64 a = wrap64 b.

(** ** The representation invariant *)

(** Every entry of the table, bucket by bucket. *)
Definition all_entries (ht : HashTable) : list HashEntry := mjoin (buckets ht).

(** What one live entry accounts for: the node, the key and its NUL, the
    value and its NUL. *)
Definition accounted_size (entry : HashEntry) : Z :=
  sizeof_HashEntry + strlen (key entry) + 1 + strlen (value entry) + 1.

Definition entries_size (es : list HashEntry) : Z :=
  foldr (fun entry acc => accounted_size entry + acc) 0 es.

(** The header plus [nb] pointer-sized slots. *)
Definition table_overhead (nb : Z) : Z := sizeof_HashTable + nb * sizeof_ptr.

Definition accounted (ht : HashTable) : Z :=
  table_overhead (num_buckets ht) + entries_size (all_entries ht).

(** The bucket array has [num_buckets] slots and was obtained from [calloc]. *)
Definition bucket_shape (ht : HashTable) : Prop :=
  length (buckets ht) = Z.to_nat (num_buckets ht) /\
  0 < num_buckets ht /\ num_buckets ht * sizeof_ptr < 2 ^ 64.

(** Every entry sits in the chain its key hashes to. *)
Definition placed (nb : Z) (bs : list (list HashEntry)) : Prop :=
  forall i chain entry,
    bs !! i = Some chain -> entry ∈ chain -> bucket_index (key entry) nb = i.

Definition keys_unique (ht : HashTable) : Prop := NoDup (key <$> all_entries ht).

Definition entry_sized (entry : HashEntry) : Prop :=
  key_len entry = strlen (key entry) /\ value_len entry = strlen (value entry) /\
  strlen (key entry) <= MAX_KEY_SIZE /\ strlen (value entry) <= MAX_VALUE_SIZE.

Definition count_ok (ht : HashTable) : Prop :=
  num_entries ht = wrap64 (Z.of_nat (length (all_entries ht))).

Definition memory_ok (ht : HashTable) : Prop :=
  memory_used ht = wrap64 (accounted ht).

Record wf (ht : HashTable) : Prop := mkWf {
  wf_shape : bucket_shape ht;
  wf_placed : placed (num_buckets ht) (buckets ht);
  wf_unique : keys_unique ht;
  wf_sized : Forall entry_sized (all_entries ht);
  wf_count : count_ok ht;
  wf_memory : memory_ok ht
}.

(** ** Effects of the operations *)

(** The table [ht_resize] leaves behind when [calloc] grants the new array. *)
Definition resized (ht : HashTable) : HashTable :=
  let new_num_buckets := mul64 (num_buckets ht) 2 in
  {| buckets := rehash new_num_buckets (buckets ht)
                       (replicate (Z.to_nat new_num_buckets) []);
     num_buckets := new_num_buckets;
     num_entries := num_entries ht;
     memory_used :=
       add64 (sub64 (memory_used ht) (mul64 (num_buckets ht) sizeof_ptr))
             (mul64 new_num_buckets sizeof_ptr) |}.

(** [entry] after [ht_set] has overwritten its value with [v]. *)
Definition with_value (entry : HashEntry) (v : string) : HashEntry :=
  {| key := key entry; value := v;
     key_len := key_len entry; value_len := strlen v |}.

(** The entry [entry_create k v] builds. *)
Definition fresh_entry (k v : string) : HashEntry :=
  {| key := k; value := v; key_len := strlen k; value_len := strlen v |}.

(** How the entries of a well-formed table change under a successful
    [ht_upsert]: either one entry has its value overwritten, or one entry is
    added for a key that was not there. *)
Definition upsert_effect (ht ht' : HashTable) (k v : string) : Prop :=
  (exists entry rest,
      key entry = k /\ all_entries ht ≡ₚ entry :: rest /\
      all_entries ht' ≡ₚ with_value entry v :: rest /\
      num_entries ht' = num_entries ht) \/
  ((k ∉ key <$> all_entries ht) /\
   all_entries ht' ≡ₚ fresh_entry k v :: all_entries ht /\
   num_entries ht' = add64 (num_entries ht) 1).

(** ** Reachable stores *)

(** The stores a client can observe: one made by [ht_create initial_buckets]
    and then driven by [ht_set] and [ht_delete], under any behaviour of the
    allocator. [ht_resize] is listed as a step of its own, so that whatever
    holds of reachable stores also holds right after a resize. *)
Inductive reachable (initial_buckets : Z) : HashTable -> Prop :=
  | reach_create o ht o' :
      ht_create initial_buckets o = (Some ht, o') ->
      reachable initial_buckets ht
  | reach_set ht k v o r ht' o' :
      reachable initial_buckets ht ->
      ht_set ht k v o = (r, ht', o') ->
      reachable initial_buckets ht'
  | reach_delete ht k r ht' :
      reachable initial_buckets ht ->
      ht_delete ht k = (r, ht') ->
      reachable initial_buckets ht'
  | reach_resize ht o r ht' o' :
      reachable initial_buckets ht ->
      ht_resize ht o = (r, ht', o') ->
      reachable initial_buckets ht'.

(** [ht] with its accounting figure replaced by [m]. *)
Definition with_memory (ht : HashTable) (m : Z) : HashTable :=
  {| buckets := buckets ht; num_buckets := num_buckets ht;
     num_entries := num_entries ht; memory_used := m |}.

(** The figure an operation leaves when it starts from [m] instead of
    [memory_used ht] and ends in [ht'] when started from [ht]. *)
Definition drifted (ht ht' : HashTable) (m : Z) : HashTable :=
  with_memory ht' (wrap64 (memory_used ht' + (m - memory_used ht))).

(** ** Bucket counts *)



(** ** Sequences of requests *)

(** A client request to the store; a set comes with the behaviour of the
    allocator during the call. *)
Inductive op : Type :=
  | OpSet (k v : string) (o : list bool)
  | OpDelete (k : string).

Definition run_op (ht : HashTable) (x : op) : Z * HashTable :=
  match x with
  | OpSet k v o => fst (ht_set ht k v o)
  | OpDelete k => ht_delete ht k
  end.

Definition run (ht : HashTable) (ops : list op) : HashTable :=
  fold_left (fun ht x => snd (run_op ht x)) ops ht.

(** The keys that are live after [ops]: a set that returned 0 adds its key,
    a delete that returned 0 removes it, a request that returned -1 changes
    nothing. [ht] is the store the requests are run on, [live] the keys live
    before them. *)
Fixpoint live_keys (ht : HashTable) (live : gset string) (ops : list op)
    : gset string :=
  match ops with
  | [] => live
  | x :: ops =>
      let live' :=
        if fst (run_op ht x) =? 0 then
          match x with
          | OpSet k _ _ => {[k]} ∪ live
          | OpDelete k => live ∖ {[k]}
          end
        else live in
      live_keys (snd (run_op ht x)) live' ops
  end.

(** The keys of the table, as a set. *)
Definition key_set (ht : HashTable) : gset string :=
  list_to_set (key <$> all_entries ht).

(** [load_factor > LOAD_FACTOR_THRESHOLD] for [e] entries in [nb] buckets. *)
Definition load_exceeded_at (e nb : Z) : bool :=
  load_factor_exceeded {| buckets := []; num_buckets := nb;
                          num_entries := e; memory_used := 0 |}.

(** Where half a quotient lies between two binary32 numbers, from the
    quotient [q] and its own location [l]: what one halving step of the
    rounding in [SFdiv] keeps. *)
Definition halved (q : Z) (l : location) : location :=
  match Z.odd q, l with
  | false, loc_Exact => loc_Exact
  | false, loc_Inexact _ => loc_Inexact Lt
  | true, loc_Exact => loc_Inexact Eq
  | true, loc_Inexact _ => loc_Inexact Gt
  end.

(** Insert the pairs one after the other, every request granted. *)
Definition inserts (kvs : list (string * string)) : list op :=
  (fun kv => OpSet kv.1 kv.2 []) <$> kvs.

Definition in_limits (kv : string * string) : Prop :=
  strlen kv.1 <= MAX_KEY_SIZE /\ strlen kv.2 <= MAX_VALUE_SIZE.

(** ** Command lines *)

Fixpoint all_chars (p : ascii -> bool) (s : string) : bool :=
  match s with
  | EmptyString => true
  | String c s' => p c && all_chars p s'
  end.

(** A run of white space. *)
Definition all_space (s : string) : bool := all_chars isspace s.
(** A run of the tokenizer's delimiters. *)
Definition all_delim (s : string) : bool := all_chars is_delim s.
(** No white space at all. *)
Definition no_space (s : string) : bool := all_chars (fun c => negb (isspace c)) s.
(** No space and no tab. *)
Definition no_delim (s : string) : bool := all_chars (fun c => negb (is_delim c)) s.

Definition nonempty (s : string) : bool :=
  match s with EmptyString => false | String _ _ => true end.

Definition starts_nonspace (s : string) : bool :=
  match s with EmptyString => false | String c _ => negb (isspace c) end.

Fixpoint ends_nonspace (s : string) : bool :=
  match s with
  | EmptyString => false
  | String c EmptyString => negb (isspace c)
  | String _ s' => ends_nonspace s'
  end.

(** The string a call returns, whatever store it leaves. *)
Definition response_of (x : outcome) : option string :=
  match x with
  | Reply response _ => response
  | Undefined => None
  end.

(** What [process_command] does once it has extracted key [k] and value
    [v] of a SET. *)
Definition set_and_reply (ht : HashTable) (k v : string) : Alloc.t outcome :=
  let* r := ht_set ht k v in
  if (fst r =? 0)%Z then reply (snd r) "OK"
  else reply (snd r) "ERROR: Failed to set value".

(** ** The hash function, in words *)

(** DJB2 as the comment in the code has it: start from 5381 and, for every
    byte, take [hash * 33 + c] in 64 bits. *)
Definition djb2_spec (str : string) : Z :=
  fold_left (fun hash c => (hash * 33 + char_to_int c) mod 2 ^ 64)
            (list_ascii_of_string str) 5381.

(** ** Replies *)

(** The command name [process_command] dispatches on: its first token in
    upper case, empty when the line has no token. *)
Definition command_name (command : string) : string :=
  match parse_command (trim_whitespace command) 10 with
  | [] => EmptyString
  | token0 :: _ => uppercase token0
  end.

(** The keys of [entries] in order, each between double quotes, separated
    by commas; [first] tells whether no key was written before them. *)
Fixpoint quoted_keys (first : bool) (entries : list HashEntry) : string :=
  match entries with
  | [] => EmptyString
  | entry :: next =>
      String.append (if first then EmptyString else ","%string)
        (String.append dquote
           (String.append (key entry)
              (String.append dquote (quoted_keys false next))))
  end.

(** ** Connections *)

Definition no_nul (s : string) : bool :=
  all_chars (fun c => negb (Ascii.eqb c Ascii.zero)) s.

(** Carriage return and line feed, as a terminal ends a line. *)
Definition crlf : string :=
  String (ascii_of_nat 13) (String (ascii_of_nat 10) EmptyString).

(** A turn that hands the loop a request: [recv] returned bytes. *)
Definition is_request (t : turn) : bool :=
  match t with
  | Received bytes => negb (strlen bytes =? 0)
  | _ => false
  end.

(** The number of requests among the turns of a connection. *)
Definition requests (turns : list turn) : nat :=
  length (List.filter is_request turns).

(** The reply to STATS for [keys] entries and [memory] bytes. *)
Definition stats_text (keys memory : Z) : string :=
  String.append "{"
    (String.append dquote (String.append "keys" (String.append dquote
    (String.append ": " (String.append (print_size_t keys)
    (String.append ", " (String.append dquote (String.append "memory_bytes"
    (String.append dquote (String.append ": " (String.append (print_size_t memory)
     "}"))))))))))).

(** ** Sample stores and requests *)

(** The store the server starts with: [ht_create(INITIAL_BUCKETS)], every
    request granted. *)
Definition default_store : HashTable :=
  {| buckets := replicate 64 []; num_buckets := 64;
     num_entries := 0; memory_used := 544 |}.

(** [default_store] after [ht_set "a" "b"]. *)
Definition store_ab : HashTable := snd (fst (ht_set default_store "a" "b" [])).

(** A one-bucket store holding one entry: its load factor is 1. *)
Definition one_bucket_store : HashTable :=
  {| buckets := [[fresh_entry "a" "b"]]; num_buckets := 1;
     num_entries := 1; memory_used := 84 |}.


(** A key of 256 bytes and a value of 4096 bytes. *)
Definition key_256 : string := string_of_list_ascii (repeat "k"%char 256).
Definition value_4096 : string := string_of_list_ascii (repeat "v"%char 4096).

(** Set "a" twice, set "d", delete "a" twice: one key is left. *)
Definition sample_ops : list op :=
  [OpSet "a" "b" []; OpSet "a" "c" []; OpSet "d" "e" []; OpDelete "a"; OpDelete "a"].

(** Sixty pairs with distinct one-byte keys "0", "1", ... *)
Definition sample_pairs : list (string * string) :=
  (fun i => (String (ascii_of_nat (48 + i)) EmptyString, "v"%string)) <$> seq 0 60.

(** The store after the command SET x NULL. *)
Definition store_x_null : HashTable :=
  snd (fst (ht_set default_store "x" "NULL" [])).

(** * Properties of the store *)

(** ** Arithmetic modulo 2^64 *)

#[local] Instance eq64_equiv : Equivalence eq64.
Proof.
  unfold eq64; split.
  - intros a; reflexivity.
  - intros a b H; symmetry; exact H.
  - intros a b c H1 H2; congruence.
Qed.

#[local] Instance add_eq64 : Proper (eq64 ==> eq64 ==> eq64) Z.add.
Proof.
  unfold eq64, wrap64; intros a a' Ha b b' Hb.
  rewrite (Zplus_mod a), (Zplus_mod a'), Ha, Hb; reflexivity.
Qed.

#[local] Instance sub_eq64 : Proper (eq64 ==> eq64 ==> eq64) Z.sub.
Proof.
  unfold eq64, wrap64; intros a a' Ha b b' Hb.
  rewrite (Zminus_mod a), (Zminus_mod a'), Ha, Hb; reflexivity.
Qed.

#[local] Instance mul_eq64 : Proper (eq64 ==> eq64 ==> eq64) Z.mul.
Proof.
  unfold eq64, wrap64; intros a a' Ha b b' Hb.
  rewrite (Zmult_mod a), (Zmult_mod a'), Ha, Hb; reflexivity.
Qed.

#[local] Instance wrap64_proper : Proper (eq64 ==> eq) wrap64.
Proof. intros a a' Ha. exact Ha. Qed.

Lemma wrap64_eq64 a : eq64 (wrap64 a) a.
Proof. unfold eq64, wrap64. apply Zmod_mod. Qed.

Lemma wrap64_small a : 0 <= a < 2 ^ 64 -> wrap64 a = a.
Proof. intros H. unfold wrap64. apply Z.mod_small. exact H. Qed.

(** Reduces [wrap64 A = wrap64 B] to [A = B] with every inner wrap removed. *)
Ltac wrap_norm :=
  unfold add64, sub64, mul64;
  change (wrap64 ?a = wrap64 ?b) with (eq64 a b);
  repeat rewrite wrap64_eq64;
  unfold eq64; f_equal.

(** ** Chains *)

Lemma chain_find_split k chain entry :
  chain_find k chain = Some entry ->
  exists l1 l2,
    chain = l1 ++ entry :: l2 /\ key entry = k /\ (k ∉ key <$> l1) /\
    (forall entry', chain_replace k entry' chain = l1 ++ entry' :: l2) /\
    chain_unlink k chain = l1 ++ l2.
Proof.
  induction chain as [|e chain IH]; simpl; [discriminate|].
  destruct (String.eqb_spec (key e) k) as [Heq|Hne].
  - intros [= <-]. exists [], chain. repeat split; auto.
    simpl. apply not_elem_of_nil.
  - intros Hf. destruct (IH Hf) as (l1 & l2 & -> & Hk & Hnot & Hrep & Hunl).
    exists (e :: l1), l2. repeat split; auto.
    + simpl. rewrite not_elem_of_cons. split; [congruence | exact Hnot].
    + intros entry'. simpl. rewrite Hrep. reflexivity.
    + simpl. rewrite Hunl. reflexivity.
Qed.

Lemma chain_find_None k chain :
  chain_find k chain = None <-> k ∉ (key <$> chain).
Proof.
  induction chain as [|e chain IH]; simpl.
  - split; [intros _; apply not_elem_of_nil | reflexivity].
  - rewrite not_elem_of_cons.
    destruct (String.eqb_spec (key e) k) as [Heq|Hne].
    + split; [discriminate | intros [H _]; congruence].
    + rewrite IH. split; [intros H; split; [congruence | exact H] | intros [_ H]; exact H].
Qed.

Lemma chain_find_key k chain entry :
  chain_find k chain = Some entry -> entry ∈ chain /\ key entry = k.
Proof.
  intros H. destruct (chain_find_split _ _ _ H) as (l1 & l2 & -> & Hk & _).
  split; [|exact Hk]. rewrite elem_of_app, elem_of_cons. auto.
Qed.

Lemma chain_find_unique chain entry :
  NoDup (key <$> chain) -> entry ∈ chain -> chain_find (key entry) chain = Some entry.
Proof.
  induction chain as [|e chain IH]; simpl.
  - intros _ H. apply elem_of_nil in H. destruct H.
  - rewrite NoDup_cons, elem_of_cons. intros [Hnot Hnd] [->|Hin].
    + rewrite String.eqb_refl. reflexivity.
    + destruct (String.eqb_spec (key e) (key entry)) as [Heq|Hne].
      * exfalso. apply Hnot. rewrite Heq. apply list_elem_of_fmap. eauto.
      * apply IH; assumption.
Qed.

(** ** Sizes of entries *)

Lemma entries_size_cons e es :
  entries_size (e :: es) = accounted_size e + entries_size es.
Proof. reflexivity. Qed.

Lemma entries_size_perm es1 es2 :
  es1 ≡ₚ es2 -> entries_size es1 = entries_size es2.
Proof.
  induction 1 as [|e l l' _ IH|e e' l|l l' l'' _ IH1 _ IH2];
    rewrite ?entries_size_cons; lia.
Qed.

Lemma entry_memory_accounted entry :
  entry_sized entry -> entry_memory entry = wrap64 (accounted_size entry).
Proof.
  intros (Hk & Hv & _). unfold entry_memory, accounted_size.
  rewrite Hk, Hv. wrap_norm.
Qed.

(** *** Replacing one chain of the bucket array *)

Lemma mjoin_insert (bs : list (list HashEntry)) i chain :
  bs !! i = Some chain ->
  exists others,
    mjoin bs ≡ₚ chain ++ others /\
    forall chain', mjoin (<[i:=chain']> bs) ≡ₚ chain' ++ others.
Proof.
  intros Hi. exists (mjoin (take i bs) ++ mjoin (drop (S i) bs)). split.
  - rewrite <- (take_drop_middle bs i chain Hi) at 1.
    rewrite join_app. simpl. rewrite Permutation_app_swap_app. reflexivity.
  - intros chain'. rewrite insert_take_drop by (eapply lookup_lt_Some; eauto).
    rewrite join_app. simpl. rewrite Permutation_app_swap_app. reflexivity.
Qed.

Lemma placed_insert nb bs i chain' :
  placed nb bs ->
  (forall entry, entry ∈ chain' -> bucket_index (key entry) nb = i) ->
  placed nb (<[i:=chain']> bs).
Proof.
  intros Hp Hc j chain entry Hj Hin.
  apply list_lookup_insert_Some in Hj as [(-> & <- & _)|(Hne & Hj)].
  - apply Hc. exact Hin.
  - eapply Hp; eauto.
Qed.

Lemma bucket_index_lt k nb : 0 < nb -> (bucket_index k nb < Z.to_nat nb)%nat.
Proof.
  intros Hnb. unfold bucket_index.
  pose proof (Z.mod_pos_bound (hash_djb2 k) nb Hnb). lia.
Qed.

Lemma bucket_at_lookup ht k :
  bucket_shape ht ->
  buckets ht !! bucket_index k (num_buckets ht)
  = Some (bucket_at (buckets ht) (bucket_index k (num_buckets ht))).
Proof.
  intros (Hlen & Hpos & _). unfold bucket_at.
  destruct (lookup_lt_is_Some_2 (buckets ht) (bucket_index k (num_buckets ht)))
    as [chain Hc].
  - rewrite Hlen. apply bucket_index_lt. exact Hpos.
  - rewrite Hc. reflexivity.
Qed.

(** A key that is not in its own chain is nowhere in the table. *)
Lemma absent_everywhere ht k :
  bucket_shape ht -> placed (num_buckets ht) (buckets ht) ->
  chain_find k (bucket_at (buckets ht) (bucket_index k (num_buckets ht))) = None ->
  k ∉ key <$> all_entries ht.
Proof.
  intros Hs Hp Hf Hin.
  apply list_elem_of_fmap in Hin as (entry & -> & Hin).
  apply list_elem_of_join in Hin as (chain & Hin & Hchain).
  apply list_elem_of_lookup in Hchain as (i & Hi).
  pose proof (Hp _ _ _ Hi Hin) as Hidx.
  rewrite <- Hidx, bucket_at_lookup in Hi by exact Hs.
  injection Hi as <-.
  apply chain_find_None in Hf. apply Hf.
  apply list_elem_of_fmap. eauto.
Qed.

Lemma present_somewhere ht k entry :
  bucket_shape ht ->
  chain_find k (bucket_at (buckets ht) (bucket_index k (num_buckets ht))) = Some entry ->
  entry ∈ all_entries ht /\ key entry = k.
Proof.
  intros Hs Hf. apply chain_find_key in Hf as [Hin Hk]. split; [|exact Hk].
  apply list_elem_of_join. eexists. split; [exact Hin|].
  apply list_elem_of_lookup. eexists. apply bucket_at_lookup. exact Hs.
Qed.

(** *** Lookup in a well-formed table *)

Lemma chain_keys_unique ht i chain :
  keys_unique ht -> buckets ht !! i = Some chain -> NoDup (key <$> chain).
Proof.
  unfold keys_unique, all_entries. intros Hnd Hi.
  destruct (mjoin_insert _ _ _ Hi) as (others & Hperm & _).
  rewrite Hperm, fmap_app in Hnd. apply NoDup_app in Hnd. tauto.
Qed.

Lemma ht_get_spec ht k v :
  wf ht ->
  ht_get ht k = Some v <->
  exists entry, entry ∈ all_entries ht /\ key entry = k /\ value entry = v.
Proof.
  intros Hwf. unfold ht_get. split.
  - destruct (chain_find k _) as [entry|] eqn:Hf; simpl; [|discriminate].
    intros [= <-]. exists entry.
    destruct (present_somewhere ht k entry (wf_shape _ Hwf) Hf). auto.
  - intros (entry & Hin & <- & <-).
    apply list_elem_of_join in Hin as (chain & Hin & Hchain).
    apply list_elem_of_lookup in Hchain as (i & Hi).
    pose proof (wf_placed _ Hwf _ _ _ Hi Hin) as Hidx.
    pose proof (chain_keys_unique _ _ _ (wf_unique _ Hwf) Hi) as Hnd.
    rewrite <- Hidx, bucket_at_lookup in Hi by (apply Hwf).
    injection Hi as Hi. rewrite Hi.
    rewrite (chain_find_unique _ _ Hnd Hin). reflexivity.
Qed.

(** Two well-formed tables holding the same entries answer alike. *)
Lemma ht_get_perm ht ht' k :
  wf ht -> wf ht' -> all_entries ht ≡ₚ all_entries ht' ->
  ht_get ht' k = ht_get ht k.
Proof.
  intros Hwf Hwf' Hperm.
  destruct (ht_get ht k) as [v|] eqn:Hg.
  - apply ht_get_spec in Hg as (entry & Hin & Hk & Hv); [|exact Hwf].
    apply ht_get_spec; [exact Hwf'|]. exists entry. rewrite <- Hperm. auto.
  - destruct (ht_get ht' k) as [v'|] eqn:Hg'; [|reflexivity].
    apply ht_get_spec in Hg' as (entry & Hin & Hk & Hv); [|exact Hwf'].
    rewrite <- Hperm in Hin.
    assert (ht_get ht k = Some v') as Hx
      by (apply ht_get_spec; [exact Hwf | exists entry; auto]).
    congruence.
Qed.

(** *** The rehash pass *)

Lemma rehash_fold nnb old new :
  rehash nnb old new = fold_left (relink nnb) (mjoin old) new.
Proof.
  unfold rehash. revert new.
  induction old as [|chain old IH]; intros new; simpl; [reflexivity|].
  rewrite fold_left_app. apply IH.
Qed.

Lemma relink_length nnb acc entry : length (relink nnb acc entry) = length acc.
Proof. unfold relink. apply length_insert. Qed.

Lemma relink_all_length nnb es acc :
  length (fold_left (relink nnb) es acc) = length acc.
Proof.
  revert acc. induction es as [|e es IH]; intros acc; simpl; [reflexivity|].
  rewrite IH. apply relink_length.
Qed.

Lemma relink_lookup nnb acc entry :
  0 < nnb -> length acc = Z.to_nat nnb ->
  acc !! bucket_index (key entry) nnb
  = Some (bucket_at acc (bucket_index (key entry) nnb)).
Proof.
  intros Hpos Hlen. unfold bucket_at.
  destruct (lookup_lt_is_Some_2 acc (bucket_index (key entry) nnb)) as [c Hc].
  - rewrite Hlen. apply bucket_index_lt. exact Hpos.
  - rewrite Hc. reflexivity.
Qed.

Lemma relink_all_perm nnb es acc :
  0 < nnb -> length acc = Z.to_nat nnb ->
  mjoin (fold_left (relink nnb) es acc) ≡ₚ es ++ mjoin acc.
Proof.
  intros Hpos. revert acc.
  induction es as [|e es IH]; intros acc Hlen; simpl; [reflexivity|].
  rewrite IH by (rewrite relink_length; exact Hlen).
  destruct (mjoin_insert _ _ _ (relink_lookup nnb acc e Hpos Hlen))
    as (others & Hacc & Hins).
  unfold relink. rewrite Hins, Hacc. simpl.
  symmetry. apply Permutation_middle.
Qed.

Lemma relink_all_placed nnb es acc :
  0 < nnb -> length acc = Z.to_nat nnb ->
  placed nnb acc -> placed nnb (fold_left (relink nnb) es acc).
Proof.
  intros Hpos. revert acc.
  induction es as [|e es IH]; intros acc Hlen Hp; simpl; [exact Hp|].
  apply IH; [rewrite relink_length; exact Hlen|].
  unfold relink. apply placed_insert; [exact Hp|].
  intros entry [->|Hin]%elem_of_cons; [reflexivity|].
  eapply Hp; [apply relink_lookup; eassumption | exact Hin].
Qed.

Lemma placed_replicate nnb n : placed nnb (replicate n []).
Proof.
  intros i chain entry Hi Hin.
  apply lookup_replicate in Hi as [-> _]. apply elem_of_nil in Hin. destruct Hin.
Qed.

Lemma mjoin_replicate_nil n : mjoin (replicate n (@nil HashEntry)) = [].
Proof. induction n as [|n IH]; simpl; [reflexivity | exact IH]. Qed.

Lemma ht_resize_unfold ht o :
  ht_resize ht o =
  (if fst (calloc (mul64 (num_buckets ht) 2) sizeof_ptr o)
   then (0, resized ht) else (-1, ht),
   snd (calloc (mul64 (num_buckets ht) 2) sizeof_ptr o)).
Proof.
  unfold ht_resize, Alloc.bind.
  destruct (calloc _ _ o) as [[|] o']; reflexivity.
Qed.

Lemma calloc_granted n size o :
  fst (calloc n size o) = true -> n * size < 2 ^ 64.
Proof.
  unfold calloc, Alloc.bind, Alloc.request, Alloc.ret.
  destruct o as [|[|] o]; simpl; try discriminate; intros H; apply Z.ltb_lt; exact H.
Qed.

Lemma resized_entries ht :
  bucket_shape ht -> mul64 (num_buckets ht) 2 * sizeof_ptr < 2 ^ 64 ->
  num_buckets (resized ht) = 2 * num_buckets ht /\
  all_entries (resized ht) ≡ₚ all_entries ht.
Proof.
  intros (Hlen & Hpos & Hfit) Hnew.
  assert (mul64 (num_buckets ht) 2 = 2 * num_buckets ht) as Hnb.
  { unfold mul64. rewrite wrap64_small; unfold sizeof_ptr in *; lia. }
  split; [exact Hnb|].
  unfold all_entries, resized; simpl. rewrite rehash_fold, Hnb.
  rewrite relink_all_perm by (rewrite ?length_replicate; lia).
  rewrite mjoin_replicate_nil, app_nil_r. reflexivity.
Qed.

Lemma resized_wf ht :
  wf ht -> mul64 (num_buckets ht) 2 * sizeof_ptr < 2 ^ 64 -> wf (resized ht).
Proof.
  intros Hwf Hnew.
  destruct (resized_entries ht (wf_shape _ Hwf) Hnew) as [Hnb Hperm].
  destruct (wf_shape _ Hwf) as (Hlen & Hpos & Hfit).
  assert (mul64 (num_buckets ht) 2 = 2 * num_buckets ht) as Hmul by exact Hnb.
  split.
  - unfold bucket_shape. rewrite Hnb. repeat split; [|lia|rewrite <- Hmul; exact Hnew].
    unfold resized; simpl. rewrite rehash_fold, relink_all_length, length_replicate.
    rewrite Hmul. reflexivity.
  - unfold resized; simpl. rewrite rehash_fold, Hmul.
    apply relink_all_placed; [lia | rewrite length_replicate; reflexivity |].
    apply placed_replicate.
  - unfold keys_unique. rewrite Hperm. apply Hwf.
  - rewrite Hperm. apply Hwf.
  - unfold count_ok. rewrite Hperm. apply Hwf.
  - unfold memory_ok, accounted. rewrite (entries_size_perm _ _ Hperm), Hnb.
    unfold resized; simpl. rewrite (wf_memory _ Hwf), Hmul.
    unfold accounted, table_overhead. wrap_norm. lia.
Qed.

(** *** Update, insert and unlink *)

Lemma entry_create_inv k v o r o' :
  entry_create k v o = (r, o') -> r = None \/ r = Some (fresh_entry k v).
Proof.
  unfold entry_create, malloc, Alloc.bind, Alloc.request, Alloc.ret.
  destruct o as [|[|] [|[|] [|[|] o]]]; simpl; intros [= <- <-]; auto.
Qed.

(** What a call of [ht_upsert] can have done. *)
Lemma ht_upsert_inv ht k v o r ht' o' :
  ht_upsert ht k v o = (r, ht', o') ->
  (r = -1 /\ ht' = ht) \/
  (r = 0 /\ num_buckets ht' = num_buckets ht /\
   let index := bucket_index k (num_buckets ht) in
   let chain := bucket_at (buckets ht) index in
   match chain_find k chain with
   | Some entry =>
       buckets ht' = <[index := chain_replace k (with_value entry v) chain]> (buckets ht) /\
       num_entries ht' = num_entries ht /\
       memory_used ht' = add64 (sub64 (memory_used ht) (entry_memory entry))
                               (entry_memory (with_value entry v))
   | None =>
       buckets ht' = <[index := fresh_entry k v :: chain]> (buckets ht) /\
       num_entries ht' = add64 (num_entries ht) 1 /\
       memory_used ht' = add64 (memory_used ht) (entry_memory (fresh_entry k v))
   end).
Proof.
  unfold ht_upsert. cbv zeta.
  destruct (chain_find k _) as [entry|] eqn:Hf.
  - unfold malloc, Alloc.bind, Alloc.request, Alloc.ret.
    destruct o as [|[|] o]; simpl; intros [= <- <- <-]; auto.
    + right. simpl. auto.
    + right. simpl. auto.
  - unfold Alloc.bind. destruct (entry_create k v o) as [new o1] eqn:Hc.
    destruct (entry_create_inv _ _ _ _ _ Hc) as [->| ->];
      unfold Alloc.ret; intros [= <- <- <-]; auto.
    right. simpl. auto.
Qed.

Lemma ht_upsert_granted ht k v : fst (fst (ht_upsert ht k v [])) = 0.
Proof.
  unfold ht_upsert. cbv zeta. destruct (chain_find k _) as [entry|]; reflexivity.
Qed.

Lemma with_value_sized entry v :
  entry_sized entry -> strlen v <= MAX_VALUE_SIZE -> entry_sized (with_value entry v).
Proof. unfold entry_sized; simpl. intuition. Qed.

Lemma fresh_entry_sized k v :
  strlen k <= MAX_KEY_SIZE -> strlen v <= MAX_VALUE_SIZE -> entry_sized (fresh_entry k v).
Proof. unfold entry_sized; simpl. intuition. Qed.

Lemma ht_upsert_wf ht k v o ht' o' :
  wf ht -> strlen k <= MAX_KEY_SIZE -> strlen v <= MAX_VALUE_SIZE ->
  ht_upsert ht k v o = (0, ht', o') ->
  wf ht' /\ num_buckets ht' = num_buckets ht /\ upsert_effect ht ht' k v.
Proof.
  intros Hwf Hk Hv Hup.
  destruct (ht_upsert_inv _ _ _ _ _ _ _ Hup) as [[? _]|(_ & Hnb & Hcase)];
    [discriminate|].
  cbv zeta in Hcase.
  pose proof (bucket_at_lookup ht k (wf_shape _ Hwf)) as Hlk.
  destruct (mjoin_insert _ _ _ Hlk) as (others & Hall & Hall').
  destruct (wf_shape _ Hwf) as (Hlen & Hpos & Hfit).
  destruct (chain_find k _) as [entry|] eqn:Hf.
  - (* update in place *)
    destruct Hcase as (Hbs & Hne & Hmu).
    destruct (chain_find_split _ _ _ Hf) as (l1 & l2 & Hchain & Hkey & _ & Hrep & _).
    set (rest := l1 ++ l2 ++ others).
    assert (all_entries ht ≡ₚ entry :: rest) as Hold.
    { unfold all_entries. rewrite Hall, Hchain. unfold rest.
      rewrite <- app_assoc. simpl. symmetry. apply Permutation_middle. }
    assert (all_entries ht' ≡ₚ with_value entry v :: rest) as Hnew.
    { unfold all_entries. rewrite Hbs, Hall', Hrep. unfold rest.
      rewrite <- app_assoc. simpl. symmetry. apply Permutation_middle. }
    pose proof (wf_sized _ Hwf) as Hsz. rewrite Hold in Hsz.
    apply Forall_cons in Hsz as [Hsz_e Hsz_rest].
    split; [|split; [exact Hnb|left; exists entry, rest; auto]].
    split.
    + unfold bucket_shape. rewrite Hbs, Hnb, length_insert. auto.
    + rewrite Hbs, Hnb. apply placed_insert; [apply Hwf|].
      intros x Hx. rewrite Hrep in Hx.
      apply elem_of_app in Hx as [Hx|[->|Hx]%elem_of_cons].
      * eapply (wf_placed _ Hwf); [exact Hlk|]. rewrite Hchain. apply elem_of_app; auto.
      * simpl. rewrite Hkey. reflexivity.
      * eapply (wf_placed _ Hwf); [exact Hlk|]. rewrite Hchain.
        apply elem_of_app; right. apply elem_of_cons; auto.
    + unfold keys_unique. rewrite Hnew. simpl.
      pose proof (wf_unique _ Hwf) as Hnd. unfold keys_unique in Hnd.
      rewrite Hold in Hnd. exact Hnd.
    + rewrite Hnew. apply Forall_cons. split; [|exact Hsz_rest].
      apply with_value_sized; assumption.
    + unfold count_ok. rewrite Hne, Hnew, (wf_count _ Hwf), Hold. reflexivity.
    + unfold memory_ok, accounted. rewrite Hmu, Hnb, (entries_size_perm _ _ Hnew).
      rewrite (wf_memory _ Hwf). unfold accounted.
      rewrite (entries_size_perm _ _ Hold), !entries_size_cons.
      rewrite (entry_memory_accounted entry Hsz_e).
      rewrite (entry_memory_accounted (with_value entry v))
        by (apply with_value_sized; assumption).
      wrap_norm. lia.
  - (* insert at the head *)
    destruct Hcase as (Hbs & Hne & Hmu).
    assert (all_entries ht' ≡ₚ fresh_entry k v :: all_entries ht) as Hnew.
    { unfold all_entries. rewrite Hbs, Hall', Hall. reflexivity. }
    pose proof (absent_everywhere ht k (wf_shape _ Hwf) (wf_placed _ Hwf) Hf) as Habs.
    split; [|split; [exact Hnb|right; auto]].
    split.
    + unfold bucket_shape. rewrite Hbs, Hnb, length_insert. auto.
    + rewrite Hbs, Hnb. apply placed_insert; [apply Hwf|].
      intros x [->|Hx]%elem_of_cons; [reflexivity|].
      eapply (wf_placed _ Hwf); [exact Hlk | exact Hx].
    + unfold keys_unique. rewrite Hnew. simpl. apply NoDup_cons.
      split; [exact Habs | apply Hwf].
    + rewrite Hnew. apply Forall_cons. split; [|apply Hwf].
      apply fresh_entry_sized; assumption.
    + unfold count_ok. rewrite Hne, Hnew, (wf_count _ Hwf). simpl length.
      wrap_norm. lia.
    + unfold memory_ok, accounted. rewrite Hmu, Hnb, (entries_size_perm _ _ Hnew).
      rewrite (wf_memory _ Hwf), entries_size_cons. unfold accounted.
      rewrite (entry_memory_accounted (fresh_entry k v))
        by (apply fresh_entry_sized; assumption).
      wrap_norm. lia.
Qed.

Lemma upsert_effect_perm ht0 ht ht' k v :
  all_entries ht ≡ₚ all_entries ht0 -> num_entries ht = num_entries ht0 ->
  upsert_effect ht ht' k v -> upsert_effect ht0 ht' k v.
Proof.
  intros Hperm Hne [(entry & rest & Hk & Hold & Hnew & Hcnt)|(Habs & Hnew & Hcnt)].
  - left. exists entry, rest. rewrite <- Hperm, <- Hne. auto.
  - right. rewrite <- Hperm, <- Hne. auto.
Qed.

(** *** [ht_resize], [ht_set], [ht_delete] and [ht_create] as a whole *)

Lemma ht_resize_spec ht o r ht' o' :
  wf ht -> ht_resize ht o = (r, ht', o') ->
  (r = -1 /\ ht' = ht) \/
  (r = 0 /\ ht' = resized ht /\ wf ht' /\
   num_buckets ht' = 2 * num_buckets ht /\
   all_entries ht' ≡ₚ all_entries ht /\ num_entries ht' = num_entries ht).
Proof.
  intros Hwf. rewrite ht_resize_unfold.
  destruct (fst (calloc _ _ o)) eqn:Hc; intros [= <- <- <-]; [right|left; auto].
  apply calloc_granted in Hc.
  destruct (resized_entries ht (wf_shape _ Hwf) Hc) as [Hnb Hperm].
  split; [reflexivity|]. split; [reflexivity|].
  split; [apply resized_wf; assumption|]. auto.
Qed.

(** A resize, granted or not, answers every [ht_get] as before. *)
Lemma ht_resize_get ht o k :
  wf ht -> ht_get (snd (fst (ht_resize ht o))) k = ht_get ht k.
Proof.
  intros Hwf. destruct (ht_resize ht o) as [[r ht'] o'] eqn:Hrs. simpl.
  destruct (ht_resize_spec _ _ _ _ _ Hwf Hrs)
    as [[_ ->]|(_ & _ & Hwf' & _ & Hperm & _)]; [reflexivity|].
  apply ht_get_perm; [exact Hwf | exact Hwf' | symmetry; exact Hperm].
Qed.

Lemma ht_set_rejects ht k v o :
  MAX_KEY_SIZE < strlen k \/ MAX_VALUE_SIZE < strlen v ->
  ht_set ht k v o = (-1, ht, o).
Proof.
  intros H. unfold ht_set.
  destruct (MAX_KEY_SIZE <? strlen k) eqn:Hk; [reflexivity|].
  destruct (MAX_VALUE_SIZE <? strlen v) eqn:Hv; [reflexivity|].
  apply Z.ltb_ge in Hk, Hv. lia.
Qed.

Lemma ht_set_unfold ht k v o :
  strlen k <= MAX_KEY_SIZE -> strlen v <= MAX_VALUE_SIZE ->
  ht_set ht k v o =
  if load_factor_exceeded ht
  then ht_upsert (snd (fst (ht_resize ht o))) k v (snd (ht_resize ht o))
  else ht_upsert ht k v o.
Proof.
  intros Hk Hv. unfold ht_set.
  apply Z.ltb_ge in Hk, Hv. rewrite Hk, Hv. simpl.
  unfold Alloc.bind at 1.
  destruct (load_factor_exceeded ht); [|reflexivity].
  unfold Alloc.bind, Alloc.ret. destruct (ht_resize ht o) as [[r ht1] o1]. reflexivity.
Qed.

Lemma ht_set_spec ht k v o r ht' o' :
  wf ht -> ht_set ht k v o = (r, ht', o') ->
  wf ht' /\
  (num_buckets ht' = num_buckets ht \/
   (load_factor_exceeded ht = true /\ num_buckets ht' = 2 * num_buckets ht)) /\
  ((r = -1 /\ all_entries ht' ≡ₚ all_entries ht /\ num_entries ht' = num_entries ht) \/
   (r = 0 /\ upsert_effect ht ht' k v)).
Proof.
  intros Hwf Hset.
  destruct (Z_le_gt_dec (strlen k) MAX_KEY_SIZE) as [Hk|Hk];
    [destruct (Z_le_gt_dec (strlen v) MAX_VALUE_SIZE) as [Hv|Hv]|].
  2,3: rewrite ht_set_rejects in Hset by lia; injection Hset as <- <- <-; auto 6.
  rewrite ht_set_unfold in Hset by assumption.
  assert (exists ht1 o1,
    ht_upsert ht1 k v o1 = (r, ht', o') /\ wf ht1 /\
    all_entries ht1 ≡ₚ all_entries ht /\ num_entries ht1 = num_entries ht /\
    (num_buckets ht1 = num_buckets ht \/
     (load_factor_exceeded ht = true /\ num_buckets ht1 = 2 * num_buckets ht)))
    as (ht1 & o1 & Hup & Hwf1 & Hperm & Hcnt & Hnb).
  { destruct (load_factor_exceeded ht) eqn:Hlf.
    - destruct (ht_resize ht o) as [[r1 ht1] o1] eqn:Hrs. simpl in Hset.
      exists ht1, o1. split; [exact Hset|].
      destruct (ht_resize_spec _ _ _ _ _ Hwf Hrs)
        as [[_ ->]|(_ & _ & Hwf1 & Hnb & Hperm & Hcnt)]; auto 7.
    - exists ht, o. auto 7. }
  destruct (ht_upsert_inv _ _ _ _ _ _ _ Hup) as [[-> ->]|[-> _]].
  - auto 6.
  - destruct (ht_upsert_wf _ _ _ _ _ _ Hwf1 Hk Hv Hup) as (Hwf' & Hnb' & Heff).
    split; [exact Hwf'|]. rewrite Hnb'. split; [exact Hnb|].
    right. split; [reflexivity|]. eapply upsert_effect_perm; eauto.
Qed.

Lemma ht_delete_spec ht k r ht' :
  wf ht -> ht_delete ht k = (r, ht') ->
  wf ht' /\ num_buckets ht' = num_buckets ht /\
  ((r = -1 /\ ht' = ht /\ k ∉ key <$> all_entries ht) \/
   (r = 0 /\ exists entry,
       key entry = k /\ all_entries ht ≡ₚ entry :: all_entries ht' /\
       num_entries ht' = sub64 (num_entries ht) 1)).
Proof.
  intros Hwf. unfold ht_delete. cbv zeta.
  pose proof (bucket_at_lookup ht k (wf_shape _ Hwf)) as Hlk.
  destruct (chain_find k _) as [entry|] eqn:Hf; intros [= <- <-].
  - destruct (mjoin_insert _ _ _ Hlk) as (others & Hall & Hall').
    destruct (chain_find_split _ _ _ Hf) as (l1 & l2 & Hchain & Hkey & _ & _ & Hunl).
    destruct (wf_shape _ Hwf) as (Hlen & Hpos & Hfit).
    match goal with |- wf ?t /\ _ => set (ht' := t) end.
    assert (all_entries ht ≡ₚ entry :: all_entries ht') as Hold.
    { unfold all_entries, ht'; simpl. rewrite Hall, Hall', Hunl, Hchain.
      rewrite <- !app_assoc. simpl. symmetry. apply Permutation_middle. }
    pose proof (wf_sized _ Hwf) as Hsz. rewrite Hold in Hsz.
    apply Forall_cons in Hsz as [Hsz_e Hsz_rest].
    split; [|split; [reflexivity|right; split; [reflexivity|exists entry; auto]]].
    split.
    + unfold bucket_shape, ht'; simpl. rewrite length_insert. auto.
    + unfold ht'; simpl. apply placed_insert; [apply Hwf|].
      intros x Hx. rewrite Hunl in Hx.
      eapply (wf_placed _ Hwf); [exact Hlk|]. rewrite Hchain.
      apply elem_of_app in Hx as [Hx|Hx]; apply elem_of_app; auto.
      right. apply elem_of_cons; auto.
    + pose proof (wf_unique _ Hwf) as Hnd. unfold keys_unique in *.
      rewrite Hold in Hnd. simpl in Hnd. apply NoDup_cons in Hnd. tauto.
    + exact Hsz_rest.
    + unfold count_ok. change (num_entries ht') with (sub64 (num_entries ht) 1).
      rewrite (wf_count _ Hwf), Hold. simpl length. wrap_norm. lia.
    + unfold memory_ok, accounted.
      change (memory_used ht') with (sub64 (memory_used ht) (entry_memory entry)).
      change (num_buckets ht') with (num_buckets ht).
      rewrite (wf_memory _ Hwf). unfold accounted.
      rewrite (entries_size_perm _ _ Hold), entries_size_cons.
      rewrite (entry_memory_accounted entry Hsz_e). wrap_norm. lia.
  - split; [exact Hwf|]. split; [reflexivity|]. left. repeat split.
    apply absent_everywhere; [apply Hwf..|exact Hf].
Qed.

Lemma ht_create_inv n o ht o' :
  ht_create n o = (Some ht, o') ->
  let nb := if 0 <? n then n else INITIAL_BUCKETS in
  nb * sizeof_ptr < 2 ^ 64 /\
  ht = {| buckets := replicate (Z.to_nat nb) [];
          num_buckets := nb; num_entries := 0;
          memory_used := add64 sizeof_HashTable (mul64 nb sizeof_ptr) |}.
Proof.
  unfold ht_create, malloc, calloc, Alloc.bind, Alloc.request, Alloc.ret.
  cbv zeta.
  destruct o as [|[|] [|[|] o]]; simpl; try discriminate;
    destruct (_ <? 2 ^ 64) eqn:Hfit; simpl; try discriminate;
    intros [= <- <-]; apply Z.ltb_lt in Hfit; auto.
Qed.

Lemma ht_create_spec n o ht o' :
  ht_create n o = (Some ht, o') ->
  wf ht /\ num_buckets ht = (if 0 <? n then n else INITIAL_BUCKETS) /\
  all_entries ht = [] /\ num_entries ht = 0.
Proof.
  intros Hc. apply ht_create_inv in Hc as [Hfit ->]. cbv zeta in Hfit.
  set (nb := if 0 <? n then n else INITIAL_BUCKETS) in *.
  assert (0 < nb) as Hpos.
  { unfold nb. destruct (0 <? n) eqn:Hn; [apply Z.ltb_lt; exact Hn|reflexivity]. }
  assert (all_entries
            {| buckets := replicate (Z.to_nat nb) []; num_buckets := nb;
               num_entries := 0;
               memory_used := add64 sizeof_HashTable (mul64 nb sizeof_ptr) |} = [])
    as Hall by apply mjoin_replicate_nil.
  split; [|auto]. split; simpl.
  - unfold bucket_shape; simpl. rewrite length_replicate. auto.
  - apply placed_replicate.
  - unfold keys_unique. rewrite Hall. constructor.
  - rewrite Hall. constructor.
  - unfold count_ok. rewrite Hall. reflexivity.
  - unfold memory_ok, accounted. rewrite Hall. simpl.
    unfold table_overhead. wrap_norm. lia.
Qed.

(** ** The invariant holds of reachable stores *)

Lemma reachable_wf n ht : reachable n ht -> wf ht.
Proof.
  induction 1 as [o ht o' Hc|ht k v o r ht' o' _ IH Hs|ht k r ht' _ IH Hd
                 |ht o r ht' o' _ IH Hr].
  - apply (ht_create_spec _ _ _ _ Hc).
  - apply (ht_set_spec _ _ _ _ _ _ _ IH Hs).
  - apply (ht_delete_spec _ _ _ _ IH Hd).
  - destruct (ht_resize_spec _ _ _ _ _ IH Hr) as [[_ ->]|(_ & _ & Hwf & _)]; assumption.
Qed.

(** ** Memory accounting is incremental *)

Lemma drifted_same ht m : 0 <= m < 2 ^ 64 -> drifted ht ht m = with_memory ht m.
Proof.
  intros Hm. unfold drifted. f_equal.
  replace (memory_used ht + (m - memory_used ht)) with m by lia.
  apply wrap64_small. exact Hm.
Qed.

Lemma ht_resize_drift ht o m :
  0 <= m < 2 ^ 64 ->
  ht_resize (with_memory ht m) o =
  (fst (fst (ht_resize ht o)), drifted ht (snd (fst (ht_resize ht o))) m,
   snd (ht_resize ht o)).
Proof.
  intros Hm. rewrite !ht_resize_unfold. simpl.
  destruct (fst (calloc _ _ o)); simpl.
  - unfold drifted, with_memory, resized; simpl. do 2 f_equal. f_equal.
    wrap_norm. ring.
  - rewrite drifted_same by exact Hm. reflexivity.
Qed.

Lemma ht_upsert_drift ht0 ht k v o m :
  0 <= m < 2 ^ 64 ->
  ht_upsert (drifted ht0 ht m) k v o =
  (fst (fst (ht_upsert ht k v o)), drifted ht0 (snd (fst (ht_upsert ht k v o))) m,
   snd (ht_upsert ht k v o)).
Proof.
  intros Hm. unfold ht_upsert. cbv zeta. simpl.
  destruct (chain_find k _) as [entry|].
  - unfold malloc, Alloc.bind, Alloc.request, Alloc.ret.
    destruct o as [|[|] o]; simpl; try reflexivity;
      unfold drifted, with_memory; simpl; do 2 f_equal; f_equal; wrap_norm; lia.
  - unfold Alloc.bind. destruct (entry_create k v o) as [[new|] o1]; simpl;
      try reflexivity.
    unfold drifted, with_memory; simpl. do 2 f_equal. f_equal. wrap_norm. lia.
Qed.

Lemma ht_set_drift ht k v o m :
  0 <= m < 2 ^ 64 ->
  ht_set (with_memory ht m) k v o =
  (fst (fst (ht_set ht k v o)), drifted ht (snd (fst (ht_set ht k v o))) m,
   snd (ht_set ht k v o)).
Proof.
  intros Hm.
  destruct (Z_le_gt_dec (strlen k) MAX_KEY_SIZE) as [Hk|Hk];
    [destruct (Z_le_gt_dec (strlen v) MAX_VALUE_SIZE) as [Hv|Hv]|].
  2,3: rewrite !ht_set_rejects by lia; simpl;
       rewrite drifted_same by exact Hm; reflexivity.
  rewrite !ht_set_unfold by assumption.
  change (load_factor_exceeded (with_memory ht m)) with (load_factor_exceeded ht).
  destruct (load_factor_exceeded ht).
  - rewrite ht_resize_drift by exact Hm. simpl. apply ht_upsert_drift. exact Hm.
  - rewrite <- (drifted_same ht m Hm). apply ht_upsert_drift. exact Hm.
Qed.

Lemma ht_delete_drift ht k m :
  0 <= m < 2 ^ 64 ->
  ht_delete (with_memory ht m) k =
  (fst (ht_delete ht k), drifted ht (snd (ht_delete ht k)) m).
Proof.
  intros Hm. unfold ht_delete. cbv zeta. simpl.
  destruct (chain_find k _) as [entry|]; simpl.
  - unfold drifted, with_memory; simpl. do 2 f_equal. wrap_norm. lia.
  - rewrite drifted_same by exact Hm. reflexivity.
Qed.

Lemma default_store_reachable : reachable INITIAL_BUCKETS default_store.
Proof. apply (reach_create _ [] default_store []). reflexivity. Qed.

Lemma store_ab_reachable : reachable INITIAL_BUCKETS store_ab.
Proof.
  apply (reach_set _ default_store "a" "b" [] 0 store_ab []).
  - exact default_store_reachable.
  - vm_compute. reflexivity.
Qed.

Lemma one_bucket_store_reachable : reachable 1 one_bucket_store.
Proof.
  apply (reach_set _ (mkTable [[]] 1 0 40) "a" "b" [] 0 one_bucket_store []).
  - apply (reach_create _ [] _ []). reflexivity.
  - vm_compute. reflexivity.
Qed.

(** ** C1: memory accounting *)

(** C1. After every store operation (create, set inserting, set updating,
    delete, resize) [memory_used] equals the fixed table overhead (header plus
    [num_buckets] pointer-sized slots) plus the sum over the live entries of
    node overhead + key length + 1 + value length + 1, as long as that sum is
    representable in a [size_t]. The figure is maintained incrementally: run
    from any other figure [m], each operation ends with the same table and a
    figure that is off by exactly as much as [m] was. *)
Theorem memory_used_accounted n ht :
  reachable n ht -> accounted ht < 2 ^ 64 ->
  memory_used ht
  = sizeof_HashTable + num_buckets ht * sizeof_ptr + entries_size (all_entries ht) /\
  forall m, 0 <= m < 2 ^ 64 ->
    (forall k v o,
        ht_set (with_memory ht m) k v o =
        (fst (fst (ht_set ht k v o)), drifted ht (snd (fst (ht_set ht k v o))) m,
         snd (ht_set ht k v o))) /\
    (forall k,
        ht_delete (with_memory ht m) k =
        (fst (ht_delete ht k), drifted ht (snd (ht_delete ht k)) m)) /\
    (forall o,
        ht_resize (with_memory ht m) o =
        (fst (fst (ht_resize ht o)), drifted ht (snd (fst (ht_resize ht o))) m,
         snd (ht_resize ht o))).
Proof.
  intros Hreach Hfits. split.
  - pose proof (wf_memory _ (reachable_wf _ _ Hreach)) as Hmem.
    unfold memory_ok in Hmem. rewrite Hmem.
    assert (0 <= accounted ht) as Hpos.
    { unfold accounted, table_overhead.
      destruct (wf_shape _ (reachable_wf _ _ Hreach)) as (_ & Hnb & _).
      assert (0 <= entries_size (all_entries ht)) as Hes.
      { induction (all_entries ht) as [|e es IH]; simpl; [lia|].
        fold (entries_size es). unfold accounted_size, strlen, sizeof_HashEntry. lia. }
      unfold sizeof_HashTable, sizeof_ptr. lia. }
    rewrite wrap64_small by lia. reflexivity.
  - intros m Hm. split; [|split].
    + intros k v o. apply ht_set_drift. exact Hm.
    + intros k. apply ht_delete_drift. exact Hm.
    + intros o. apply ht_resize_drift. exact Hm.
Qed.

Lemma memory_used_accounted_witness :
  reachable INITIAL_BUCKETS store_ab /\ accounted store_ab < 2 ^ 64 /\
  memory_used store_ab = 32 + 64 * 8 + (40 + 1 + 1 + 1 + 1).
Proof.
  split; [exact store_ab_reachable|]. split; [vm_compute; reflexivity|].
  exact (proj1 (memory_used_accounted INITIAL_BUCKETS store_ab store_ab_reachable
                  ltac:(vm_compute; reflexivity))).
Defined.

(** ** C8: keys are unique *)

(** C8. In every reachable store no two entries carry the same key. [ht_set]
    of a key that is present leaves the keys of the table as they were
    (it updates in place), and [ht_resize] keeps exactly the entries it
    found (it moves them). *)
Theorem no_two_entries_share_a_key n ht :
  reachable n ht ->
  NoDup (key <$> all_entries ht) /\
  (forall k v o,
      k ∈ key <$> all_entries ht ->
      key <$> all_entries (snd (fst (ht_set ht k v o))) ≡ₚ key <$> all_entries ht) /\
  (forall o, all_entries (snd (fst (ht_resize ht o))) ≡ₚ all_entries ht).
Proof.
  intros Hreach. pose proof (reachable_wf _ _ Hreach) as Hwf.
  split; [apply Hwf|]. split.
  - intros k v o Hin.
    destruct (ht_set ht k v o) as [[r ht'] o'] eqn:Hset. simpl.
    destruct (ht_set_spec _ _ _ _ _ _ _ Hwf Hset)
      as (_ & _ & [(_ & Hperm & _)|(_ & Heff)]).
    + rewrite Hperm. reflexivity.
    + destruct Heff as [(entry & rest & Hk & Hold & Hnew & _)|(Habs & _)].
      * rewrite Hnew, Hold. reflexivity.
      * contradiction.
  - intros o. destruct (ht_resize ht o) as [[r ht'] o'] eqn:Hrs. simpl.
    destruct (ht_resize_spec _ _ _ _ _ Hwf Hrs) as [[_ ->]|(_ & _ & _ & _ & Hperm & _)];
      [reflexivity | exact Hperm].
Qed.

Lemma no_two_entries_share_a_key_witness :
  reachable INITIAL_BUCKETS store_ab /\ NoDup (key <$> all_entries store_ab).
Proof.
  split; [exact store_ab_reachable|].
  exact (proj1 (no_two_entries_share_a_key INITIAL_BUCKETS store_ab store_ab_reachable)).
Defined.

(** ** C9: the bucket count *)





(** ** C4: the size limits *)

Lemma ht_resize_granted_oracle ht : snd (ht_resize ht []) = [].
Proof. rewrite ht_resize_unfold. reflexivity. Qed.

(** With every request granted, a set within the limits succeeds. *)
Lemma ht_set_granted ht k v :
  strlen k <= MAX_KEY_SIZE -> strlen v <= MAX_VALUE_SIZE ->
  fst (fst (ht_set ht k v [])) = 0.
Proof.
  intros Hk Hv. rewrite ht_set_unfold by assumption.
  destruct (load_factor_exceeded ht).
  - rewrite ht_resize_granted_oracle. apply ht_upsert_granted.
  - apply ht_upsert_granted.
Qed.

(** C4. [ht_set] takes a key of exactly 256 bytes and a value of exactly
    4096 bytes (it succeeds when the allocator grants its requests) and turns
    down a key of 257 bytes and a value of 4097 bytes; whenever a size is over
    its limit it returns -1 and leaves the store as it was: same entry count,
    same memory figure, same contents, and no memory was requested. *)
Theorem set_size_boundaries ht k v o :
  (strlen k = 256 -> strlen v <= 4096 -> fst (fst (ht_set ht k v [])) = 0) /\
  (strlen k <= 256 -> strlen v = 4096 -> fst (fst (ht_set ht k v [])) = 0) /\
  (strlen k = 257 -> ht_set ht k v o = (-1, ht, o)) /\
  (strlen v = 4097 -> ht_set ht k v o = (-1, ht, o)) /\
  (256 < strlen k \/ 4096 < strlen v ->
   fst (fst (ht_set ht k v o)) = -1 /\
   snd (fst (ht_set ht k v o)) = ht /\
   ht_stats (snd (fst (ht_set ht k v o))) = ht_stats ht /\
   forall k', ht_get (snd (fst (ht_set ht k v o))) k' = ht_get ht k').
Proof.
  repeat split.
  - intros Hk Hv. apply ht_set_granted; unfold MAX_KEY_SIZE, MAX_VALUE_SIZE; lia.
  - intros Hk Hv. apply ht_set_granted; unfold MAX_KEY_SIZE, MAX_VALUE_SIZE; lia.
  - intros Hk. apply ht_set_rejects. unfold MAX_KEY_SIZE. lia.
  - intros Hv. apply ht_set_rejects. unfold MAX_VALUE_SIZE. lia.
  - rewrite ht_set_rejects by exact H. reflexivity.
  - rewrite ht_set_rejects by exact H. reflexivity.
  - rewrite ht_set_rejects by exact H. reflexivity.
  - intros k'. rewrite ht_set_rejects by exact H. reflexivity.
Qed.

Lemma set_size_boundaries_witness :
  fst (fst (ht_set default_store key_256 value_4096 [])) = 0 /\
  ht_set default_store (key_256 ++ "k") "v" [] = (-1, default_store, []) /\
  ht_set default_store "k" (value_4096 ++ "v") [] = (-1, default_store, []).
Proof.
  pose proof (set_size_boundaries default_store key_256 value_4096 [])
    as (H256 & _).
  pose proof (set_size_boundaries default_store (key_256 ++ "k") "v" [])
    as (_ & _ & H257 & _).
  pose proof (set_size_boundaries default_store "k" (value_4096 ++ "v") [])
    as (_ & _ & _ & H4097 & _).
  split; [apply H256; vm_compute; [reflexivity | discriminate]|].
  split; [apply H257; vm_compute; reflexivity | apply H4097; vm_compute; reflexivity].
Defined.

(** ** C3: set then get *)

Lemma chain_find_app_skip k l1 l :
  k ∉ key <$> l1 -> chain_find k (l1 ++ l) = chain_find k l.
Proof.
  induction l1 as [|e l1 IH]; simpl; [reflexivity|].
  rewrite not_elem_of_cons. intros [Hne Hnot].
  destruct (String.eqb_spec (key e) k) as [Heq|_]; [congruence|].
  apply IH. exact Hnot.
Qed.

Lemma chain_find_replace k chain entry entry' :
  chain_find k chain = Some entry -> key entry' = k ->
  chain_find k (chain_replace k entry' chain) = Some entry'.
Proof.
  intros Hf Hk.
  destruct (chain_find_split _ _ _ Hf) as (l1 & l2 & _ & _ & Hnot & Hrep & _).
  rewrite Hrep, chain_find_app_skip by exact Hnot.
  simpl. rewrite Hk, String.eqb_refl. reflexivity.
Qed.

Lemma bucket_at_insert bs i chain :
  (i < length bs)%nat -> bucket_at (<[i:=chain]> bs) i = chain.
Proof.
  intros Hi. unfold bucket_at. rewrite list_lookup_insert_eq by exact Hi. reflexivity.
Qed.

Lemma resized_shape ht :
  bucket_shape ht -> mul64 (num_buckets ht) 2 * sizeof_ptr < 2 ^ 64 ->
  bucket_shape (resized ht).
Proof.
  intros (Hlen & Hpos & Hfit) Hnew.
  assert (mul64 (num_buckets ht) 2 = 2 * num_buckets ht) as Hnb.
  { unfold mul64. rewrite wrap64_small; unfold sizeof_ptr in *; lia. }
  unfold bucket_shape, resized; simpl.
  rewrite rehash_fold, relink_all_length, length_replicate. split; [reflexivity|].
  rewrite Hnb in *. split; [lia | exact Hnew].
Qed.

Lemma ht_resize_shape ht o :
  bucket_shape ht -> bucket_shape (snd (fst (ht_resize ht o))).
Proof.
  intros Hs. rewrite ht_resize_unfold.
  destruct (fst (calloc _ _ o)) eqn:Hc; simpl; [|exact Hs].
  apply resized_shape; [exact Hs|]. apply calloc_granted in Hc. exact Hc.
Qed.

Lemma ht_upsert_get ht k v o ht' o' :
  bucket_shape ht -> ht_upsert ht k v o = (0, ht', o') -> ht_get ht' k = Some v.
Proof.
  intros Hs Hup.
  destruct (ht_upsert_inv _ _ _ _ _ _ _ Hup) as [[? _]|(_ & Hnb & Hcase)];
    [discriminate|].
  cbv zeta in Hcase. unfold ht_get. rewrite Hnb.
  assert (bucket_index k (num_buckets ht) < length (buckets ht))%nat as Hi.
  { destruct Hs as (Hlen & Hpos & _). rewrite Hlen. apply bucket_index_lt. exact Hpos. }
  destruct (chain_find k _) as [entry|] eqn:Hf; destruct Hcase as (-> & _).
  - rewrite bucket_at_insert by exact Hi.
    rewrite (chain_find_replace _ _ _ _ Hf); [reflexivity|].
    apply (chain_find_key _ _ _ Hf).
  - rewrite bucket_at_insert by exact Hi.
    simpl. rewrite String.eqb_refl. reflexivity.
Qed.

Lemma ht_set_get ht k v o :
  bucket_shape ht -> strlen k <= MAX_KEY_SIZE -> strlen v <= MAX_VALUE_SIZE ->
  fst (fst (ht_set ht k v o)) = 0 ->
  ht_get (snd (fst (ht_set ht k v o))) k = Some v.
Proof.
  intros Hs Hk Hv. rewrite ht_set_unfold by assumption.
  destruct (load_factor_exceeded ht).
  - destruct (ht_upsert _ k v _) as [[r ht'] o'] eqn:Hup. simpl. intros ->.
    eapply ht_upsert_get; [|exact Hup]. apply ht_resize_shape. exact Hs.
  - destruct (ht_upsert _ k v _) as [[r ht'] o'] eqn:Hup. simpl. intros ->.
    eapply ht_upsert_get; [exact Hs | exact Hup].
Qed.

(** C3. On any store (a bucket array of [num_buckets] slots), for every key
    of at most 256 bytes and every value of at most 4096 bytes: [ht_set]
    succeeds when its requests are granted, and whenever [ht_set] succeeds a
    following [ht_get] of the key returns exactly the bytes of the value. *)
Theorem set_then_get ht k v :
  bucket_shape ht -> strlen k <= 256 -> strlen v <= 4096 ->
  fst (fst (ht_set ht k v [])) = 0 /\
  forall o, fst (fst (ht_set ht k v o)) = 0 ->
            ht_get (snd (fst (ht_set ht k v o))) k = Some v.
Proof.
  intros Hs Hk Hv. split; [apply ht_set_granted; assumption|].
  intros o. apply ht_set_get; assumption.
Qed.

Lemma set_then_get_witness :
  ht_get (snd (fst (ht_set one_bucket_store "a" "hello world" []))) "a"
  = Some "hello world"%string.
Proof.
  refine (proj2 (set_then_get one_bucket_store "a" "hello world" _ _ _) [] _).
  - unfold bucket_shape. vm_compute. repeat split; reflexivity.
  - vm_compute. discriminate.
  - vm_compute. discriminate.
  - vm_compute. reflexivity.
Defined.

(** ** C7: the entry count *)

Lemma key_set_perm ht ht' :
  all_entries ht' ≡ₚ all_entries ht -> key_set ht' = key_set ht.
Proof. intros Hperm. unfold key_set. rewrite Hperm. reflexivity. Qed.

Lemma run_op_wf ht x : wf ht -> wf (snd (run_op ht x)).
Proof.
  intros Hwf. destruct x as [k v o|k]; simpl.
  - destruct (ht_set ht k v o) as [[r ht'] o'] eqn:Hset. simpl.
    apply (ht_set_spec _ _ _ _ _ _ _ Hwf Hset).
  - destruct (ht_delete ht k) as [r ht'] eqn:Hdel. simpl.
    apply (ht_delete_spec _ _ _ _ Hwf Hdel).
Qed.

Lemma run_op_live ht x :
  wf ht ->
  key_set (snd (run_op ht x)) =
  if fst (run_op ht x) =? 0 then
    match x with
    | OpSet k _ _ => {[k]} ∪ key_set ht
    | OpDelete k => key_set ht ∖ {[k]}
    end
  else key_set ht.
Proof.
  intros Hwf. destruct x as [k v o|k]; simpl.
  - destruct (ht_set ht k v o) as [[r ht'] o'] eqn:Hset. simpl.
    destruct (ht_set_spec _ _ _ _ _ _ _ Hwf Hset)
      as (_ & _ & [(-> & Hperm & _)|(-> & Heff)]); simpl.
    + apply key_set_perm. exact Hperm.
    + destruct Heff as [(entry & rest & Hk & Hold & Hnew & _)|(_ & Hnew & _)];
        unfold key_set.
      * rewrite Hnew, Hold, !fmap_cons, !list_to_set_cons. simpl. rewrite Hk.
        rewrite (assoc_L (∪)), (idemp_L (∪)). reflexivity.
      * rewrite Hnew, fmap_cons, list_to_set_cons. reflexivity.
  - destruct (ht_delete ht k) as [r ht'] eqn:Hdel. simpl.
    destruct (ht_delete_spec _ _ _ _ Hwf Hdel)
      as (_ & _ & [(-> & -> & _)|(-> & entry & Hk & Hold & _)]); simpl;
      [reflexivity|].
    pose proof (wf_unique _ Hwf) as Hnd. unfold keys_unique in Hnd.
    unfold key_set. rewrite Hold, fmap_cons in Hnd |- *.
    apply NoDup_cons in Hnd as [Hnot _]. rewrite list_to_set_cons, Hk in *.
    apply set_eq. intros x.
    rewrite elem_of_difference, elem_of_union, elem_of_singleton, elem_of_list_to_set.
    split; [|intros [[->|Hx] Hn]; [congruence | exact Hx]].
    intros Hx. split; [auto|]. intros ->. contradiction.
Qed.

Lemma run_live ht ops :
  wf ht ->
  wf (run ht ops) /\ live_keys ht (key_set ht) ops = key_set (run ht ops).
Proof.
  revert ht. induction ops as [|x ops IH]; intros ht Hwf; simpl; [auto|].
  rewrite <- (run_op_live ht x Hwf). apply IH. apply run_op_wf. exact Hwf.
Qed.

Lemma num_entries_key_set ht :
  wf ht -> num_entries ht = wrap64 (Z.of_nat (size (key_set ht))).
Proof.
  intros Hwf. rewrite (wf_count _ Hwf). unfold key_set.
  rewrite size_list_to_set by apply Hwf. rewrite length_fmap. reflexivity.
Qed.

Lemma key_set_present ht k :
  k ∈ key_set ht -> k ∈ key <$> all_entries ht.
Proof. unfold key_set. rewrite elem_of_list_to_set. auto. Qed.

(** Other keys keep their answer across a successful or failed [ht_set]. *)
Lemma ht_set_other_keys ht k v o k' :
  wf ht -> k' <> k ->
  ht_get (snd (fst (ht_set ht k v o))) k' = ht_get ht k'.
Proof.
  intros Hwf Hne.
  destruct (ht_set ht k v o) as [[r ht'] o'] eqn:Hset. simpl.
  destruct (ht_set_spec _ _ _ _ _ _ _ Hwf Hset) as (Hwf' & _ & Hcase).
  assert (forall entry rest l,
             key entry = k -> l ≡ₚ entry :: rest ->
             forall x, key x = k' -> x ∈ l <-> x ∈ rest) as Hdrop.
  { intros entry rest l Hk Hl x Hx. rewrite Hl, elem_of_cons.
    split; [intros [->|H]; [congruence|exact H] | auto]. }
  assert (forall x, key x = k' -> x ∈ all_entries ht' <-> x ∈ all_entries ht) as Hsame.
  { intros x Hx.
    destruct Hcase as [(_ & Hperm & _)|(_ & [(entry & rest & Hk & Hold & Hnew & _)
                                            |(_ & Hnew & _)])].
    - rewrite Hperm. reflexivity.
    - rewrite (Hdrop _ _ _ Hk Hold x Hx).
      apply (Hdrop (with_value entry v) rest); auto.
    - apply (Hdrop (fresh_entry k v) (all_entries ht)); auto. }
  destruct (ht_get ht k') as [w|] eqn:Hg.
  - apply ht_get_spec in Hg as (x & Hin & Hk & Hv); [|exact Hwf].
    apply ht_get_spec; [exact Hwf'|]. exists x. rewrite Hsame by exact Hk. auto.
  - destruct (ht_get ht' k') as [w|] eqn:Hg'; [|reflexivity].
    apply ht_get_spec in Hg' as (x & Hin & Hk & Hv); [|exact Hwf'].
    rewrite Hsame in Hin by exact Hk.
    assert (ht_get ht k' = Some w) as Hx
      by (apply ht_get_spec; [exact Hwf | exists x; auto]).
    congruence.
Qed.

(** C7. Run any sequence of sets and deletes on a store fresh from
    [ht_create]: the count reported by [ht_stats] is the number of keys that
    are live, that is, successfully set and not successfully deleted since
    (as long as that number is representable in a [size_t]). Setting a key
    that is live does not change the count: the entries of the table stay
    the same but for the one entry of that key, whose value (and with it its
    accounted size) becomes the new one when the set succeeds. *)
Theorem stats_count_is_live_count n o0 ht0 o0' ops :
  ht_create n o0 = (Some ht0, o0') ->
  Z.of_nat (size (live_keys ht0 ∅ ops)) < 2 ^ 64 ->
  fst (ht_stats (run ht0 ops)) = Z.of_nat (size (live_keys ht0 ∅ ops)) /\
  forall k v o,
    k ∈ live_keys ht0 ∅ ops ->
    let ht := run ht0 ops in
    let r := fst (fst (ht_set ht k v o)) in
    let ht' := snd (fst (ht_set ht k v o)) in
    fst (ht_stats ht') = fst (ht_stats ht) /\
    (forall k', k' <> k -> ht_get ht' k' = ht_get ht k') /\
    exists entry rest,
      key entry = k /\ all_entries ht ≡ₚ entry :: rest /\
      ((r = 0 /\ all_entries ht' ≡ₚ with_value entry v :: rest) \/
       (r = -1 /\ all_entries ht' ≡ₚ entry :: rest)).
Proof.
  intros Hc Hfits.
  destruct (ht_create_spec _ _ _ _ Hc) as (Hwf0 & _ & Hall0 & _).
  assert (key_set ht0 = ∅) as Hempty by (unfold key_set; rewrite Hall0; reflexivity).
  destruct (run_live ht0 ops Hwf0) as [Hwf Hlive]. rewrite Hempty in Hlive.
  rewrite Hlive in *. split.
  - simpl. rewrite (num_entries_key_set _ Hwf). apply wrap64_small. lia.
  - intros k v o Hin ht r ht'. subst ht r ht'.
    apply key_set_present in Hin.
    split; [|split; [intros k' Hne; apply ht_set_other_keys; assumption|]].
    + destruct (ht_set (run ht0 ops) k v o) as [[r ht'] o'] eqn:Hset. simpl.
      destruct (ht_set_spec _ _ _ _ _ _ _ Hwf Hset)
        as (_ & _ & [(_ & _ & Hcnt)|(_ & [(entry & rest & _ & _ & _ & Hcnt)
                                         |(Habs & _)])]);
        [exact Hcnt | exact Hcnt | contradiction].
    + destruct (ht_set (run ht0 ops) k v o) as [[r ht'] o'] eqn:Hset. simpl.
      destruct (ht_set_spec _ _ _ _ _ _ _ Hwf Hset)
        as (_ & _ & [(-> & Hperm & _)|(-> & [(entry & rest & Hk & Hold & Hnew & _)
                                            |(Habs & _)])]).
      * apply list_elem_of_fmap in Hin as (entry & -> & Hin).
        apply list_elem_of_split in Hin as (l1 & l2 & Hsplit).
        exists entry, (l1 ++ l2). split; [reflexivity|].
        assert (all_entries (run ht0 ops) ≡ₚ entry :: l1 ++ l2) as Hold
          by (rewrite Hsplit; symmetry; apply Permutation_middle).
        split; [exact Hold|]. right. split; [reflexivity|].
        rewrite Hperm. exact Hold.
      * exists entry, rest. auto.
      * contradiction.
Qed.

Lemma stats_count_is_live_count_witness :
  fst (ht_stats (run default_store sample_ops)) = 1 /\
  size (live_keys default_store ∅ sample_ops) = 1%nat.
Proof.
  assert (size (live_keys default_store ∅ sample_ops) = 1%nat) as Hsize
    by (vm_compute; reflexivity).
  split; [|exact Hsize].
  refine (eq_trans (proj1 (stats_count_is_live_count INITIAL_BUCKETS [] default_store []
                             sample_ops eq_refl _)) _).
  - rewrite Hsize. reflexivity.
  - rewrite Hsize. reflexivity.
Defined.

(** ** C5: a failed resize *)

(** C5. When the [calloc] of [ht_resize] fails, [ht_resize] returns -1 and
    the table is the one it was given: same buckets, bucket count, entries,
    counts and memory figure. The [ht_set] that asked for the resize carries
    on into that table and stands or falls by its own allocations. The
    bucket count and the bucket array keep their size and no other key
    changes its answer. The set returns 0 exactly when its own requests are
    granted, one for a key that is there and three for a new one; then
    [ht_get] finds the new value in the old table, with one entry more when
    the key is new. Otherwise it returns -1 and the table is as it was. *)
Theorem resize_failure_is_swallowed n ht k v o :
  reachable n ht ->
  fst (calloc (mul64 (num_buckets ht) 2) sizeof_ptr o) = false ->
  strlen k <= MAX_KEY_SIZE -> strlen v <= MAX_VALUE_SIZE ->
  load_factor_exceeded ht = true ->
  let o' := snd (calloc (mul64 (num_buckets ht) 2) sizeof_ptr o) in
  let r := fst (fst (ht_set ht k v o)) in
  let ht' := snd (fst (ht_set ht k v o)) in
  let own := match ht_get ht k with Some _ => 1%nat | None => 3%nat end in
  ht_resize ht o = (-1, ht, o') /\
  ht_set ht k v o = ht_upsert ht k v o' /\
  num_buckets ht' = num_buckets ht /\
  length (buckets ht') = length (buckets ht) /\
  (forall k', k' <> k -> ht_get ht' k' = ht_get ht k') /\
  (r = 0 <-> Forall (eq true) (take own o')) /\
  (r = 0 ->
   ht_get ht' k = Some v /\
   num_entries ht'
   = match ht_get ht k with
     | Some _ => num_entries ht
     | None => add64 (num_entries ht) 1
     end) /\
  (r <> 0 -> r = -1 /\ ht' = ht).
Proof.
  intros Hreach Hc Hk Hv Hlf o' r ht' own.
  pose proof (reachable_wf _ _ Hreach) as Hwf.
  assert (ht_resize ht o = (-1, ht, o')) as Hrs.
  { rewrite ht_resize_unfold, Hc. reflexivity. }
  assert (ht_set ht k v o = ht_upsert ht k v o') as Hset.
  { rewrite ht_set_unfold, Hlf, Hrs by assumption. reflexivity. }
  pose proof (ht_set_other_keys ht k v o) as Hother.
  pose proof (ht_set_get ht k v o (wf_shape _ Hwf) Hk Hv) as Hget.
  fold ht' in Hother, Hget. fold r in Hget.
  destruct (ht_upsert ht k v o') as [[r1 ht1] o1] eqn:Hup.
  assert (r = r1 /\ ht' = ht1) as [Hr Hht]
    by (unfold r, ht'; rewrite Hset; auto).
  pose proof (ht_upsert_inv _ _ _ _ _ _ _ Hup) as Hinv. cbv zeta in Hinv.
  assert (r = 0 <-> Forall (eq true) (take own o')) as Hown.
  { rewrite Hr. clear - Hup. unfold own, ht_get. revert Hup.
    unfold ht_upsert, entry_create, malloc, Alloc.bind, Alloc.request, Alloc.ret.
    cbv zeta.
    destruct (chain_find k _) as [entry|]; simpl;
      destruct o' as [|[|] [|[|] [|[|] o2]]]; simpl; intros [= <- _ _];
      (split; [intros H; try discriminate H; repeat constructor
              |intros H; try reflexivity;
               repeat match goal with
                      | H : Forall _ (_ :: _) |- _ =>
                          apply Forall_cons in H as [? H]
                      end; discriminate]). }
  split; [exact Hrs|]. split; [exact Hset|].
  assert (num_buckets ht' = num_buckets ht /\
          length (buckets ht') = length (buckets ht) /\
          (r = 0 -> num_entries ht'
                    = match ht_get ht k with
                      | Some _ => num_entries ht
                      | None => add64 (num_entries ht) 1
                      end)) as (Hnb & Hlen & Hcount).
  { rewrite Hht, Hr. destruct Hinv as [[-> ->]|(-> & Hnb & Hcase)].
    - split; [reflexivity|]. split; [reflexivity|]. discriminate.
    - split; [exact Hnb|]. unfold ht_get.
      destruct (chain_find k _) as [entry|]; destruct Hcase as (-> & Hcnt & _);
        rewrite length_insert; auto. }
  split; [exact Hnb|]. split; [exact Hlen|].
  split; [intros k' Hk'; apply Hother; [exact Hwf | exact Hk']|].
  split; [exact Hown|].
  split; [intros H0; split; [apply Hget, H0 | apply Hcount, H0]|].
  intros Hne. rewrite Hht, Hr in *.
  destruct Hinv as [[-> ->]|(-> & _)]; [auto | contradiction].
Qed.

Lemma resize_failure_is_swallowed_witness :
  let ht' := snd (fst (ht_set one_bucket_store "c" "d" [false])) in
  ht_resize one_bucket_store [false] = (-1, one_bucket_store, []) /\
  fst (fst (ht_set one_bucket_store "c" "d" [false])) = 0 /\
  num_buckets ht' = 1 /\ num_entries ht' = 2 /\
  ht_get ht' "c" = Some "d"%string /\
  ht_get ht' "a" = ht_get one_bucket_store "a".
Proof.
  destruct (resize_failure_is_swallowed 1 one_bucket_store "c" "d" [false]
              one_bucket_store_reachable eq_refl
              ltac:(vm_compute; discriminate) ltac:(vm_compute; discriminate)
              eq_refl)
    as (Hrs & _ & Hnb & _ & Hother & Hown & Hok & _).
  assert (fst (fst (ht_set one_bucket_store "c" "d" [false])) = 0) as Hr
    by (apply Hown; constructor).
  destruct (Hok Hr) as [Hget Hcount].
  split; [exact Hrs|]. split; [exact Hr|]. split; [exact Hnb|].
  split; [exact Hcount|]. split; [exact Hget|].
  apply Hother. discriminate.
Defined.

(** ** binary32 arithmetic on counts *)

Lemma digits2_pos_bounds p :
  2 ^ (Zpos (digits2_pos p) - 1) <= Zpos p < 2 ^ Zpos (digits2_pos p).
Proof.
  induction p as [p IH|p IH|]; simpl digits2_pos; [| |simpl; lia];
    rewrite Pos2Z.inj_succ;
    replace (Z.succ (Zpos (digits2_pos p)) - 1) with (Z.succ (Zpos (digits2_pos p) - 1))
      by lia;
    rewrite !Z.pow_succ_r by lia; lia.
Qed.

Lemma digits2_pos_unique p d :
  2 ^ (d - 1) <= Zpos p < 2 ^ d -> 0 < d -> Zpos (digits2_pos p) = d.
Proof.
  intros Hp Hd. pose proof (digits2_pos_bounds p) as Hs.
  destruct (Z.lt_trichotomy (Zpos (digits2_pos p)) d) as [Hlt|[Heq|Hgt]];
    [|exact Heq|].
  - pose proof (Z.pow_le_mono_r 2 (Zpos (digits2_pos p)) (d - 1)). lia.
  - pose proof (Z.pow_le_mono_r 2 d (Zpos (digits2_pos p) - 1)). lia.
Qed.

Lemma Zdigits2_24 q : 2 ^ 23 <= q < 2 ^ 24 -> Zdigits2 q = 24.
Proof.
  intros Hq. destruct q as [|p|p]; try lia.
  apply (digits2_pos_unique p 24); [exact Hq | lia].
Qed.

Lemma Zdigits2_25 q : 2 ^ 24 <= q < 2 ^ 25 -> Zdigits2 q = 25.
Proof.
  intros Hq. destruct q as [|p|p]; try lia.
  apply (digits2_pos_unique p 25); [exact Hq | lia].
Qed.

Lemma shr_fexp_24 q e l :
  2 ^ 23 <= q < 2 ^ 24 -> -149 <= e ->
  shr_fexp 24 128 q e l = (shr_record_of_loc q l, e).
Proof.
  intros Hq He. unfold shr_fexp. rewrite (Zdigits2_24 q Hq). unfold fexp, emin.
  replace (Z.max (24 + e - 24) (3 - 128 - 24) - e) with 0 by lia. reflexivity.
Qed.

Lemma shr_fexp_25 q e l :
  2 ^ 24 <= q < 2 ^ 25 -> -150 <= e ->
  shr_fexp 24 128 q e l = (shr_1 (shr_record_of_loc q l), e + 1).
Proof.
  intros Hq He. unfold shr_fexp. rewrite (Zdigits2_25 q Hq). unfold fexp, emin.
  replace (Z.max (25 + e - 24) (3 - 128 - 24) - e) with 1 by lia. reflexivity.
Qed.

Lemma loc_of_shr_record_of_loc m l :
  loc_of_shr_record (shr_record_of_loc m l) = l.
Proof. destruct l as [|[| |]]; reflexivity. Qed.

Lemma shr_m_of_loc m l : shr_m (shr_record_of_loc m l) = m.
Proof. destruct l as [|[| |]]; reflexivity. Qed.

Lemma round_nearest_even_bounds m l :
  m <= round_nearest_even m l <= m + 1.
Proof.
  destruct l as [|[| |]]; simpl; try lia. destruct (Z.even m); lia.
Qed.

(** The second normalisation step of [binary_round_aux], on a rounded
    mantissa of 24 bits or on [2 ^ 24]. *)
Lemma renormalise m e :
  2 ^ 23 <= m <= 2 ^ 24 -> -149 <= e <= 100 ->
  (let '(mrs, e') := shr_fexp 24 128 m e loc_Exact in
   match shr_m mrs with
   | Z0 => S754_zero false
   | Zpos m' => if e' <=? 128 - 24 then S754_finite false m' e' else S754_infinity false
   | Zneg _ => S754_nan
   end)
  = if m <? 2 ^ 24 then S754_finite false (Z.to_pos m) e
    else S754_finite false 8388608 (e + 1).
Proof.
  intros Hm He. destruct (Z.ltb_spec m (2 ^ 24)) as [Hlt|Hge].
  - rewrite shr_fexp_24 by lia. simpl shr_m.
    destruct m as [|p|p]; try lia.
    rewrite (proj2 (Z.leb_le e (128 - 24))) by lia. reflexivity.
  - assert (m = 2 ^ 24) as -> by lia.
    rewrite shr_fexp_25 by lia. change (2 ^ 24) with 16777216.
    cbv [shr_1 shr_record_of_loc shr_m].
    rewrite (proj2 (Z.leb_le (e + 1) (128 - 24))) by lia. reflexivity.
Qed.

(** [binary_round_aux] on a quotient of 24 bits. *)
Lemma binary_round_aux_24 q e l :
  2 ^ 23 <= q < 2 ^ 24 -> -149 <= e <= 100 ->
  binary_round_aux 24 128 false q e l
  = let m := round_nearest_even q l in
    if m <? 2 ^ 24 then S754_finite false (Z.to_pos m) e
    else S754_finite false 8388608 (e + 1).
Proof.
  intros Hq He. unfold binary_round_aux. rewrite shr_fexp_24 by lia.
  rewrite loc_of_shr_record_of_loc, shr_m_of_loc.
  pose proof (round_nearest_even_bounds q l).
  apply renormalise; lia.
Qed.

Lemma shr_1_of_loc q l :
  0 < q ->
  shr_m (shr_1 (shr_record_of_loc q l)) = q / 2 /\
  loc_of_shr_record (shr_1 (shr_record_of_loc q l)) = halved q l.
Proof.
  intros Hq. rewrite <- Z.div2_div.
  destruct q as [|[p|p|]|p]; try lia; destruct l as [|[| |]]; split; reflexivity.
Qed.

(** [binary_round_aux] on a quotient of 25 bits. *)
Lemma binary_round_aux_25 q e l :
  2 ^ 24 <= q < 2 ^ 25 -> -150 <= e <= 99 ->
  binary_round_aux 24 128 false q e l
  = let m := round_nearest_even (q / 2) (halved q l) in
    if m <? 2 ^ 24 then S754_finite false (Z.to_pos m) (e + 1)
    else S754_finite false 8388608 (e + 2).
Proof.
  intros Hq He. unfold binary_round_aux. rewrite shr_fexp_25 by lia.
  destruct (shr_1_of_loc q l) as [-> ->]; [lia|].
  pose proof (round_nearest_even_bounds (q / 2) (halved q l)).
  assert (2 ^ 23 <= q / 2 < 2 ^ 24) by (change (2 ^ 24) with (2 * 2 ^ 23) in Hq;
    change (2 ^ 25) with (2 * 2 ^ 24) in Hq; split;
    [apply Z.div_le_lower_bound | apply Z.div_lt_upper_bound]; lia).
  replace (e + 2) with (e + 1 + 1) by lia.
  apply renormalise; lia.
Qed.

Lemma new_location_spec m r :
  0 < m -> 0 <= r < m ->
  new_location m r = if r =? 0 then loc_Exact else loc_Inexact (2 * r ?= m).
Proof.
  intros Hm Hr. unfold new_location.
  destruct (Z.even m) eqn:Heven; [reflexivity|].
  unfold new_location_odd. destruct (r =? 0); [reflexivity|]. f_equal.
  rewrite <- Z.negb_odd in Heven. apply negb_false_iff, Z.odd_spec in Heven.
  destruct Heven as [m' ->].
  destruct (Z.compare_spec (2 * r + 1) (2 * m' + 1));
    destruct (Z.compare_spec (2 * r) (2 * m' + 1)); try reflexivity; lia.
Qed.

(** The comparison of the threshold 0.75 with a positive float. *)
Lemma threshold_ltb m e :
  SFltb LOAD_FACTOR_THRESHOLD (S754_finite false m e)
  = (-24 <? e) || ((e =? -24) && (12582912 <? Zpos m)).
Proof.
  unfold SFltb, LOAD_FACTOR_THRESHOLD, SFcompare.
  destruct (Z.compare_spec (-24) e) as [Heq|Hlt|Hgt].
  - subst e. simpl. unfold Z.ltb. simpl. unfold Pos.compare.
    destruct (Pos.compare_cont Eq 12582912 m); reflexivity.
  - rewrite (proj2 (Z.ltb_lt _ _) Hlt). reflexivity.
  - rewrite (proj2 (Z.ltb_ge _ _)) by lia.
    rewrite (proj2 (Z.eqb_neq _ _)) by lia. reflexivity.
Qed.

Lemma SFdiv_counts m1 e1 m2 e2 :
  2 ^ 23 <= Zpos m1 < 2 ^ 24 -> 2 ^ 23 <= Zpos m2 < 2 ^ 24 ->
  -23 <= e1 <= 0 -> -23 <= e2 <= 0 ->
  SFdiv 24 128 (S754_finite false m1 e1) (S754_finite false m2 e2)
  = binary_round_aux 24 128 false (Zpos m1 * 2 ^ 24 / Zpos m2) (e1 - e2 - 24)
      (new_location (Zpos m2) ((Zpos m1 * 2 ^ 24) mod Zpos m2)).
Proof.
  intros H1 H2 He1 He2. unfold SFdiv, SFdiv_core_binary.
  rewrite (Zdigits2_24 _ H1), (Zdigits2_24 _ H2). unfold fexp, emin.
  replace (Z.min (Z.max (24 + e1 - (24 + e2) - 24) (3 - 128 - 24)) (e1 - e2))
    with (e1 - e2 - 24) by lia.
  replace (e1 - e2 - (e1 - e2 - 24)) with 24 by lia.
  rewrite Z.shiftl_mul_pow2 by lia.
  unfold Z.div, Z.modulo.
  destruct (Z.div_eucl (Zpos m1 * 2 ^ 24) (Zpos m2)) as [q r]. reflexivity.
Qed.

(** Rounding to nearest cannot hide that a quotient exceeds 3/4 when the
    divisor is even: the quotient is then at least a quarter of a unit in
    the last place above 3/4. *)
Lemma round_exceeds_24 a b q r :
  a * 2 ^ 24 = b * q + r -> 0 <= r < b -> 2 ^ 23 <= b < 2 ^ 24 ->
  Z.even b = true ->
  (12582912 <? round_nearest_even q
                 (if r =? 0 then loc_Exact else loc_Inexact (2 * r ?= b)))
  = (3 * b <? 4 * a).
Proof.
  intros Hdiv Hr Hb Heven. apply Z.even_spec in Heven as [b' ->].
  change (2 ^ 24) with 16777216 in *. change (2 ^ 23) with 8388608 in *.
  pose proof (round_nearest_even_bounds q
                (if r =? 0 then loc_Exact else loc_Inexact (2 * r ?= 2 * b'))) as Hrne.
  destruct (Z.ltb_spec (3 * (2 * b')) (4 * a)) as [Hlt|Hge].
  - apply Z.ltb_lt.
    assert (12582912 <= q) as Hq.
    { destruct (Z_lt_le_dec q 12582912) as [Hq|Hq]; [|exact Hq]. exfalso.
      assert (2 * b' * q <= 2 * b' * 12582911) by (apply Z.mul_le_mono_nonneg_l; lia).
      lia. }
    destruct (Z.eq_dec q 12582912) as [->|Hne]; [|lia].
    assert (8388608 <= r) by lia.
    destruct (Z.eqb_spec r 0) as [?|_]; [lia|].
    destruct (Z.compare_spec (2 * r) (2 * b')); try lia. simpl. lia.
  - apply Z.ltb_ge.
    assert (q <= 12582912) as Hq.
    { destruct (Z_lt_le_dec 12582912 q) as [Hq|Hq]; [|exact Hq]. exfalso.
      assert (2 * b' * 12582913 <= 2 * b' * q) by (apply Z.mul_le_mono_nonneg_l; lia).
      lia. }
    destruct (Z.eq_dec q 12582912) as [->|Hne]; [|lia].
    assert (r = 0) as -> by lia. simpl. lia.
Qed.

Lemma round_exceeds_25 a b q r :
  a * 2 ^ 24 = b * q + r -> 0 <= r < b -> 2 ^ 23 <= b < 2 ^ 24 -> 0 < q ->
  Z.even b = true ->
  (12582912 <? round_nearest_even (q / 2)
                 (halved q (if r =? 0 then loc_Exact else loc_Inexact (2 * r ?= b))))
  = (3 * b <? 2 * a).
Proof.
  intros Hdiv Hr Hb Hqpos Heven. apply Z.even_spec in Heven as [b' ->].
  change (2 ^ 24) with 16777216 in *. change (2 ^ 23) with 8388608 in *.
  pose proof (Z.div2_odd q) as Hodd. rewrite Z.div2_div in Hodd.
  set (l := if r =? 0 then loc_Exact else loc_Inexact (2 * r ?= 2 * b')).
  pose proof (round_nearest_even_bounds (q / 2) (halved q l)) as Hrne.
  assert (r = 0 -> l = loc_Exact) as Hexact
    by (intros ->; reflexivity).
  assert (r <> 0 -> exists c, l = loc_Inexact c) as Hinexact
    by (intros Hr0; unfold l; destruct (Z.eqb_spec r 0); [contradiction | eauto]).
  clearbody l. unfold halved in *.
  remember (q / 2) as h eqn:Hh. clear Hh.
  assert (0 <= Z.b2z (Z.odd q) <= 1) as Hbit by (destruct (Z.odd q); simpl; lia).
  destruct (Z.ltb_spec (3 * (2 * b')) (2 * a)) as [Hlt|Hge].
  - apply Z.ltb_lt.
    destruct (Z.lt_trichotomy h 12582912) as [Hlow|[->|Hhigh]]; [exfalso| |lia].
    + assert (2 * b' * q <= 2 * b' * 25165823)
        by (apply Z.mul_le_mono_nonneg_l; lia).
      lia.
    + (* the half is 3/4 to the unit: the quotient is odd and inexact *)
      destruct (Z.odd q); simpl Z.b2z in Hodd; subst q; [|exfalso; lia].
      assert (r <> 0) as Hr0 by lia.
      destruct (Hinexact Hr0) as [c ->]. simpl. lia.
  - apply Z.ltb_ge.
    destruct (Z.lt_trichotomy h 12582912) as [Hlow|[->|Hhigh]]; [lia| |exfalso].
    + destruct (Z.odd q); simpl Z.b2z in Hodd; subst q; [exfalso; lia|].
      assert (r = 0) as Hr0 by lia.
      rewrite (Hexact Hr0). simpl. lia.
    + assert (2 * b' * 25165826 <= 2 * b' * q)
        by (apply Z.mul_le_mono_nonneg_l; lia).
      lia.
Qed.

Lemma ltb_mul_pos x y p : 0 < p -> (x * p <? y * p) = (x <? y).
Proof.
  intros Hp. destruct (Z.ltb_spec x y) as [Hlt|Hge].
  - apply Z.ltb_lt, Z.mul_lt_mono_pos_r; assumption.
  - apply Z.ltb_ge, Z.mul_le_mono_nonneg_r; lia.
Qed.

Lemma ratio_above a b p d :
  8388608 <= a -> 0 < b < 16777216 -> 0 < p -> 2 <= d ->
  3 * (b * p) < 4 * (a * (p * d)).
Proof.
  intros Ha Hb Hp Hd.
  assert (b * p < 16777216 * p) by (apply Z.mul_lt_mono_pos_r; lia).
  assert (p * 2 <= p * d) by (apply Z.mul_le_mono_nonneg_l; lia).
  assert (8388608 * (p * d) <= a * (p * d)) by (apply Z.mul_le_mono_nonneg_r; lia).
  lia.
Qed.

Lemma ratio_below a b p d :
  0 < a < 16777216 -> 8388608 <= b -> 0 < p -> 4 <= d ->
  4 * (a * p) <= 3 * (b * (p * d)).
Proof.
  intros Ha Hb Hp Hd.
  assert (a * p < 16777216 * p) by (apply Z.mul_lt_mono_pos_r; lia).
  assert (p * 4 <= p * d) by (apply Z.mul_le_mono_nonneg_l; lia).
  assert (8388608 * (p * d) <= b * (p * d)) by (apply Z.mul_le_mono_nonneg_r; lia).
  lia.
Qed.

(** Decides the comparisons left in a goal once the exponent is known. *)
Ltac decide_comparisons :=
  rewrite ?threshold_ltb;
  repeat match goal with
         | |- context [(?x <? ?y)] => destruct (Z.ltb_spec x y)
         | |- context [(?x =? ?y)] => destruct (Z.eqb_spec x y)
         end;
  simpl; try reflexivity; try lia.

(** The quotient of two normalised counts exceeds 0.75 in binary32 exactly
    when it does in the rationals, provided the mantissa of the divisor is
    even. *)
Lemma quotient_exceeds m1 k1 m2 k2 :
  2 ^ 23 <= Zpos m1 < 2 ^ 24 -> 2 ^ 23 <= Zpos m2 < 2 ^ 24 ->
  0 <= k1 <= 23 -> 0 <= k2 <= 23 -> Z.even (Zpos m2) = true ->
  SFltb LOAD_FACTOR_THRESHOLD
    (SFdiv 24 128 (S754_finite false m1 (- k1)) (S754_finite false m2 (- k2)))
  = (3 * (Zpos m2 * 2 ^ k1) <? 4 * (Zpos m1 * 2 ^ k2)).
Proof.
  intros H1 H2 Hk1 Hk2 Heven. rewrite SFdiv_counts by lia.
  set (a := Zpos m1) in *. set (b := Zpos m2) in *.
  pose proof (Z.div_mod (a * 2 ^ 24) b ltac:(lia)) as Hdiv.
  pose proof (Z.mod_pos_bound (a * 2 ^ 24) b ltac:(lia)) as Hr.
  rewrite new_location_spec by lia.
  set (q := a * 2 ^ 24 / b) in *. set (r := (a * 2 ^ 24) mod b) in *.
  set (l := if r =? 0 then loc_Exact else loc_Inexact (2 * r ?= b)).
  assert (2 ^ 23 <= q < 2 ^ 25) as Hq.
  { change (2 ^ 23) with 8388608 in *. change (2 ^ 24) with 16777216 in *.
    change (2 ^ 25) with 33554432. split.
    - destruct (Z_lt_le_dec q 8388608) as [Hlow|Hlow]; [exfalso|exact Hlow].
      assert (b * q <= b * 8388607) by (apply Z.mul_le_mono_nonneg_l; lia). lia.
    - destruct (Z_lt_le_dec q 33554432) as [Hhigh|Hhigh]; [exact Hhigh|exfalso].
      assert (b * 33554432 <= b * q) by (apply Z.mul_le_mono_nonneg_l; lia). lia. }
  assert (q < 2 ^ 24 <-> a < b) as Hcase.
  { change (2 ^ 24) with 16777216 in *. split; intros Hlt.
    - destruct (Z_lt_le_dec a b) as [Hab|Hab]; [exact Hab|exfalso].
      assert (b * q <= b * 16777215) by (apply Z.mul_le_mono_nonneg_l; lia). lia.
    - destruct (Z_lt_le_dec q 16777216) as [Hlow|Hlow]; [exact Hlow|exfalso].
      assert (b * 16777216 <= b * q) by (apply Z.mul_le_mono_nonneg_l; lia). lia. }
  pose proof (round_exceeds_24 a b q r Hdiv Hr H2 Heven) as H24. fold l in H24.
  pose proof (round_exceeds_25 a b q r Hdiv Hr H2 ltac:(lia) Heven) as H25.
  fold l in H25.
  pose proof (round_nearest_even_bounds q l) as Hb24.
  pose proof (round_nearest_even_bounds (q / 2) (halved q l)) as Hb25.
  assert (0 < 2 ^ k1) as Hp1 by (apply Z.pow_pos_nonneg; lia).
  assert (0 < 2 ^ k2) as Hp2 by (apply Z.pow_pos_nonneg; lia).
  replace (- k1 - - k2 - 24) with (k2 - k1 - 24) by lia.
  (* the exact comparison, by the difference of the exponents *)
  assert (match k2 - k1 with
          | Z0 => (3 * (b * 2 ^ k1) <? 4 * (a * 2 ^ k2)) = (3 * b <? 4 * a)
          | Zpos _ => (3 * (b * 2 ^ k1) <? 4 * (a * 2 ^ k2)) = true
          | Zneg 1 => (3 * (b * 2 ^ k1) <? 4 * (a * 2 ^ k2)) = (3 * b <? 2 * a)
          | Zneg _ => (3 * (b * 2 ^ k1) <? 4 * (a * 2 ^ k2)) = false
          end) as Hexact.
  { destruct (k2 - k1) as [|d|d] eqn:Hd.
    - replace k2 with k1 by lia.
      replace (3 * (b * 2 ^ k1)) with (3 * b * 2 ^ k1) by ring.
      replace (4 * (a * 2 ^ k1)) with (4 * a * 2 ^ k1) by ring.
      apply ltb_mul_pos, Hp1.
    - replace k2 with (k1 + Zpos d) by lia. rewrite Z.pow_add_r by lia.
      assert (2 <= 2 ^ Zpos d)
        by (change 2 with (2 ^ 1) at 1; apply Z.pow_le_mono_r; lia).
      apply Z.ltb_lt, ratio_above; lia.
    - assert (d = 1%positive \/ 2 <= Zpos d) as [->|Hd2] by lia.
      + replace k1 with (k2 + 1) by lia. rewrite Z.pow_add_r by lia.
        replace (3 * (b * (2 ^ k2 * 2 ^ 1))) with (3 * b * 2 * 2 ^ k2) by ring.
        replace (4 * (a * 2 ^ k2)) with (2 * a * 2 * 2 ^ k2) by ring.
        rewrite !ltb_mul_pos by lia. reflexivity.
      + assert ((3 * (b * 2 ^ k1) <? 4 * (a * 2 ^ k2)) = false) as Hfalse.
        { replace k1 with (k2 + Zpos d) by lia. rewrite Z.pow_add_r by lia.
          assert (2 ^ 2 <= 2 ^ Zpos d) by (apply Z.pow_le_mono_r; lia).
          apply Z.ltb_ge, ratio_below; lia. }
        destruct d; exact Hfalse || lia. }
  change (2 ^ 23) with 8388608 in *. change (2 ^ 24) with 16777216 in *.
  change (2 ^ 25) with 33554432 in *.
  destruct (Z_lt_le_dec q 16777216) as [HA|HB].
  - rewrite binary_round_aux_24 by (change (2 ^ 23) with 8388608;
                                     change (2 ^ 24) with 16777216; lia).
    cbv zeta. change (2 ^ 24) with 16777216.
    destruct (Z.ltb_spec (round_nearest_even q l) 16777216) as [Hfit|Hover];
      rewrite threshold_ltb, ?Z2Pos.id by lia;
      destruct (k2 - k1) as [|d|d] eqn:Hd; try (destruct d); rewrite Hexact;
      try rewrite <- H24; decide_comparisons.
  - rewrite binary_round_aux_25 by (change (2 ^ 24) with 16777216;
                                     change (2 ^ 25) with 33554432; lia).
    cbv zeta. change (2 ^ 24) with 16777216.
    destruct (Z.ltb_spec (round_nearest_even (q / 2) (halved q l)) 16777216)
      as [Hfit|Hover];
      rewrite threshold_ltb, ?Z2Pos.id by lia;
      destruct (k2 - k1) as [|d|d] eqn:Hd; try (destruct d); rewrite Hexact;
      try rewrite <- H25; decide_comparisons.
Qed.

(** A count below [2 ^ 24] is a binary32 number: its conversion is exact,
    with a mantissa of 24 bits. *)
Lemma float_of_count n :
  0 < n < 2 ^ 24 ->
  exists m k,
    float_of_size_t n = S754_finite false m (- k) /\
    Zpos m = n * 2 ^ k /\ 2 ^ 23 <= Zpos m < 2 ^ 24 /\ 0 <= k <= 23.
Proof.
  intros Hn. destruct n as [|p|p]; try lia.
  pose proof (digits2_pos_bounds p) as Hd.
  set (d := Zpos (digits2_pos p)) in *.
  assert (1 <= d <= 24) as Hrange.
  { split; [unfold d; lia|].
    destruct (Z_le_gt_dec d 24) as [Hle|Hgt]; [exact Hle|exfalso].
    pose proof (Z.pow_le_mono_r 2 24 (d - 1)). lia. }
  assert (exists m, shl_align p 0 (d - 24) = (m, d - 24) /\
                    Zpos m = Zpos p * 2 ^ (24 - d)) as (m & Halign & Hm).
  { unfold shl_align. destruct (d - 24 - 0) as [|s|s] eqn:Hs; try lia.
    - exists p. replace (d - 24) with 0 by lia. replace (24 - d) with 0 by lia.
      split; [reflexivity | lia].
    - exists (Pos.iter xO p s). split; [reflexivity|].
      replace (24 - d) with (Zpos s) by lia.
      change (Pos.iter xO p s) with (shift_pos s p).
      rewrite shift_pos_correct, Z.pow_pos_fold. ring. }
  assert (2 ^ 23 <= Zpos m < 2 ^ 24) as Hbits.
  { rewrite Hm.
    replace (2 ^ 23) with (2 ^ (d - 1) * 2 ^ (24 - d))
      by (rewrite <- Z.pow_add_r by lia; f_equal; lia).
    replace (2 ^ 24) with (2 ^ d * 2 ^ (24 - d))
      by (rewrite <- Z.pow_add_r by lia; f_equal; lia).
    assert (0 < 2 ^ (24 - d)) by (apply Z.pow_pos_nonneg; lia).
    split; [apply Z.mul_le_mono_nonneg_r | apply Z.mul_lt_mono_pos_r]; lia. }
  exists m, (24 - d). split; [|split; [exact Hm|split; [exact Hbits|lia]]].
  unfold float_of_size_t, binary_normalize, binary_round.
  replace (fexp 24 128 (Zpos (digits2_pos p) + 0)) with (d - 24)
    by (unfold fexp, emin; fold d; lia).
  rewrite Halign, binary_round_aux_24 by lia.
  simpl round_nearest_even. cbv zeta.
  rewrite (proj2 (Z.ltb_lt _ _)) by lia.
  replace (- (24 - d)) with (d - 24) by lia. reflexivity.
Qed.

(** The test of [ht_set], [(float)num_entries / num_buckets > 0.75], is the
    exact comparison [3 * num_buckets < 4 * num_entries] as long as the
    bucket count is at most [2 ^ 23] and the entry count below [2 ^ 24]. *)
Lemma load_exceeded_exact e nb :
  0 <= e < 2 ^ 24 -> 0 < nb <= 2 ^ 23 ->
  load_exceeded_at e nb = (3 * nb <? 4 * e).
Proof.
  intros He Hnb. unfold load_exceeded_at, load_factor_exceeded, load_factor.
  cbn [num_entries num_buckets].
  destruct (float_of_count nb) as (m2 & k2 & -> & Hm2 & Hb2 & Hk2); [lia|].
  destruct (Z.eq_dec e 0) as [->|Hpos].
  - rewrite (proj2 (Z.ltb_ge _ _)) by lia. reflexivity.
  - destruct (float_of_count e) as (m1 & k1 & -> & Hm1 & Hb1 & Hk1); [lia|].
    assert (Z.even (Zpos m2) = true) as Heven.
    { rewrite Hm2. destruct (Z.eq_dec k2 0) as [->|Hk].
      - rewrite Z.mul_1_r in *. assert (nb = 2 ^ 23) as -> by lia. reflexivity.
      - replace k2 with (Z.succ (k2 - 1)) by lia. rewrite Z.pow_succ_r by lia.
        rewrite Z.mul_assoc, (Z.mul_comm nb 2), <- Z.mul_assoc.
        apply Z.even_spec. eexists. reflexivity. }
    rewrite quotient_exceeds, Hm1, Hm2 by assumption.
    replace (3 * (nb * 2 ^ k2 * 2 ^ k1)) with (3 * nb * (2 ^ k1 * 2 ^ k2)) by ring.
    replace (4 * (e * 2 ^ k1 * 2 ^ k2)) with (4 * e * (2 ^ k1 * 2 ^ k2)) by ring.
    apply ltb_mul_pos, Z.mul_pos_pos; apply Z.pow_pos_nonneg; lia.
Qed.

(** ** C2: when the table grows *)

Lemma load_factor_exceeded_at ht :
  load_factor_exceeded ht = load_exceeded_at (num_entries ht) (num_buckets ht).
Proof. reflexivity. Qed.

Lemma ht_set_num_buckets ht k v :
  wf ht -> strlen k <= MAX_KEY_SIZE -> strlen v <= MAX_VALUE_SIZE ->
  2 * num_buckets ht * sizeof_ptr < 2 ^ 64 ->
  num_buckets (snd (fst (ht_set ht k v []))) =
  if load_factor_exceeded ht then 2 * num_buckets ht else num_buckets ht.
Proof.
  intros Hwf Hk Hv Hfit. rewrite ht_set_unfold by assumption.
  destruct (wf_shape _ Hwf) as (_ & Hpos & _).
  assert (mul64 (num_buckets ht) 2 = 2 * num_buckets ht) as Hmul.
  { unfold mul64. rewrite wrap64_small; unfold sizeof_ptr in *; lia. }
  assert (forall ht1 o, num_buckets (snd (fst (ht_upsert ht1 k v o))) = num_buckets ht1)
    as Hup.
  { intros ht1 o. destruct (ht_upsert ht1 k v o) as [[r ht'] o'] eqn:Hu. simpl.
    destruct (ht_upsert_inv _ _ _ _ _ _ _ Hu) as [[_ ->]|(_ & Hnb & _)]; auto. }
  destruct (load_factor_exceeded ht); rewrite Hup; [|reflexivity].
  rewrite ht_resize_unfold.
  unfold calloc, Alloc.bind, Alloc.request, Alloc.ret; simpl.
  rewrite Hmul. apply Z.ltb_lt in Hfit. rewrite Hfit. simpl. exact Hmul.
Qed.

Lemma run_snoc ht ops x : run ht (ops ++ [x]) = snd (run_op (run ht ops) x).
Proof. unfold run. rewrite fold_left_app. reflexivity. Qed.

Lemma inserts_take_S kvs n k v :
  kvs !! n = Some (k, v) ->
  inserts (take (S n) kvs) = inserts (take n kvs) ++ [OpSet k v []].
Proof.
  intros Hn. unfold inserts. rewrite (take_S_r _ _ _ Hn), fmap_app. reflexivity.
Qed.

Lemma NoDup_lookup_take (kvs : list (string * string)) n k v :
  NoDup kvs.*1 -> kvs !! n = Some (k, v) -> k ∉ (take n kvs).*1.
Proof.
  intros Hnd Hn. rewrite <- (take_drop_middle _ _ _ Hn), fmap_app, fmap_cons in Hnd.
  apply NoDup_app in Hnd as (_ & Hdisj & _).
  intros Hin. apply (Hdisj k Hin). simpl. apply elem_of_cons. auto.
Qed.

(** The state of a fresh store after the first [j] of a run of inserts of
    distinct keys: the bucket count is doubled once, by the insert that
    follows the one whose completion takes the load factor over 0.75. *)
Lemma inserts_state ht0 kvs j :
  wf ht0 -> all_entries ht0 = [] -> num_entries ht0 = 0 ->
  num_buckets ht0 <= 2 ^ 22 ->
  NoDup kvs.*1 -> Forall in_limits kvs -> (j <= length kvs)%nat ->
  let ht := run ht0 (inserts (take j kvs)) in
  wf ht /\
  key_set ht = list_to_set (take j kvs).*1 /\
  (forall i k v, (i < j)%nat -> kvs !! i = Some (k, v) -> ht_get ht k = Some v) /\
  num_entries ht = wrap64 (Z.of_nat j) /\
  (Z.of_nat j <= 3 * num_buckets ht0 / 2 + 1 ->
   num_buckets ht = if Z.of_nat j <=? 3 * num_buckets ht0 / 4 + 1
                    then num_buckets ht0 else 2 * num_buckets ht0).
Proof.
  intros Hwf0 Hempty Hzero Hsmall Hnd Hlim.
  destruct (wf_shape _ Hwf0) as (_ & Hpos & _).
  set (nb := num_buckets ht0) in *.
  change (2 ^ 22) with 4194304 in Hsmall.
  induction j as [|j IH]; intros Hj ht.
  - subst ht. rewrite take_0. simpl.
    split; [exact Hwf0|]. split; [unfold key_set; rewrite Hempty; reflexivity|].
    split; [intros i k v Hi; lia|]. split; [exact Hzero|].
    intros _. change (Z.of_nat 0) with 0.
    destruct (Z.leb_spec 0 (3 * nb / 4 + 1)) as [_|Hneg]; [reflexivity|].
    exfalso. revert Hneg. Z.div_mod_to_equations. lia.
  - destruct (lookup_lt_is_Some_2 kvs j) as [[k v] Hkv]; [lia|].
    destruct IH as (Hwf & Hkeys & Hget & Hcnt & Hnb); [lia|].
    subst ht. rewrite (inserts_take_S _ _ _ _ Hkv), run_snoc.
    set (ht := run ht0 (inserts (take j kvs))) in *.
    assert (in_limits (k, v)) as [Hk Hv].
    { eapply Forall_forall in Hlim; [exact Hlim|].
      apply list_elem_of_lookup. eauto. }
    simpl in Hk, Hv.
    pose proof (NoDup_lookup_take _ _ _ _ Hnd Hkv) as Hfresh.
    pose proof (run_op_wf ht (OpSet k v []) Hwf) as Hwf'.
    pose proof (run_op_live ht (OpSet k v []) Hwf) as Hlive.
    pose proof (ht_set_granted ht k v Hk Hv) as Hok.
    simpl in Hwf', Hlive |- *. rewrite Hok in Hlive. simpl in Hlive.
    destruct (ht_set ht k v []) as [[r ht'] o'] eqn:Hset. simpl in *. subst r.
    split; [exact Hwf'|]. split; [|split; [|split]].
    + rewrite Hlive, Hkeys, (take_S_r _ _ _ Hkv), fmap_app, list_to_set_app_L.
      rewrite fmap_cons, fmap_nil, list_to_set_cons, list_to_set_nil. simpl.
      rewrite (right_id_L ∅ (∪)). apply (comm_L (∪)).
    + intros i k0 v0 Hi Hkv0.
      destruct (decide (i = j)) as [->|Hne].
      * rewrite Hkv in Hkv0. injection Hkv0 as <- <-.
        pose proof (ht_set_get ht k v [] (wf_shape _ Hwf) Hk Hv) as Hg.
        rewrite Hset in Hg. apply Hg. reflexivity.
      * assert (k0 <> k) as Hk0.
        { intros ->. apply Hfresh. apply list_elem_of_fmap. exists (k, v0).
          split; [reflexivity|]. apply list_elem_of_lookup. exists i.
          rewrite lookup_take_lt by lia. exact Hkv0. }
        pose proof (ht_set_other_keys ht k v [] k0 Hwf Hk0) as Hother.
        rewrite Hset in Hother. simpl in Hother. rewrite Hother.
        apply (Hget i k0 v0); [lia | exact Hkv0].
    + destruct (ht_set_spec _ _ _ _ _ _ _ Hwf Hset)
        as (_ & _ & [(? & _)|(_ & [(entry & rest & Hke & Hold & _)|(_ & _ & Hc)])]).
      * discriminate.
      * exfalso. apply Hfresh.
        assert (k ∈ key_set ht) as Hin.
        { unfold key_set. rewrite elem_of_list_to_set, Hold, fmap_cons, Hke.
          apply elem_of_cons. auto. }
        rewrite Hkeys, elem_of_list_to_set in Hin. exact Hin.
      * rewrite Hc, Hcnt, Nat2Z.inj_succ. wrap_norm; lia.
    + intros Hbound. rewrite Nat2Z.inj_succ in Hbound |- *.
      assert (Z.of_nat j <= 3 * nb / 2 + 1) as Hbound'
        by (revert Hbound; Z.div_mod_to_equations; lia).
      specialize (Hnb Hbound').
      assert (Z.of_nat j < 2 ^ 24) as Hcount
        by (change (2 ^ 24) with 16777216; revert Hbound;
            Z.div_mod_to_equations; lia).
      assert (0 < num_buckets ht <= 2 ^ 23) as Hbuckets
        by (rewrite Hnb; change (2 ^ 23) with 8388608;
            destruct (Z.of_nat j <=? 3 * nb / 4 + 1); lia).
      pose proof (ht_set_num_buckets ht k v Hwf Hk Hv) as Hstep.
      rewrite Hset in Hstep. simpl in Hstep.
      rewrite Hstep
        by (change (2 ^ 23) with 8388608 in Hbuckets; unfold sizeof_ptr; lia).
      rewrite load_factor_exceeded_at, Hcnt, wrap64_small
        by (change (2 ^ 24) with 16777216 in Hcount; lia).
      rewrite load_exceeded_exact by lia.
      rewrite Hnb. revert Hbound.
      repeat match goal with
             | |- context [?a <=? ?b] => destruct (Z.leb_spec a b)
             | |- context [?a <? ?b] => destruct (Z.ltb_spec a b)
             end; Z.div_mod_to_equations; lia.
Qed.

Lemma sample_pairs_distinct : NoDup sample_pairs.*1.
Proof. apply (bool_decide_unpack _). vm_compute. exact I. Qed.

Lemma sample_pairs_in_limits : Forall in_limits sample_pairs.
Proof.
  unfold sample_pairs. apply Forall_fmap, Forall_forall. intros i _.
  split; vm_compute; discriminate.
Qed.

(** Beyond [2 ^ 23] buckets the binary32 quotient can round down to 0.75
    although the exact ratio is above it. *)
Lemma load_test_rounds :
  load_exceeded_at 6291457 8388609 = false /\ 3 * 8388609 < 4 * 6291457.
Proof. split; [vm_compute; reflexivity | lia]. Qed.

(** C2, as the code has it. Insert distinct keys within the limits, every
    request granted, into a fresh store: any store [ht_create] returns, of
    [nb] buckets ([nb] at most [2 ^ 22]). Let [crossing] be
    [3 * nb / 4 + 1], the first entry count whose ratio to [nb] exceeds
    0.75. The bucket count is still [nb] when insert number [crossing] has
    completed, the insert whose completion first makes
    [num_entries / num_buckets] exceed 0.75: [ht_set] checks the load factor
    it finds on entry, before it inserts. Exactly one doubling, to
    [2 * nb], is carried out by the next insert, and the count then stays
    at [2 * nb] up to insert number [3 * nb / 2 + 1]. After every insert,
    hence after the resize too, each key inserted so far is retrievable with
    its value, and a resize by itself changes the answer of no [ht_get].
    The check is strict and made on the table as [ht_set] finds it: in
    every reachable store of at most [2 ^ 23] buckets and fewer than
    [2 ^ 24] entries the binary32 test is exactly
    [3 * num_buckets < 4 * num_entries], and the table grows iff it holds;
    with more buckets the rounding of the quotient can hide a crossing. *)
Theorem resize_follows_the_crossing_insert n o0 ht0 o0' kvs :
  ht_create n o0 = (Some ht0, o0') ->
  num_buckets ht0 <= 2 ^ 22 ->
  NoDup kvs.*1 -> Forall in_limits kvs ->
  let nb := num_buckets ht0 in
  let crossing := 3 * nb / 4 + 1 in
  let after (j : nat) := run ht0 (inserts (take j kvs)) in
  (4 * (crossing - 1) <= 3 * nb < 4 * crossing) /\
  (forall j, (j <= length kvs)%nat -> Z.of_nat j <= crossing ->
     num_buckets (after j) = nb /\ num_entries (after j) = Z.of_nat j) /\
  (forall j, (j <= length kvs)%nat -> crossing < Z.of_nat j <= 3 * nb / 2 + 1 ->
     num_buckets (after j) = 2 * nb /\ num_entries (after j) = Z.of_nat j) /\
  (forall j i k v,
     (j <= length kvs)%nat -> (i < j)%nat -> kvs !! i = Some (k, v) ->
     ht_get (after j) k = Some v) /\
  (forall m ht,
     reachable m ht -> num_buckets ht <= 2 ^ 23 -> num_entries ht < 2 ^ 24 ->
     load_factor_exceeded ht = (3 * num_buckets ht <? 4 * num_entries ht) /\
     forall k v, strlen k <= MAX_KEY_SIZE -> strlen v <= MAX_VALUE_SIZE ->
       num_buckets (snd (fst (ht_set ht k v [])))
       = if load_factor_exceeded ht then 2 * num_buckets ht else num_buckets ht) /\
  (load_exceeded_at 6291457 8388609 = false /\ 3 * 8388609 < 4 * 6291457) /\
  (forall j o k, (j <= length kvs)%nat ->
     ht_get (snd (fst (ht_resize (after j) o))) k = ht_get (after j) k).
Proof.
  intros Hc Hsmall Hnd Hlim nb crossing after.
  destruct (ht_create_spec _ _ _ _ Hc) as (Hwf0 & _ & Hempty & Hzero).
  destruct (wf_shape _ Hwf0) as (_ & Hpos & _). fold nb in Hpos.
  pose proof Hsmall as Hsmall'. fold nb in Hsmall'.
  change (2 ^ 22) with 4194304 in Hsmall'.
  assert (forall j, (j <= length kvs)%nat -> Z.of_nat j <= 3 * nb / 2 + 1 ->
            num_buckets (after j) = (if Z.of_nat j <=? crossing then nb else 2 * nb) /\
            num_entries (after j) = Z.of_nat j) as Hstate.
  { intros j Hj Hbound.
    destruct (inserts_state ht0 kvs j Hwf0 Hempty Hzero Hsmall Hnd Hlim Hj)
      as (_ & _ & _ & Hcnt & Hnb).
    split; [apply Hnb; exact Hbound|].
    unfold after. rewrite Hcnt. apply wrap64_small.
    revert Hbound. Z.div_mod_to_equations. lia. }
  split; [unfold crossing; Z.div_mod_to_equations; lia|].
  split; [|split; [|split; [|split; [|split]]]].
  - intros j Hj Hle. destruct (Hstate j Hj) as [Hnb Hcnt].
    { revert Hle. unfold crossing. Z.div_mod_to_equations. lia. }
    split; [|exact Hcnt]. rewrite Hnb.
    destruct (Z.leb_spec (Z.of_nat j) crossing); [reflexivity | lia].
  - intros j Hj Hgt. destruct (Hstate j Hj) as [Hnb Hcnt]; [lia|].
    split; [|exact Hcnt]. rewrite Hnb.
    destruct (Z.leb_spec (Z.of_nat j) crossing); [lia | reflexivity].
  - intros j i k v Hj Hi Hkv.
    destruct (inserts_state ht0 kvs j Hwf0 Hempty Hzero Hsmall Hnd Hlim Hj)
      as (_ & _ & Hget & _).
    apply (Hget i k v Hi Hkv).
  - intros m ht Hreach Hbuckets Hentries.
    pose proof (reachable_wf _ _ Hreach) as Hwf.
    destruct (wf_shape _ Hwf) as (_ & Hnbpos & _).
    assert (0 <= num_entries ht) as Hnonneg
      by (rewrite (wf_count _ Hwf); apply Z.mod_pos_bound; reflexivity).
    split.
    + rewrite load_factor_exceeded_at. apply load_exceeded_exact; lia.
    + intros k v Hk Hv. apply ht_set_num_buckets; try assumption.
      change (2 ^ 23) with 8388608 in Hbuckets. unfold sizeof_ptr. lia.
  - exact load_test_rounds.
  - intros j o k Hj. apply ht_resize_get.
    apply (inserts_state ht0 kvs j Hwf0 Hempty Hzero Hsmall Hnd Hlim Hj).
Qed.

Lemma resize_follows_the_crossing_insert_witness :
  num_buckets (run default_store (inserts (take 49 sample_pairs))) = 64 /\
  num_buckets (run default_store (inserts (take 50 sample_pairs))) = 128 /\
  ht_get (run default_store (inserts (take 50 sample_pairs))) "0" = Some "v"%string /\
  let store_8 := {| buckets := replicate 8 []; num_buckets := 8;
                    num_entries := 0; memory_used := 96 |} in
  num_buckets (run store_8 (inserts (take 7 sample_pairs))) = 8 /\
  num_buckets (run store_8 (inserts (take 8 sample_pairs))) = 16.
Proof.
  destruct (resize_follows_the_crossing_insert INITIAL_BUCKETS [] default_store []
              sample_pairs eq_refl ltac:(vm_compute; discriminate)
              sample_pairs_distinct sample_pairs_in_limits)
    as (_ & Hbefore & Hafter & Hget & _).
  split; [apply (Hbefore 49%nat); vm_compute; [lia | discriminate]|].
  split; [apply (Hafter 50%nat); vm_compute; [lia | split; [reflexivity | discriminate]]|].
  split; [apply (Hget 50%nat 0%nat); [vm_compute; lia | lia | reflexivity]|].
  intros store_8.
  destruct (resize_follows_the_crossing_insert 8 [] store_8 []
              sample_pairs eq_refl ltac:(vm_compute; discriminate)
              sample_pairs_distinct sample_pairs_in_limits)
    as (_ & Hbefore8 & Hafter8 & _).
  split; [apply (Hbefore8 7%nat); vm_compute; [lia | discriminate]|].
  apply (Hafter8 8%nat); vm_compute; [lia | split; [reflexivity | discriminate]].
Defined.

(** C2 as stated fails. After 48 inserts the ratio is exactly 0.75; the 49th
    insert is the first whose completion makes it exceed 0.75, and when it
    has completed the table still has its 64 buckets: nothing was doubled
    before it completed. *)
Lemma no_doubling_before_the_crossing_insert_completes :
  NoDup sample_pairs.*1 /\ Forall in_limits sample_pairs /\
  let after (n : nat) := run default_store (inserts (take n sample_pairs)) in
  num_entries (after 48%nat) = 48 /\
  ~ 3 * num_buckets (after 48%nat) < 4 * num_entries (after 48%nat) /\
  num_entries (after 49%nat) = 49 /\
  3 * num_buckets (after 49%nat) < 4 * num_entries (after 49%nat) /\
  num_buckets (after 49%nat) = 64 /\
  num_buckets (after 50%nat) = 128.
Proof.
  split; [exact sample_pairs_distinct|]. split; [exact sample_pairs_in_limits|].
  vm_compute. repeat split; congruence.
Qed.

(** * Further properties of the store *)

(** ** The hash function *)

Lemma hash_step h c :
  add64 (add64 (shl64 h 5) h) (char_to_int c) = (h * 33 + char_to_int c) mod 2 ^ 64.
Proof.
  unfold shl64. rewrite Z.shiftl_mul_pow2 by lia.
  change ((h * 33 + char_to_int c) mod 2 ^ 64) with (wrap64 (h * 33 + char_to_int c)).
  wrap_norm. lia.
Qed.

Lemma hash_loop_fold str h :
  hash_loop str h
  = fold_left (fun hash c => (hash * 33 + char_to_int c) mod 2 ^ 64)
              (list_ascii_of_string str) h.
Proof.
  revert h. induction str as [|c str IH]; intros h; simpl; [reflexivity|].
  rewrite hash_step. apply IH.
Qed.

Lemma hash_loop_range str h :
  0 <= h < 2 ^ 64 -> 0 <= hash_loop str h < 2 ^ 64.
Proof.
  revert h. induction str as [|c str IH]; intros h Hh; simpl; [exact Hh|].
  apply IH. rewrite hash_step. apply Z.mod_pos_bound. reflexivity.
Qed.

(** X1. [hash_djb2] is DJB2: from 5381, [hash * 33 + c] for every byte,
    modulo 2^64 (the shift and add of the code is the multiplication by 33).
    The hash is a 64-bit value and the bucket index it gives is below the
    bucket count. *)
Theorem hash_djb2_is_times_33 str :
  hash_djb2 str = djb2_spec str /\
  0 <= hash_djb2 str < 2 ^ 64 /\
  forall nb, 0 < nb -> Z.of_nat (bucket_index str nb) < nb.
Proof.
  split; [apply hash_loop_fold|]. split.
  - apply hash_loop_range. lia.
  - intros nb Hnb. pose proof (bucket_index_lt str nb Hnb). lia.
Qed.

(** ** Lookup *)

Lemma key_determines_entry (es : list HashEntry) x y :
  NoDup (key <$> es) -> x ∈ es -> y ∈ es -> key x = key y -> x = y.
Proof.
  induction es as [|e es IH]; [intros _ Hx; apply elem_of_nil in Hx; destruct Hx|].
  rewrite fmap_cons, NoDup_cons, !elem_of_cons.
  intros [Hnot Hnd] [->|Hx] [->|Hy] Hk; auto.
  - exfalso. apply Hnot. rewrite Hk. apply list_elem_of_fmap. eauto.
  - exfalso. apply Hnot. rewrite <- Hk. apply list_elem_of_fmap. eauto.
Qed.

Lemma ht_get_None ht k :
  wf ht -> ht_get ht k = None <-> k ∉ key <$> all_entries ht.
Proof.
  intros Hwf. split.
  - intros Hg Hin. apply list_elem_of_fmap in Hin as (entry & -> & Hin).
    assert (ht_get ht (key entry) = Some (value entry)) as Hs
      by (apply ht_get_spec; [exact Hwf | exists entry; auto]).
    congruence.
  - intros Hnot. destruct (ht_get ht k) as [v|] eqn:Hg; [|reflexivity].
    apply ht_get_spec in Hg as (entry & Hin & Hk & _); [|exact Hwf].
    exfalso. apply Hnot. rewrite <- Hk. apply list_elem_of_fmap. eauto.
Qed.

(** X2. In a reachable store [ht_get] finds a key wherever it is: it
    returns [v] for [k] exactly when some chain of the table holds an entry
    with key [k] and value [v], although it searches one chain only. *)
Theorem get_finds_every_entry n ht k v :
  reachable n ht ->
  ht_get ht k = Some v <->
  exists entry, entry ∈ all_entries ht /\ key entry = k /\ value entry = v.
Proof. intros Hreach. apply ht_get_spec, (reachable_wf _ _ Hreach). Qed.

Lemma get_finds_every_entry_witness :
  reachable INITIAL_BUCKETS store_ab /\
  (ht_get store_ab "a" = Some "b"%string <->
   exists entry, entry ∈ all_entries store_ab /\ key entry = "a"%string
                 /\ value entry = "b"%string).
Proof.
  split; [exact store_ab_reachable|].
  exact (get_finds_every_entry INITIAL_BUCKETS store_ab "a" "b" store_ab_reachable).
Defined.

(** X3. What a reachable store holds is within the limits and measured
    right: a value [ht_get] returns has at most 4096 bytes, its key at most
    256, and the length fields of every entry are the lengths of its
    strings. *)
Theorem stored_entries_within_limits n ht :
  reachable n ht ->
  (forall k v, ht_get ht k = Some v -> strlen k <= 256 /\ strlen v <= 4096) /\
  (forall entry, entry ∈ all_entries ht ->
     key_len entry = strlen (key entry) /\ value_len entry = strlen (value entry)).
Proof.
  intros Hreach. pose proof (reachable_wf _ _ Hreach) as Hwf.
  pose proof (wf_sized _ Hwf) as Hsz. rewrite Forall_forall in Hsz. split.
  - intros k v Hg. apply ht_get_spec in Hg as (entry & Hin & <- & <-); [|exact Hwf].
    destruct (Hsz _ Hin) as (_ & _ & Hk & Hv). auto.
  - intros entry Hin. destruct (Hsz _ Hin) as (Hk & Hv & _). auto.
Qed.

Lemma stored_entries_within_limits_witness :
  reachable INITIAL_BUCKETS store_ab /\
  (ht_get store_ab "a" = Some "b"%string -> strlen "a" <= 256 /\ strlen "b" <= 4096).
Proof.
  split; [exact store_ab_reachable|].
  exact (proj1 (stored_entries_within_limits INITIAL_BUCKETS store_ab
                  store_ab_reachable) "a"%string "b"%string).
Defined.

(** X4. [num_entries] is the number of entry nodes linked in the chains of
    a reachable store (as long as that number fits a [size_t]). *)
Theorem num_entries_counts_the_nodes n ht :
  reachable n ht -> Z.of_nat (length (all_entries ht)) < 2 ^ 64 ->
  num_entries ht = Z.of_nat (length (all_entries ht)).
Proof.
  intros Hreach Hfits. rewrite (wf_count _ (reachable_wf _ _ Hreach)).
  apply wrap64_small. lia.
Qed.

Lemma num_entries_counts_the_nodes_witness :
  reachable INITIAL_BUCKETS store_ab /\
  num_entries store_ab = Z.of_nat (length (all_entries store_ab)).
Proof.
  split; [exact store_ab_reachable|].
  apply (num_entries_counts_the_nodes INITIAL_BUCKETS store_ab store_ab_reachable).
  vm_compute. reflexivity.
Defined.

(** ** Creation *)

(** X5. A store that [ht_create] returns has the bucket count asked for, 64
    when zero is asked for, no entry, a memory figure of the header plus the
    slots, and answers every [ht_get] with "not found". *)
Theorem create_gives_an_empty_store n o ht o' :
  ht_create n o = (Some ht, o') ->
  num_buckets ht = (if 0 <? n then n else 64) /\
  length (buckets ht) = Z.to_nat (num_buckets ht) /\
  all_entries ht = [] /\
  ht_stats ht = (0, wrap64 (sizeof_HashTable + num_buckets ht * sizeof_ptr)) /\
  forall k, ht_get ht k = None.
Proof.
  intros Hc. destruct (ht_create_spec _ _ _ _ Hc) as (Hwf & Hnb & Hall & Hcnt).
  split; [exact Hnb|]. split; [apply (wf_shape _ Hwf)|]. split; [exact Hall|]. split.
  - unfold ht_stats. rewrite Hcnt, (wf_memory _ Hwf). unfold accounted.
    rewrite Hall. simpl. unfold table_overhead. f_equal. f_equal. lia.
  - intros k. apply ht_get_None; [exact Hwf|]. rewrite Hall. apply not_elem_of_nil.
Qed.

Lemma create_gives_an_empty_store_witness :
  ht_create 0 [] = (Some default_store, []) /\
  num_buckets default_store = 64 /\ ht_stats default_store = (0, 544).
Proof.
  split; [reflexivity|].
  destruct (create_gives_an_empty_store 0 [] default_store [] eq_refl)
    as (Hnb & _ & _ & Hstats & _).
  split; [exact Hnb | exact Hstats].
Defined.

(** X6. [ht_create] fails exactly when it is out of memory: when [malloc]
    refuses the header, when [calloc] refuses the bucket array, or when the
    bucket array would not fit a [size_t]; on failure it consumes the
    requests it made and returns no store. *)
Theorem create_fails_only_without_memory n o :
  let nb := if 0 <? n then n else INITIAL_BUCKETS in
  ht_create n (false :: o) = (None, o) /\
  ht_create n (true :: false :: o) = (None, o) /\
  (fst (ht_create n (true :: true :: o)) = None <-> 2 ^ 64 <= nb * sizeof_ptr) /\
  (fst (ht_create n []) = None <-> 2 ^ 64 <= nb * sizeof_ptr).
Proof.
  intros nb. unfold ht_create, malloc, calloc, Alloc.bind, Alloc.request, Alloc.ret.
  fold nb. simpl.
  repeat split; try (destruct (nb * sizeof_ptr <? 2 ^ 64) eqn:Hfit; simpl;
    [apply Z.ltb_lt in Hfit | apply Z.ltb_ge in Hfit]; intros H;
    first [discriminate | lia | reflexivity]).
Qed.

(** ** Deletion *)

Lemma ht_delete_result ht k :
  fst (ht_delete ht k) = match ht_get ht k with Some _ => 0 | None => -1 end /\
  (ht_get ht k = None -> snd (ht_delete ht k) = ht).
Proof.
  unfold ht_delete, ht_get. cbv zeta.
  destruct (chain_find k _) as [entry|]; simpl; split; auto; discriminate.
Qed.

Lemma ht_delete_other_keys ht k k' :
  wf ht -> k' <> k -> ht_get (snd (ht_delete ht k)) k' = ht_get ht k'.
Proof.
  intros Hwf Hne. destruct (ht_delete ht k) as [r ht'] eqn:Hdel. simpl.
  destruct (ht_delete_spec _ _ _ _ Hwf Hdel)
    as (Hwf' & _ & [(_ & -> & _)|(_ & entry & Hk & Hold & _)]); [reflexivity|].
  assert (forall x, key x = k' -> x ∈ all_entries ht' <-> x ∈ all_entries ht) as Hsame.
  { intros x Hx. rewrite Hold, elem_of_cons.
    split; [auto | intros [->|H]; [congruence | exact H]]. }
  destruct (ht_get ht k') as [w|] eqn:Hg.
  - apply ht_get_spec in Hg as (x & Hin & Hx & Hv); [|exact Hwf].
    apply ht_get_spec; [exact Hwf'|]. exists x. rewrite Hsame by exact Hx. auto.
  - apply ht_get_None; [exact Hwf'|]. apply ht_get_None in Hg; [|exact Hwf].
    intros Hin. apply Hg.
    apply list_elem_of_fmap in Hin as (x & Hx & Hin).
    apply list_elem_of_fmap. exists x. split; [exact Hx|].
    apply Hsame; auto.
Qed.

Lemma ht_delete_gone ht k :
  wf ht -> ht_get (snd (ht_delete ht k)) k = None.
Proof.
  intros Hwf. destruct (ht_delete ht k) as [r ht'] eqn:Hdel. simpl.
  destruct (ht_delete_spec _ _ _ _ Hwf Hdel)
    as (Hwf' & _ & [(_ & -> & Habs)|(_ & entry & Hk & Hold & _)]).
  - apply ht_get_None; assumption.
  - apply ht_get_None; [exact Hwf'|].
    pose proof (wf_unique _ Hwf) as Hnd. unfold keys_unique in Hnd.
    rewrite Hold, fmap_cons, Hk in Hnd. apply NoDup_cons in Hnd. tauto.
Qed.

(** X7. After [ht_delete] of a key, found or not, [ht_get] of that key
    returns "not found", a second [ht_delete] returns -1 and changes
    nothing, and every other key is answered as before. [ht_delete]
    returns 0 exactly when the key was there. *)
Theorem delete_then_absent n ht k :
  reachable n ht ->
  let ht' := snd (ht_delete ht k) in
  fst (ht_delete ht k) = match ht_get ht k with Some _ => 0 | None => -1 end /\
  ht_get ht' k = None /\
  ht_delete ht' k = (-1, ht') /\
  forall k', k' <> k -> ht_get ht' k' = ht_get ht k'.
Proof.
  intros Hreach ht'. pose proof (reachable_wf _ _ Hreach) as Hwf.
  pose proof (ht_delete_gone ht k Hwf) as Hgone. fold ht' in Hgone.
  split; [apply ht_delete_result|]. split; [exact Hgone|]. split.
  - destruct (ht_delete_result ht' k) as [Hr Hsame]. rewrite Hgone in Hr.
    rewrite (surjective_pairing (ht_delete ht' k)), Hr, (Hsame Hgone). reflexivity.
  - intros k' Hne. apply ht_delete_other_keys; assumption.
Qed.

Lemma delete_then_absent_witness :
  reachable INITIAL_BUCKETS store_ab /\
  fst (ht_delete store_ab "a") = 0 /\
  ht_get (snd (ht_delete store_ab "a")) "a" = None.
Proof.
  split; [exact store_ab_reachable|].
  destruct (delete_then_absent INITIAL_BUCKETS store_ab "a" store_ab_reachable)
    as (Hr & Hgone & _).
  split; [exact Hr | exact Hgone].
Defined.

Lemma entries_size_length es : Z.of_nat (length es) <= entries_size es.
Proof.
  induction es as [|e es IH]; [reflexivity|].
  rewrite entries_size_cons. simpl length.
  unfold accounted_size, strlen, sizeof_HashEntry. lia.
Qed.

Lemma accounted_bounds ht :
  wf ht -> 0 <= Z.of_nat (length (all_entries ht)) <= accounted ht.
Proof.
  intros Hwf. destruct (wf_shape _ Hwf) as (_ & Hnb & _).
  pose proof (entries_size_length (all_entries ht)).
  unfold accounted, table_overhead, sizeof_HashTable, sizeof_ptr. lia.
Qed.

Lemma memory_used_exact ht :
  wf ht -> accounted ht < 2 ^ 64 -> memory_used ht = accounted ht.
Proof.
  intros Hwf Hfits. rewrite (wf_memory _ Hwf). apply wrap64_small.
  pose proof (accounted_bounds ht Hwf). lia.
Qed.

Lemma num_entries_exact ht :
  wf ht -> accounted ht < 2 ^ 64 ->
  num_entries ht = Z.of_nat (length (all_entries ht)).
Proof.
  intros Hwf Hfits. rewrite (wf_count _ Hwf). apply wrap64_small.
  pose proof (accounted_bounds ht Hwf). lia.
Qed.

Lemma present_entry ht k v :
  wf ht -> ht_get ht k = Some v ->
  forall entry, entry ∈ all_entries ht -> key entry = k -> value entry = v.
Proof.
  intros Hwf Hg entry Hin Hk.
  apply ht_get_spec in Hg as (x & Hx & Hkx & Hv); [|exact Hwf].
  rewrite <- Hv. f_equal.
  apply (key_determines_entry (all_entries ht)); [apply Hwf|assumption..|congruence].
Qed.

(** X8. Deleting a key that is there gives back exactly what its entry
    accounted for: the count drops by one and the memory figure by the
    node, the key, the value and their two terminators (in a store whose
    accounted size fits a [size_t]). *)
Theorem delete_gives_back_its_memory n ht k v :
  reachable n ht -> accounted ht < 2 ^ 64 -> ht_get ht k = Some v ->
  fst (ht_delete ht k) = 0 /\
  ht_stats (snd (ht_delete ht k))
  = (num_entries ht - 1,
     memory_used ht - (sizeof_HashEntry + strlen k + 1 + strlen v + 1)).
Proof.
  intros Hreach Hfits Hg. pose proof (reachable_wf _ _ Hreach) as Hwf.
  destruct (ht_delete_result ht k) as [Hr _]. rewrite Hg in Hr.
  split; [exact Hr|].
  destruct (ht_delete ht k) as [r ht'] eqn:Hdel. simpl in *. subst r.
  destruct (ht_delete_spec _ _ _ _ Hwf Hdel)
    as (Hwf' & Hnb & [(? & _)|(_ & entry & Hk & Hold & _)]); [discriminate|].
  assert (value entry = v) as Hv.
  { apply (present_entry ht k v Hwf Hg); [|exact Hk].
    rewrite Hold. apply elem_of_cons. auto. }
  assert (accounted ht = accounted ht' + accounted_size entry) as Hacc.
  { unfold accounted. rewrite Hnb, (entries_size_perm _ _ Hold), entries_size_cons. lia. }
  assert (0 < accounted_size entry) as Hpos
    by (unfold accounted_size, strlen, sizeof_HashEntry; lia).
  unfold ht_stats.
  rewrite (memory_used_exact ht' Hwf'), (memory_used_exact ht Hwf) by lia.
  rewrite (num_entries_exact ht' Hwf'), (num_entries_exact ht Hwf) by lia.
  rewrite (Permutation_length Hold), Hacc. unfold accounted_size.
  rewrite Hk, Hv. simpl length. f_equal; lia.
Qed.

Lemma delete_gives_back_its_memory_witness :
  reachable INITIAL_BUCKETS store_ab /\
  ht_stats store_ab = (1, 588) /\
  ht_stats (snd (ht_delete store_ab "a")) = (0, 544).
Proof.
  split; [exact store_ab_reachable|]. split; [reflexivity|].
  exact (proj2 (delete_gives_back_its_memory INITIAL_BUCKETS store_ab "a" "b"
                  store_ab_reachable ltac:(vm_compute; reflexivity) eq_refl)).
Defined.

(** ** Setting *)

(** X9. A [ht_set] that fails, whether for an oversized argument or for
    want of memory and even when it has resized the table first, changes
    no answer of [ht_get] and leaves the entry count as it was. *)
Theorem failed_set_changes_no_answer n ht k v o :
  reachable n ht -> fst (fst (ht_set ht k v o)) = -1 ->
  let ht' := snd (fst (ht_set ht k v o)) in
  (forall k', ht_get ht' k' = ht_get ht k') /\
  num_entries ht' = num_entries ht /\
  all_entries ht' ≡ₚ all_entries ht.
Proof.
  intros Hreach Hr ht'. subst ht'. pose proof (reachable_wf _ _ Hreach) as Hwf.
  destruct (ht_set ht k v o) as [[r ht'] o'] eqn:Hset. simpl in *. subst r.
  destruct (ht_set_spec _ _ _ _ _ _ _ Hwf Hset)
    as (Hwf' & _ & [(_ & Hperm & Hcnt)|(? & _)]); [|discriminate].
  split; [|auto]. intros k'. apply ht_get_perm; [exact Hwf | exact Hwf'|].
  symmetry. exact Hperm.
Qed.

Lemma failed_set_changes_no_answer_witness :
  fst (fst (ht_set one_bucket_store "c" "d" [true; false])) = -1 /\
  num_buckets (snd (fst (ht_set one_bucket_store "c" "d" [true; false]))) = 2 /\
  ht_get (snd (fst (ht_set one_bucket_store "c" "d" [true; false]))) "a"
  = ht_get one_bucket_store "a".
Proof.
  split; [reflexivity|]. split; [reflexivity|].
  exact (proj1 (failed_set_changes_no_answer 1 one_bucket_store "c" "d" [true; false]
                  one_bucket_store_reachable eq_refl) "a"%string).
Defined.

(** X10. [ht_set] of one key changes the answer for no other key, whatever
    it returns and whether or not it resizes the table. *)
Theorem set_keeps_other_keys n ht k v o k' :
  reachable n ht -> k' <> k ->
  ht_get (snd (fst (ht_set ht k v o))) k' = ht_get ht k'.
Proof.
  intros Hreach Hne. apply ht_set_other_keys; [|exact Hne].
  apply (reachable_wf _ _ Hreach).
Qed.

Lemma set_keeps_other_keys_witness :
  ht_get (snd (fst (ht_set store_ab "c" "d" []))) "a" = ht_get store_ab "a".
Proof.
  apply (set_keeps_other_keys INITIAL_BUCKETS store_ab "c" "d" [] "a").
  - exact store_ab_reachable.
  - discriminate.
Defined.

(** X11. What a successful [ht_set] adds to the memory figure: 8 bytes for
    every bucket slot a resize added, plus, for a new key, the node, the
    key, the value and their two terminators, or, for a key that was there,
    the difference in length between the new value and the old one (both
    stores within a [size_t]). *)
Theorem set_memory_delta n ht k v o :
  reachable n ht -> fst (fst (ht_set ht k v o)) = 0 ->
  let ht' := snd (fst (ht_set ht k v o)) in
  accounted ht < 2 ^ 64 -> accounted ht' < 2 ^ 64 ->
  memory_used ht' - memory_used ht
  = sizeof_ptr * (num_buckets ht' - num_buckets ht) +
    match ht_get ht k with
    | Some old => strlen v - strlen old
    | None => sizeof_HashEntry + strlen k + 1 + strlen v + 1
    end.
Proof.
  intros Hreach Hr ht' Hfits Hfits'. subst ht'.
  pose proof (reachable_wf _ _ Hreach) as Hwf.
  destruct (ht_set ht k v o) as [[r ht'] o'] eqn:Hset. simpl in *. subst r.
  destruct (ht_set_spec _ _ _ _ _ _ _ Hwf Hset)
    as (Hwf' & _ & [(? & _)|(_ & Heff)]); [discriminate|].
  rewrite (memory_used_exact ht' Hwf' Hfits'), (memory_used_exact ht Hwf Hfits).
  unfold accounted, table_overhead.
  destruct Heff as [(entry & rest & Hk & Hold & Hnew & _)|(Habs & Hnew & _)].
  - assert (ht_get ht k = Some (value entry)) as Hg.
    { apply ht_get_spec; [exact Hwf|]. exists entry.
      rewrite Hold. split; [apply elem_of_cons; auto | auto]. }
    rewrite Hg, (entries_size_perm _ _ Hnew), (entries_size_perm _ _ Hold).
    rewrite !entries_size_cons. unfold accounted_size, with_value. simpl. lia.
  - apply ht_get_None in Habs; [|exact Hwf].
    rewrite Habs, (entries_size_perm _ _ Hnew), entries_size_cons.
    unfold accounted_size, fresh_entry. simpl. lia.
Qed.

Lemma set_memory_delta_witness :
  memory_used (snd (fst (ht_set one_bucket_store "c" "d" [])))
  - memory_used one_bucket_store = 8 * (2 - 1) + (40 + 1 + 1 + 1 + 1) /\
  memory_used (snd (fst (ht_set store_ab "a" "hello" []))) - memory_used store_ab
  = 8 * (64 - 64) + (5 - 1).
Proof.
  split.
  - apply (set_memory_delta 1 one_bucket_store "c" "d" []);
      [exact one_bucket_store_reachable | reflexivity
      | vm_compute; reflexivity | vm_compute; reflexivity].
  - apply (set_memory_delta INITIAL_BUCKETS store_ab "a" "hello" []);
      [exact store_ab_reachable | reflexivity
      | vm_compute; reflexivity | vm_compute; reflexivity].
Defined.

(** X12. Setting a key that is not there and deleting it again gives the
    store its answers and its entry count back: every [ht_get] returns what
    it returned before the set. *)
Theorem set_then_delete_restores n ht k v o :
  reachable n ht -> ht_get ht k = None -> fst (fst (ht_set ht k v o)) = 0 ->
  let ht' := snd (fst (ht_set ht k v o)) in
  fst (ht_delete ht' k) = 0 /\
  (forall k', ht_get (snd (ht_delete ht' k)) k' = ht_get ht k') /\
  num_entries (snd (ht_delete ht' k)) = num_entries ht.
Proof.
  intros Hreach Hnone Hr ht'. subst ht'.
  pose proof (reachable_wf _ _ Hreach) as Hwf.
  destruct (ht_set ht k v o) as [[r ht'] o'] eqn:Hset. simpl in *. subst r.
  destruct (ht_set_spec _ _ _ _ _ _ _ Hwf Hset)
    as (Hwf' & _ & [(? & _)|(_ & Heff)]); [discriminate|].
  assert (ht_get ht' k = Some v) as Hg.
  { destruct Heff as [(entry & rest & Hk & Hold & _)|(_ & Hnew & _)].
    - apply ht_get_None in Hnone; [|exact Hwf]. exfalso. apply Hnone.
      rewrite Hold, fmap_cons, Hk. apply elem_of_cons. auto.
    - apply ht_get_spec; [exact Hwf'|]. exists (fresh_entry k v).
      rewrite Hnew. split; [apply elem_of_cons; auto | auto]. }
  destruct (ht_delete_result ht' k) as [Hdr _]. rewrite Hg in Hdr.
  split; [exact Hdr|]. split.
  - intros k'. destruct (decide (k' = k)) as [->|Hne].
    + rewrite Hnone. apply ht_delete_gone. exact Hwf'.
    + rewrite (ht_delete_other_keys ht' k k' Hwf' Hne).
      pose proof (ht_set_other_keys ht k v o k' Hwf Hne) as Hother.
      rewrite Hset in Hother. exact Hother.
  - destruct (ht_delete ht' k) as [r ht''] eqn:Hdel. simpl in *. subst r.
    destruct (ht_delete_spec _ _ _ _ Hwf' Hdel)
      as (_ & _ & [(? & _)|(_ & _ & _ & _ & Hcnt)]); [discriminate|].
    destruct Heff as [(entry & rest & Hk & Hold & _)|(_ & _ & Hcnt')].
    + apply ht_get_None in Hnone; [|exact Hwf]. exfalso. apply Hnone.
      rewrite Hold, fmap_cons, Hk. apply elem_of_cons. auto.
    + rewrite Hcnt, Hcnt', (wf_count _ Hwf). wrap_norm; lia.
Qed.

Lemma set_then_delete_restores_witness :
  fst (ht_delete (snd (fst (ht_set store_ab "c" "d" []))) "c") = 0 /\
  num_entries (snd (ht_delete (snd (fst (ht_set store_ab "c" "d" []))) "c"))
  = num_entries store_ab.
Proof.
  destruct (set_then_delete_restores INITIAL_BUCKETS store_ab "c" "d" []
              store_ab_reachable eq_refl eq_refl) as (Hr & _ & Hcnt).
  split; [exact Hr | exact Hcnt].
Defined.

(** ** Resizing *)

Lemma mod_double h nb :
  0 < nb -> h mod (2 * nb) = h mod nb \/ h mod (2 * nb) = h mod nb + nb.
Proof.
  intros Hnb. rewrite (Z.mul_comm 2 nb), Z.rem_mul_r by lia.
  pose proof (Z.mod_pos_bound (h / nb) 2 ltac:(lia)) as Hq.
  assert ((h / nb) mod 2 = 0 \/ (h / nb) mod 2 = 1) as [-> | ->] by lia; lia.
Qed.

(** X13. A resize that gets its memory doubles the bucket count, keeps the
    entry count, adds 8 bytes per new slot to the memory figure, and moves
    every entry of bucket [i] to bucket [i] or to bucket [i + num_buckets]
    of the new array; no entry is lost or duplicated. *)
Theorem resize_splits_every_bucket n ht o :
  reachable n ht -> fst (fst (ht_resize ht o)) = 0 ->
  let ht' := snd (fst (ht_resize ht o)) in
  num_buckets ht' = 2 * num_buckets ht /\
  num_entries ht' = num_entries ht /\
  all_entries ht' ≡ₚ all_entries ht /\
  memory_used ht' = wrap64 (memory_used ht + sizeof_ptr * num_buckets ht) /\
  forall j chain' entry,
    buckets ht' !! j = Some chain' -> entry ∈ chain' ->
    exists i chain,
      buckets ht !! i = Some chain /\ entry ∈ chain /\
      (j = i \/ j = (i + Z.to_nat (num_buckets ht))%nat).
Proof.
  intros Hreach Hr ht'. subst ht'. pose proof (reachable_wf _ _ Hreach) as Hwf.
  destruct (ht_resize ht o) as [[r ht'] o'] eqn:Hrs. simpl in *. subst r.
  destruct (ht_resize_spec _ _ _ _ _ Hwf Hrs)
    as [[? _]|(_ & Heq & Hwf' & Hnb & Hperm & Hcnt)]; [discriminate|].
  destruct (wf_shape _ Hwf) as (_ & Hpos & Hfit).
  split; [exact Hnb|]. split; [exact Hcnt|]. split; [exact Hperm|]. split.
  - rewrite (wf_memory _ Hwf'), (wf_memory _ Hwf). unfold accounted.
    rewrite Hnb, (entries_size_perm _ _ Hperm). unfold table_overhead.
    wrap_norm. lia.
  - intros j chain' entry Hj Hin.
    assert (entry ∈ all_entries ht) as Hold.
    { rewrite <- Hperm. apply list_elem_of_join. exists chain'.
      split; [exact Hin|]. apply list_elem_of_lookup. eauto. }
    apply list_elem_of_join in Hold as (chain & Hin0 & Hchain).
    apply list_elem_of_lookup in Hchain as (i & Hi).
    exists i, chain. split; [exact Hi|]. split; [exact Hin0|].
    pose proof (wf_placed _ Hwf _ _ _ Hi Hin0) as Hidx.
    pose proof (wf_placed _ Hwf' _ _ _ Hj Hin) as Hidx'.
    rewrite Hnb in Hidx'. unfold bucket_index in *.
    pose proof (Z.mod_pos_bound (hash_djb2 (key entry)) (num_buckets ht) Hpos).
    destruct (mod_double (hash_djb2 (key entry)) (num_buckets ht) Hpos) as [Hm|Hm];
      rewrite Hm in Hidx'; [left|right]; lia.
Qed.

Lemma resize_splits_every_bucket_witness :
  num_buckets (snd (fst (ht_resize store_ab []))) = 128 /\
  num_entries (snd (fst (ht_resize store_ab []))) = 1.
Proof.
  destruct (resize_splits_every_bucket INITIAL_BUCKETS store_ab []
              store_ab_reachable eq_refl) as (Hnb & Hcnt & _).
  split; [exact Hnb | exact Hcnt].
Defined.

(** * Properties of the command interpreter *)

Local Open Scope string_scope.

(** ** Shapes of command lines *)

Lemma is_delim_isspace c : is_delim c = true -> isspace c = true.
Proof.
  unfold is_delim, isspace. cbv zeta.
  destruct (Nat.eqb_spec (nat_of_ascii c) 32) as [->|_]; [reflexivity|].
  destruct (Nat.eqb_spec (nat_of_ascii c) 9) as [->|_]; [reflexivity|discriminate].
Qed.

Lemma no_space_no_delim s : no_space s = true -> no_delim s = true.
Proof.
  unfold no_space, no_delim.
  induction s as [|c s IH]; simpl; [reflexivity|].
  intros [Hc Hs]%andb_true_iff. rewrite (IH Hs), andb_true_r.
  destruct (is_delim c) eqn:Hd; [|reflexivity].
  rewrite (is_delim_isspace _ Hd) in Hc. discriminate.
Qed.

Lemma append_nil (t : string) : EmptyString ++ t = t.
Proof. reflexivity. Qed.

Lemma append_cons c (s t : string) : String c s ++ t = String c (s ++ t).
Proof. reflexivity. Qed.

(** Unfolds the appends whose left operand starts with a known byte. *)
Ltac push_append := rewrite ?append_nil, ?append_cons.

Lemma append_assoc (s1 s2 s3 : string) : (s1 ++ s2) ++ s3 = s1 ++ (s2 ++ s3).
Proof.
  induction s1 as [|c s1 IH]; push_append; [reflexivity | f_equal; exact IH].
Qed.

Lemma starts_nonspace_append s t :
  starts_nonspace s = true -> starts_nonspace (s ++ t) = true.
Proof. destruct s; push_append; simpl; [discriminate | auto]. Qed.

Lemma no_space_starts s :
  no_space s = true -> nonempty s = true -> starts_nonspace s = true.
Proof.
  destruct s as [|c s]; simpl; [discriminate|].
  intros [Hc _]%andb_true_iff _. exact Hc.
Qed.

Lemma ends_nonspace_append s t :
  nonempty t = true -> ends_nonspace (s ++ t) = ends_nonspace t.
Proof.
  intros Ht. induction s as [|c s IH]; push_append; [reflexivity|].
  simpl. rewrite IH. destruct (s ++ t) eqn:Hst; [|reflexivity].
  destruct s; destruct t; discriminate.
Qed.

Lemma ends_nonspace_nonempty s : ends_nonspace s = true -> nonempty s = true.
Proof. destruct s; simpl; [discriminate | reflexivity]. Qed.

(** *** Skipping white space *)

Lemma skip_space_run w s :
  all_space w = true -> skip_space (w ++ s) = skip_space s.
Proof.
  unfold all_space. induction w as [|c w IH]; push_append; simpl; [reflexivity|].
  intros [Hc Hw]%andb_true_iff. rewrite Hc. apply IH. exact Hw.
Qed.

Lemma skip_space_stop s : starts_nonspace s = true -> skip_space s = s.
Proof.
  destruct s as [|c s]; simpl; [discriminate|].
  intros Hc. apply negb_true_iff in Hc. rewrite Hc. reflexivity.
Qed.

Lemma skip_nonspace_run a s :
  no_space a = true -> skip_nonspace (a ++ s) = skip_nonspace s.
Proof.
  unfold no_space. induction a as [|c a IH]; push_append; simpl; [reflexivity|].
  intros [Hc Ha]%andb_true_iff. apply negb_true_iff in Hc. rewrite Hc.
  apply IH. exact Ha.
Qed.

Lemma skip_nonspace_stop w s :
  all_space w = true -> nonempty w = true -> skip_nonspace (w ++ s) = w ++ s.
Proof.
  destruct w as [|c w]; push_append; simpl; [discriminate|].
  unfold all_space; simpl. intros [Hc _]%andb_true_iff _. rewrite Hc. reflexivity.
Qed.

(** *** Trimming *)

Lemma drop_trailing_space_run s w :
  all_space w = true -> drop_trailing_space (s ++ w) = drop_trailing_space s.
Proof.
  intros Hw. induction s as [|c s IH]; push_append; simpl.
  - unfold all_space in Hw. induction w as [|d w IHw]; simpl; [reflexivity|].
    simpl in Hw. apply andb_true_iff in Hw as [Hd Hw].
    rewrite (IHw Hw), Hd. reflexivity.
  - rewrite IH. reflexivity.
Qed.

Lemma drop_trailing_space_stop s :
  ends_nonspace s = true -> drop_trailing_space s = s.
Proof.
  induction s as [|c s IH]; simpl; [discriminate|].
  destruct s as [|d s].
  - simpl. intros Hc. apply negb_true_iff in Hc. rewrite Hc. reflexivity.
  - intros Hs. rewrite (IH Hs). reflexivity.
Qed.

Lemma trim_whitespace_body lead body trail :
  all_space lead = true -> all_space trail = true ->
  starts_nonspace body = true -> ends_nonspace body = true ->
  trim_whitespace (lead ++ body ++ trail) = body.
Proof.
  intros Hlead Htrail Hstart Hend. unfold trim_whitespace.
  rewrite (skip_space_run _ _ Hlead).
  rewrite skip_space_stop by (apply starts_nonspace_append; exact Hstart).
  destruct body as [|c body]; [discriminate|]. push_append. f_equal.
  rewrite (drop_trailing_space_run _ _ Htrail).
  destruct body as [|d body]; [reflexivity|].
  apply drop_trailing_space_stop. exact Hend.
Qed.

(** *** Tokens *)

Lemma skip_delims_run w s :
  all_delim w = true -> skip_delims (w ++ s) = skip_delims s.
Proof.
  unfold all_delim. induction w as [|c w IH]; push_append; simpl; [reflexivity|].
  intros [Hc Hw]%andb_true_iff. rewrite Hc. apply IH. exact Hw.
Qed.

Lemma skip_delims_stop s : starts_nonspace s = true -> skip_delims s = s.
Proof.
  destruct s as [|c s]; simpl; [discriminate|].
  intros Hc. destruct (is_delim c) eqn:Hd; [|reflexivity].
  rewrite (is_delim_isspace _ Hd) in Hc. discriminate.
Qed.

Lemma split_token_run a w s :
  no_delim a = true -> all_delim w = true -> nonempty w = true ->
  exists w', all_delim w' = true /\ split_token (a ++ w ++ s) = (a, w' ++ s).
Proof.
  intros Ha Hw Hne. destruct w as [|d w]; [discriminate|].
  unfold all_delim in Hw. simpl in Hw. apply andb_true_iff in Hw as [Hd Hw].
  exists w. split; [exact Hw|]. rewrite (append_cons d w s).
  unfold no_delim in Ha. induction a as [|c a IH]; push_append; simpl.
  - rewrite Hd. reflexivity.
  - simpl in Ha. apply andb_true_iff in Ha as [Hc Ha].
    apply negb_true_iff in Hc. rewrite Hc, (IH Ha). reflexivity.
Qed.

Lemma split_token_whole a : no_delim a = true -> split_token a = (a, EmptyString).
Proof.
  unfold no_delim. induction a as [|c a IH]; simpl; [reflexivity|].
  intros [Hc Ha]%andb_true_iff. apply negb_true_iff in Hc.
  rewrite Hc, (IH Ha). reflexivity.
Qed.

Lemma strtok_r_token w a w' s :
  all_delim w = true -> no_space a = true -> nonempty a = true ->
  all_delim w' = true -> nonempty w' = true ->
  exists w'', all_delim w'' = true /\
              strtok_r (w ++ a ++ w' ++ s) = Some (a, w'' ++ s).
Proof.
  intros Hw Ha Hne Hw' Hne'.
  destruct (split_token_run a w' s (no_space_no_delim _ Ha) Hw' Hne')
    as (w'' & Hw'' & Hsplit).
  exists w''. split; [exact Hw''|]. unfold strtok_r.
  rewrite (skip_delims_run _ _ Hw).
  rewrite skip_delims_stop
    by (apply starts_nonspace_append, no_space_starts; assumption).
  destruct a as [|c a]; [discriminate|].
  rewrite append_cons in Hsplit |- *. cbv iota beta. rewrite Hsplit. reflexivity.
Qed.

Lemma strtok_r_some w s :
  all_delim w = true -> starts_nonspace s = true ->
  exists token saveptr, strtok_r (w ++ s) = Some (token, saveptr).
Proof.
  intros Hw Hs. unfold strtok_r.
  rewrite (skip_delims_run _ _ Hw), (skip_delims_stop _ Hs).
  destruct s as [|c s]; [discriminate|].
  destruct (split_token (String c s)) as [token saveptr]. eauto.
Qed.

(** A line of the shape command, blanks, key, blanks, value has at least
    three tokens, and the first two are the command and the key. *)
Lemma parse_command_set a wa b wb rest :
  no_space a = true -> nonempty a = true ->
  all_delim wa = true -> nonempty wa = true ->
  no_space b = true -> nonempty b = true ->
  all_delim wb = true -> nonempty wb = true ->
  starts_nonspace rest = true ->
  exists token more, parse_command (a ++ wa ++ b ++ wb ++ rest) 10 = a :: b :: token :: more.
Proof.
  intros Ha Hane Hwa Hwane Hb Hbne Hwb Hwbne Hrest.
  destruct (strtok_r_token EmptyString a wa (b ++ wb ++ rest) eq_refl Ha Hane Hwa Hwane)
    as (wa' & Hwa' & Htok1).
  destruct (strtok_r_token wa' b wb rest Hwa' Hb Hbne Hwb Hwbne)
    as (wb' & Hwb' & Htok2).
  destruct (strtok_r_some wb' rest Hwb' Hrest) as (token & saveptr & Htok3).
  exists token, (parse_command saveptr 7).
  rewrite append_nil in Htok1. simpl. rewrite Htok1, Htok2, Htok3. reflexivity.
Qed.

Lemma nonempty_append_l s t : nonempty s = true -> nonempty (s ++ t) = true.
Proof. destruct s; [discriminate | reflexivity]. Qed.

(** *** The SET branch *)

Lemma bind_unfold {A B} (m : Alloc.t A) (k : A -> Alloc.t B) o :
  Alloc.bind m k o = k (fst (m o)) (snd (m o)).
Proof. unfold Alloc.bind. destruct (m o). reflexivity. Qed.

Lemma str_duplicate_granted s o : str_duplicate s (true :: o) = (Some s, o).
Proof. reflexivity. Qed.

Lemma str_duplicate_nil s : str_duplicate s [] = (Some s, []).
Proof. reflexivity. Qed.

Lemma parse_command_empty n : parse_command EmptyString n = [].
Proof. destruct n; reflexivity. Qed.

(** The four skips of the SET branch: the command token, a run of white
    space, the key token, a run of white space. *)
Lemma rescan_rest a wa b wb rest :
  no_space a = true ->
  all_space wa = true -> nonempty wa = true ->
  no_space b = true -> nonempty b = true ->
  all_space wb = true -> nonempty wb = true ->
  starts_nonspace rest = true ->
  skip_space (skip_nonspace (skip_space (skip_nonspace (a ++ wa ++ b ++ wb ++ rest))))
  = rest.
Proof.
  intros Ha Hwa Hwane Hb Hbne Hwb Hwbne Hrest.
  rewrite (skip_nonspace_run _ _ Ha), (skip_nonspace_stop _ _ Hwa Hwane).
  rewrite (skip_space_run _ _ Hwa).
  rewrite (skip_space_stop (b ++ wb ++ rest))
    by (apply starts_nonspace_append, no_space_starts; assumption).
  rewrite (skip_nonspace_run _ _ Hb), (skip_nonspace_stop _ _ Hwb Hwbne).
  rewrite (skip_space_run _ _ Hwb). apply skip_space_stop. exact Hrest.
Qed.

Lemma process_command_set ht command o o1 o2 t0 k t2 more p :
  str_duplicate command o = (Some command, o1) ->
  str_duplicate command o1 = (Some command, o2) ->
  parse_command (trim_whitespace command) 10 = t0 :: k :: t2 :: more ->
  uppercase t0 = "SET" ->
  skip_space (skip_nonspace (skip_space (skip_nonspace (trim_whitespace command)))) = p ->
  nonempty p = true ->
  process_command ht command o = set_and_reply ht k p o2.
Proof.
  intros Hdup1 Hdup2 Htok Hset Hp Hne. unfold process_command.
  rewrite bind_unfold, Hdup1. cbn [fst snd]. cbv zeta.
  assert ((strlen (trim_whitespace command) =? 0)%Z = false) as Hlen.
  { destruct (trim_whitespace command) as [|c trimmed].
    - rewrite parse_command_empty in Htok. discriminate.
    - apply Z.eqb_neq. unfold strlen. simpl. lia. }
  rewrite Hlen, Htok, Hset. cbn [String.eqb Ascii.eqb Bool.eqb].
  rewrite bind_unfold, Hdup2. cbn [fst snd].
  rewrite Hp. destruct p as [|d p]; [discriminate|]. reflexivity.
Qed.

Lemma command_line_body lead a wa b wb rest trail :
  all_space lead = true -> all_space trail = true ->
  no_space a = true -> nonempty a = true ->
  nonempty wa = true -> nonempty b = true -> nonempty wb = true ->
  ends_nonspace rest = true ->
  trim_whitespace (lead ++ a ++ wa ++ b ++ wb ++ rest ++ trail)
  = a ++ wa ++ b ++ wb ++ rest.
Proof.
  intros Hlead Htrail Ha Hane Hwane Hbne Hwbne Hrest.
  rewrite <- (trim_whitespace_body lead (a ++ wa ++ b ++ wb ++ rest) trail Hlead Htrail).
  - rewrite !append_assoc. reflexivity.
  - apply starts_nonspace_append, no_space_starts; assumption.
  - pose proof (ends_nonspace_nonempty _ Hrest) as Hrne.
    rewrite !ends_nonspace_append; auto using nonempty_append_l.
Qed.

Lemma ht_upsert_nil_oracle ht k v : snd (ht_upsert ht k v []) = [].
Proof.
  unfold ht_upsert. cbv zeta. destruct (chain_find k _) as [entry|]; reflexivity.
Qed.

Lemma ht_set_nil_oracle ht k v : snd (ht_set ht k v []) = [].
Proof.
  destruct (Z_le_gt_dec (strlen k) MAX_KEY_SIZE) as [Hk|Hk];
    [destruct (Z_le_gt_dec (strlen v) MAX_VALUE_SIZE) as [Hv|Hv]|].
  2,3: rewrite ht_set_rejects by lia; reflexivity.
  rewrite ht_set_unfold by assumption.
  destruct (load_factor_exceeded ht).
  - rewrite ht_resize_granted_oracle. apply ht_upsert_nil_oracle.
  - apply ht_upsert_nil_oracle.
Qed.

(** ** C6: the value of a SET *)

(** C6. Take a command line made of a command token [a], a run of white
    space [wa], a key token [b], a run of white space [wb] and a remainder
    [rest], with white space [lead] and [trail] around it, and let the
    interpreter's two scratch copies be granted. Whenever the tokenizer
    finds three tokens or more, the first being SET in any case, the store
    is asked to set the tokenizer's second token to [rest]: everything that
    remains of the trimmed line after the command token, the white space,
    the key token and the white space, inner spaces included, and not the
    third token. When the separators are spaces and tabs, the delimiters of
    the tokenizer, that key is [b]. The reply is OK when the store
    succeeds. So 'SET greeting hello world', whose third token is 'hello',
    stores 'hello world' under 'greeting' and is answered with OK. *)
Theorem set_value_is_rest_of_line ht lead a wa b wb rest trail o o1 o2 :
  all_space lead = true -> all_space trail = true ->
  no_space a = true -> nonempty a = true ->
  all_space wa = true -> nonempty wa = true ->
  no_space b = true -> nonempty b = true ->
  all_space wb = true -> nonempty wb = true ->
  starts_nonspace rest = true -> ends_nonspace rest = true ->
  let line := lead ++ a ++ wa ++ b ++ wb ++ rest ++ trail in
  str_duplicate line o = (Some line, o1) ->
  str_duplicate line o1 = (Some line, o2) ->
  (forall t0 k t2 more,
      parse_command (trim_whitespace line) 10 = t0 :: k :: t2 :: more ->
      uppercase t0 = "SET" ->
      process_command ht line o = set_and_reply ht k rest o2) /\
  (uppercase a = "SET" -> all_delim wa = true -> all_delim wb = true ->
   process_command ht line o = set_and_reply ht b rest o2) /\
  parse_command "SET greeting hello world" 10 = ["SET"; "greeting"; "hello"; "world"] /\
  process_command ht "SET greeting hello world" []
  = (Reply (Some "OK") (snd (fst (ht_set ht "greeting" "hello world" []))), []) /\
  (bucket_shape ht ->
   ht_get (snd (fst (ht_set ht "greeting" "hello world" []))) "greeting"
   = Some "hello world").
Proof.
  intros Hlead Htrail Ha Hane Hwa Hwane Hb Hbne Hwb Hwbne Hstart Hend line Hdup1 Hdup2.
  assert (trim_whitespace line = a ++ wa ++ b ++ wb ++ rest) as Htrim
    by (apply command_line_body; assumption).
  assert (skip_space (skip_nonspace (skip_space (skip_nonspace (trim_whitespace line))))
          = rest) as Hrest
    by (rewrite Htrim; apply rescan_rest; assumption).
  pose proof (ends_nonspace_nonempty _ Hend) as Hrne.
  split; [|split; [|split; [|split]]].
  - intros t0 k t2 more Htok Hset.
    apply (process_command_set ht line o o1 o2 t0 k t2 more rest); assumption.
  - intros Hset Hda Hdb.
    destruct (parse_command_set a wa b wb rest) as (t2 & more & Htok); try assumption.
    rewrite <- Htrim in Htok.
    apply (process_command_set ht line o o1 o2 a b t2 more rest); assumption.
  - reflexivity.
  - rewrite (process_command_set ht "SET greeting hello world" [] [] []
               "SET" "greeting" "hello" ["world"] "hello world"
               eq_refl eq_refl eq_refl eq_refl eq_refl eq_refl).
    unfold set_and_reply. rewrite bind_unfold.
    rewrite ht_set_nil_oracle, ht_set_granted by (vm_compute; discriminate).
    change (0 =? 0)%Z with true. cbv iota.
    unfold reply. rewrite bind_unfold, str_duplicate_nil. reflexivity.
  - intros Hs.
    apply ht_set_get;
      [exact Hs | vm_compute; discriminate | vm_compute; discriminate |].
    apply ht_set_granted; vm_compute; discriminate.
Qed.

Lemma set_value_is_rest_of_line_witness :
  process_command default_store "  set  greeting   hello   world  " [true; true]
  = set_and_reply default_store "greeting" "hello   world" [].
Proof.
  refine (proj1 (proj2 (set_value_is_rest_of_line default_store
                          "  " "set" "  " "greeting" "   " "hello   world" "  "
                          [true; true] [true] []
                          _ _ _ _ _ _ _ _ _ _ _ _ _ _)) _ _ _);
    reflexivity.
Defined.

(** ** C10: the reply NULL *)

Lemma append_empty_r (s : string) : s ++ EmptyString = s.
Proof. induction s as [|c s IH]; push_append; [reflexivity | f_equal; exact IH]. Qed.

Lemma skip_delims_token k : no_delim k = true -> skip_delims k = k.
Proof.
  destruct k as [|c k]; simpl; [reflexivity|].
  unfold no_delim; simpl. intros [Hc _]%andb_true_iff.
  apply negb_true_iff in Hc. rewrite Hc. reflexivity.
Qed.

Lemma parse_command_S cmd n :
  parse_command cmd (S n) =
  match strtok_r cmd with
  | None => []
  | Some (token, saveptr) => token :: parse_command saveptr n
  end.
Proof. reflexivity. Qed.

Lemma strtok_r_get k : strtok_r ("GET " ++ k) = Some ("GET", k).
Proof. reflexivity. Qed.

Lemma strtok_r_last k :
  no_delim k = true -> nonempty k = true -> strtok_r k = Some (k, EmptyString).
Proof.
  intros Hk Hne. unfold strtok_r. rewrite (skip_delims_token _ Hk).
  destruct k as [|c k]; [discriminate|]. rewrite (split_token_whole _ Hk). reflexivity.
Qed.

(** The tokens of the line GET, one space, [k]. *)
Lemma parse_command_get k :
  no_delim k = true -> ends_nonspace k = true ->
  trim_whitespace ("GET " ++ k) = "GET " ++ k /\
  parse_command ("GET " ++ k) 10 = ["GET"; k].
Proof.
  intros Hk Hend. pose proof (ends_nonspace_nonempty _ Hend) as Hne. split.
  - pose proof (trim_whitespace_body EmptyString ("GET " ++ k) EmptyString) as Htrim.
    rewrite append_nil, append_empty_r in Htrim. apply Htrim; try reflexivity.
    rewrite ends_nonspace_append by exact Hne. exact Hend.
  - rewrite parse_command_S, strtok_r_get, parse_command_S.
    rewrite (strtok_r_last _ Hk Hne), parse_command_empty. reflexivity.
Qed.

Lemma process_command_get ht command o o1 t0 k more :
  str_duplicate command o = (Some command, o1) ->
  parse_command (trim_whitespace command) 10 = t0 :: k :: more ->
  uppercase t0 = "GET" ->
  process_command ht command o
  = reply ht (match ht_get ht k with Some v => v | None => "NULL" end) o1.
Proof.
  intros Hdup Htok Hget. unfold process_command.
  rewrite bind_unfold, Hdup. cbn [fst snd]. cbv zeta.
  assert ((strlen (trim_whitespace command) =? 0)%Z = false) as Hlen.
  { destruct (trim_whitespace command) as [|c trimmed].
    - rewrite parse_command_empty in Htok. discriminate.
    - apply Z.eqb_neq. unfold strlen. simpl. lia. }
  rewrite Hlen, Htok, Hget. cbn [String.eqb Ascii.eqb Bool.eqb].
  destruct (ht_get ht k); reflexivity.
Qed.

Lemma process_command_no_copy ht command o :
  o = false :: tl o ->
  process_command ht command o = reply ht "ERROR: Memory allocation failed" (tl o).
Proof.
  intros Ho. unfold process_command. rewrite bind_unfold, Ho. reflexivity.
Qed.

(** C10. For a key [k] (a token that ends a line), the reply to GET [k] of
    a store where [k] holds the four bytes NULL and the reply of a store
    where [k] is absent are the same string, whatever the allocator does,
    and that string is NULL when the interpreter gets its memory: the
    protocol cannot tell the two stores apart. *)
Theorem get_reply_null_is_ambiguous ht ht' k o :
  no_delim k = true -> ends_nonspace k = true ->
  ht_get ht k = Some "NULL" -> ht_get ht' k = None ->
  response_of (fst (process_command ht ("GET " ++ k) o))
  = response_of (fst (process_command ht' ("GET " ++ k) o)) /\
  fst (process_command ht ("GET " ++ k) []) = Reply (Some "NULL") ht /\
  fst (process_command ht' ("GET " ++ k) []) = Reply (Some "NULL") ht'.
Proof.
  intros Hk Hend Hnull Habsent.
  destruct (parse_command_get k Hk Hend) as [Htrim Htok].
  rewrite <- Htrim in Htok.
  assert (forall h o0 o1,
             str_duplicate ("GET " ++ k) o0 = (Some ("GET " ++ k), o1) ->
             ht_get h k = Some "NULL" \/ ht_get h k = None ->
             process_command h ("GET " ++ k) o0 = reply h "NULL" o1) as Hreply.
  { intros h o0 o1 Hdup Hcase.
    rewrite (process_command_get h _ o0 o1 "GET" k [] Hdup Htok eq_refl).
    destruct Hcase as [-> | ->]; reflexivity. }
  split; [|split].
  - destruct o as [|[|] o].
    + rewrite !(Hreply _ [] []); auto.
    + rewrite !(Hreply _ (true :: o) o); auto.
      unfold reply. rewrite !bind_unfold. reflexivity.
    + rewrite !process_command_no_copy by reflexivity.
      unfold reply. rewrite !bind_unfold. reflexivity.
  - rewrite (Hreply ht [] []); auto.
  - rewrite (Hreply ht' [] []); auto.
Qed.

Lemma get_reply_null_is_ambiguous_witness :
  fst (process_command store_x_null "GET x" []) = Reply (Some "NULL") store_x_null /\
  fst (process_command default_store "GET x" []) = Reply (Some "NULL") default_store.
Proof.
  refine (proj2 (get_reply_null_is_ambiguous store_x_null default_store "x" []
                   _ _ _ _)); vm_compute; reflexivity.
Defined.

(** * Further properties of the command interpreter *)

(** ** Trimming and tokens *)

Lemma skip_space_split s :
  exists lead,
    all_space lead = true /\ s = lead ++ skip_space s /\
    (skip_space s = EmptyString \/ starts_nonspace (skip_space s) = true).
Proof.
  induction s as [|c s (lead & Hlead & Hs & Hcase)].
  - exists EmptyString. auto.
  - simpl. destruct (isspace c) eqn:Hc.
    + exists (String c lead). unfold all_space in *. simpl. rewrite Hc, Hlead.
      split; [reflexivity|]. split; [|exact Hcase].
      rewrite append_cons. f_equal. exact Hs.
    + exists EmptyString. split; [reflexivity|]. split; [reflexivity|].
      right. simpl. rewrite Hc. reflexivity.
Qed.

Lemma drop_trailing_space_split s :
  exists trail,
    all_space trail = true /\ s = drop_trailing_space s ++ trail /\
    (drop_trailing_space s = EmptyString \/
     ends_nonspace (drop_trailing_space s) = true).
Proof.
  induction s as [|c s (trail & Htrail & Hs & Hcase)].
  - exists EmptyString. auto.
  - simpl. destruct (drop_trailing_space s) as [|d kept] eqn:Hd.
    + rewrite append_nil in Hs. destruct (isspace c) eqn:Hc.
      * exists (String c trail). unfold all_space in *. simpl. rewrite Hc, Htrail.
        split; [reflexivity|]. split; [|auto]. rewrite append_nil, Hs. reflexivity.
      * exists trail. split; [exact Htrail|]. split.
        -- rewrite append_cons, append_nil, Hs. reflexivity.
        -- right. simpl. rewrite Hc. reflexivity.
    + exists trail. split; [exact Htrail|]. split.
      * rewrite append_cons. f_equal. exact Hs.
      * right. destruct Hcase as [?|He]; [discriminate|]. exact He.
Qed.

Lemma all_space_skip s : all_space s = true -> skip_space s = EmptyString.
Proof.
  unfold all_space. induction s as [|c s IH]; simpl; [reflexivity|].
  intros [Hc Hs]%andb_true_iff. rewrite Hc. apply IH. exact Hs.
Qed.

Lemma all_space_append s t :
  all_space (s ++ t) = all_space s && all_space t.
Proof.
  unfold all_space. induction s as [|c s IH]; push_append; simpl; [reflexivity|].
  rewrite IH, andb_assoc. reflexivity.
Qed.

Lemma starts_nonspace_not_all_space s :
  starts_nonspace s = true -> all_space s = false.
Proof.
  destruct s as [|c s]; simpl; [discriminate|].
  unfold all_space; simpl. intros Hc. apply negb_true_iff in Hc. rewrite Hc. reflexivity.
Qed.

(** X14. [trim_whitespace] cuts a run of white space off each end and
    nothing else: the line is white space, the result, white space; the
    result is empty or begins and ends with a byte that is not white space;
    it is empty exactly for a line of white space only; and trimming twice
    is trimming once. *)
Theorem trim_whitespace_cuts_both_ends s :
  (exists lead trail,
      all_space lead = true /\ all_space trail = true /\
      s = lead ++ trim_whitespace s ++ trail) /\
  (trim_whitespace s = EmptyString \/
   (starts_nonspace (trim_whitespace s) = true /\
    ends_nonspace (trim_whitespace s) = true)) /\
  (trim_whitespace s = EmptyString <-> all_space s = true) /\
  trim_whitespace (trim_whitespace s) = trim_whitespace s.
Proof.
  destruct (skip_space_split s) as (lead & Hlead & Hs & Hcase).
  assert (exists trail, all_space trail = true /\
                        skip_space s = trim_whitespace s ++ trail /\
                        (trim_whitespace s = EmptyString \/
                         (starts_nonspace (trim_whitespace s) = true /\
                          ends_nonspace (trim_whitespace s) = true)))
    as (trail & Htrail & Hmid & Hshape).
  { unfold trim_whitespace. destruct (skip_space s) as [|c body] eqn:Hskip.
    - exists EmptyString. auto.
    - destruct Hcase as [?|Hc]; [discriminate|]. simpl in Hc.
      destruct (drop_trailing_space_split body) as (trail & Htrail & Hbody & Hend).
      exists trail. split; [exact Htrail|]. split.
      + rewrite append_cons. f_equal. exact Hbody.
      + right. split; [exact Hc|]. simpl.
        destruct (drop_trailing_space body) as [|d kept]; [exact Hc|].
        destruct Hend as [?|He]; [discriminate | exact He]. }
  split; [|split; [|split]].
  - exists lead, trail. rewrite <- Hmid. auto.
  - exact Hshape.
  - split.
    + intros Hempty. rewrite Hempty, append_nil in Hmid.
      rewrite Hs, Hmid, all_space_append, Hlead, Htrail. reflexivity.
    + intros Hall. unfold trim_whitespace. rewrite (all_space_skip _ Hall). reflexivity.
  - destruct Hshape as [-> | [Hstart Hend]]; [reflexivity|].
    pose proof (trim_whitespace_body EmptyString (trim_whitespace s) EmptyString
                  eq_refl eq_refl Hstart Hend) as Htrim.
    rewrite append_nil, append_empty_r in Htrim. exact Htrim.
Qed.

Lemma split_token_no_delim s : no_delim (fst (split_token s)) = true.
Proof.
  unfold no_delim. induction s as [|c s IH]; simpl; [reflexivity|].
  destruct (is_delim c) eqn:Hc; [reflexivity|].
  destruct (split_token s) as [token rest]. simpl in *. rewrite Hc, IH. reflexivity.
Qed.

Lemma strtok_r_token_shape str token saveptr :
  strtok_r str = Some (token, saveptr) ->
  nonempty token = true /\ no_delim token = true.
Proof.
  unfold strtok_r.
  assert (skip_delims str = EmptyString \/
          exists c s, skip_delims str = String c s /\ is_delim c = false) as Hskip.
  { induction str as [|c s IH]; simpl; [auto|].
    destruct (is_delim c) eqn:Hc; [exact IH | right; eauto]. }
  destruct Hskip as [-> | (c & s & -> & Hc)]; [discriminate|].
  intros Heq.
  assert (split_token (String c s) = (token, saveptr)) as Hsplit
    by (injection Heq; auto).
  pose proof (split_token_no_delim (String c s)) as Hnd.
  rewrite Hsplit in Hnd. split; [|exact Hnd].
  simpl in Hsplit. rewrite Hc in Hsplit.
  destruct (split_token s). injection Hsplit as <- _. reflexivity.
Qed.

(** X15. [parse_command] stores at most [max_tokens] tokens (ten in
    [process_command]), and every token is non-empty and holds neither a
    space nor a tab. *)
Theorem parse_command_tokens cmd max_tokens :
  (length (parse_command cmd max_tokens) <= max_tokens)%nat /\
  Forall (fun token => nonempty token = true /\ no_delim token = true)
         (parse_command cmd max_tokens).
Proof.
  revert cmd. induction max_tokens as [|n IH]; intros cmd; simpl.
  - split; [lia | constructor].
  - destruct (strtok_r cmd) as [[token saveptr]|] eqn:Htok.
    + destruct (IH saveptr) as [Hlen Hall]. split; [simpl; lia|].
      constructor; [|exact Hall]. apply (strtok_r_token_shape _ _ _ Htok).
    + split; [simpl; lia | constructor].
Qed.

(** ** What a command does to the store *)

Lemma str_duplicate_cases s o :
  str_duplicate s o = (Some s, tl o) \/ str_duplicate s o = (None, tl o).
Proof. destruct o as [|[|] o]; auto. Qed.

Lemma reply_fst ht text o :
  fst (reply ht text o) = Reply (fst (str_duplicate text o)) ht.
Proof. unfold reply. rewrite bind_unfold. reflexivity. Qed.

Lemma trimmed_empty_no_token command :
  (strlen (trim_whitespace command) =? 0)%Z = true ->
  parse_command (trim_whitespace command) 10 = [].
Proof.
  destruct (trim_whitespace command) as [|c s]; [reflexivity|].
  intros H. apply Z.eqb_eq in H. unfold strlen in H. simpl in H. lia.
Qed.

(** The store a call leaves: the one it was given, or the one [ht_set] or
    [ht_delete] left; the behaviour is undefined only in the SET branch. *)
Lemma process_command_store ht command o :
  match fst (process_command ht command o) with
  | Undefined => command_name command = "SET"
  | Reply _ ht' =>
      ht' = ht \/
      (command_name command = "SET" /\
       exists k v o1, ht' = snd (fst (ht_set ht k v o1))) \/
      (command_name command = "DEL" /\ exists k, ht' = snd (ht_delete ht k))
  end.
Proof.
  unfold process_command, command_name. rewrite bind_unfold.
  destruct (str_duplicate_cases command o) as [-> | ->]; cbn [fst snd];
    [|rewrite reply_fst; auto].
  cbv zeta.
  destruct (strlen (trim_whitespace command) =? 0)%Z; [rewrite reply_fst; auto|].
  destruct (parse_command (trim_whitespace command) 10) as [|token0 args];
    [rewrite reply_fst; auto|].
  destruct (String.eqb_spec (uppercase token0) "SET") as [Hset|_].
  { destruct args as [|k [|t2 more]]; try (rewrite reply_fst; auto).
    rewrite bind_unfold.
    destruct (str_duplicate_cases command (tl o)) as [-> | ->]; cbn [fst snd];
      [|exact Hset].
    destruct (skip_space _) as [|c p]; [rewrite reply_fst; auto|].
    rewrite bind_unfold.
    destruct (fst (fst (ht_set ht k (String c p) (tl (tl o)))) =? 0)%Z;
      rewrite reply_fst; right; left; eauto. }
  destruct (String.eqb_spec (uppercase token0) "GET") as [_|_].
  { destruct args as [|k more]; [rewrite reply_fst; auto|].
    destruct (ht_get ht k); rewrite reply_fst; auto. }
  destruct (String.eqb_spec (uppercase token0) "DEL") as [Hdel|_].
  { destruct args as [|k more]; [rewrite reply_fst; auto|].
    cbv zeta. destruct (fst (ht_delete ht k) =? 0)%Z;
      rewrite reply_fst; right; right; eauto. }
  destruct (String.eqb_spec (uppercase token0) "STATS") as [_|_].
  { unfold ht_stats. rewrite reply_fst. auto. }
  destruct (String.eqb_spec (uppercase token0) "KEYS") as [_|_].
  { rewrite bind_unfold. destruct (fst (malloc 4096 (tl o))); cbn [negb];
      [|rewrite reply_fst; auto].
    rewrite bind_unfold. destruct (fst (keys_loop _ _ _ _ _)) as [buffer|];
      [simpl; auto | rewrite reply_fst; auto]. }
  destruct (String.eqb_spec (uppercase token0) "PING") as [_|_];
    [rewrite reply_fst; auto|].
  destruct (String.eqb_spec (uppercase token0) "QUIT") as [_|_];
    rewrite reply_fst; auto.
Qed.

(** X16. Only SET and DEL can change the store: whatever else the line
    says (GET, STATS, KEYS, PING, QUIT, an unknown command, nothing at all)
    and whatever the allocator does, [process_command] returns with the
    store it was given. *)
Theorem only_set_and_del_change_the_store ht command o :
  command_name command <> "SET" -> command_name command <> "DEL" ->
  exists response, fst (process_command ht command o) = Reply response ht.
Proof.
  intros Hset Hdel. pose proof (process_command_store ht command o) as Hst.
  destruct (fst (process_command ht command o)) as [response ht'|];
    [|contradiction].
  exists response. destruct Hst as [-> | [[? _] | [? _]]];
    [reflexivity | contradiction | contradiction].
Qed.

Lemma only_set_and_del_change_the_store_witness :
  exists response,
    fst (process_command store_ab "keys" []) = Reply response store_ab.
Proof.
  apply (only_set_and_del_change_the_store store_ab "keys" []);
    vm_compute; discriminate.
Defined.

(** X17. The interpreter keeps the store among the reachable ones: the
    store a call of [process_command] leaves behind, after any line and
    under any behaviour of the allocator, is reachable when the store it
    was given is, so all that holds of reachable stores holds between
    requests. *)
Theorem interpreter_keeps_the_store_reachable n ht command o response ht' :
  reachable n ht ->
  fst (process_command ht command o) = Reply response ht' ->
  reachable n ht'.
Proof.
  intros Hreach Hpc. pose proof (process_command_store ht command o) as Hst.
  rewrite Hpc in Hst.
  destruct Hst as [-> | [(_ & k & v & o1 & ->) | (_ & k & ->)]].
  - exact Hreach.
  - destruct (ht_set ht k v o1) as [[r ht1] o2] eqn:Hset.
    apply (reach_set _ _ _ _ _ _ _ _ Hreach Hset).
  - destruct (ht_delete ht k) as [r ht1] eqn:Hdel.
    apply (reach_delete _ _ _ _ _ Hreach Hdel).
Qed.

Lemma interpreter_keeps_the_store_reachable_witness :
  reachable INITIAL_BUCKETS default_store /\
  reachable INITIAL_BUCKETS store_x_null.
Proof.
  split; [exact default_store_reachable|].
  apply (interpreter_keeps_the_store_reachable INITIAL_BUCKETS default_store
           "SET x NULL" [] (Some "OK") store_x_null default_store_reachable).
  vm_compute. reflexivity.
Defined.

(** X18. A line that is empty or white space only is answered with the
    empty-command error and leaves the store alone; without memory for its
    scratch copy the interpreter reports that instead, and the store is
    untouched all the same. *)
Theorem blank_line_is_an_empty_command ht line o :
  all_space line = true ->
  process_command ht line [] = (Reply (Some "ERROR: Empty command") ht, []) /\
  process_command ht line (true :: o) = reply ht "ERROR: Empty command" o /\
  process_command ht line (false :: o) = reply ht "ERROR: Memory allocation failed" o.
Proof.
  intros Hall.
  assert (trim_whitespace line = EmptyString) as Htrim
    by (unfold trim_whitespace; rewrite (all_space_skip _ Hall); reflexivity).
  unfold process_command. split; [|split].
  - rewrite bind_unfold, str_duplicate_nil. cbn [fst snd]. rewrite Htrim. reflexivity.
  - rewrite bind_unfold, str_duplicate_granted. cbn [fst snd]. rewrite Htrim.
    reflexivity.
  - rewrite bind_unfold. reflexivity.
Qed.

Lemma blank_line_is_an_empty_command_witness :
  process_command store_ab "   " []
  = (Reply (Some "ERROR: Empty command") store_ab, []).
Proof.
  apply (blank_line_is_an_empty_command store_ab "   " []). reflexivity.
Defined.

(** ** Requests and their replies *)

Lemma tokens_trimmed_nonempty command token0 args :
  parse_command (trim_whitespace command) 10 = token0 :: args ->
  (strlen (trim_whitespace command) =? 0)%Z = false.
Proof.
  intros Htok. destruct (strlen (trim_whitespace command) =? 0)%Z eqn:Hlen;
    [|reflexivity].
  rewrite (trimmed_empty_no_token _ Hlen) in Htok. discriminate.
Qed.

(** Enters [process_command] up to the dispatch on the command name. *)
Ltac enter_command Hdup Htok :=
  unfold process_command;
  rewrite bind_unfold, Hdup; cbn [fst snd]; cbv zeta;
  rewrite (tokens_trimmed_nonempty _ _ _ Htok), Htok.

Lemma process_command_del ht command o o1 t0 k more :
  str_duplicate command o = (Some command, o1) ->
  parse_command (trim_whitespace command) 10 = t0 :: k :: more ->
  uppercase t0 = "DEL" ->
  process_command ht command o
  = reply (snd (ht_delete ht k))
          (if (fst (ht_delete ht k) =? 0)%Z then "OK" else "NOT FOUND") o1.
Proof.
  intros Hdup Htok Hdel. enter_command Hdup Htok.
  rewrite Hdel. cbn [String.eqb Ascii.eqb Bool.eqb].
  destruct (fst (ht_delete ht k) =? 0)%Z; reflexivity.
Qed.

Lemma reply_nil ht text : reply ht text [] = (Reply (Some text) ht, []).
Proof. reflexivity. Qed.

Lemma set_and_reply_granted ht k v :
  (strlen k <= MAX_KEY_SIZE)%Z -> (strlen v <= MAX_VALUE_SIZE)%Z ->
  set_and_reply ht k v [] = (Reply (Some "OK") (snd (fst (ht_set ht k v []))), []).
Proof.
  intros Hk Hv. unfold set_and_reply. rewrite bind_unfold.
  rewrite ht_set_nil_oracle, (ht_set_granted ht k v Hk Hv).
  change (0 =? 0)%Z with true. cbv iota. apply reply_nil.
Qed.

Lemma no_space_ends s :
  no_space s = true -> nonempty s = true -> ends_nonspace s = true.
Proof.
  unfold no_space. induction s as [|c s IH]; [discriminate|].
  simpl. intros [Hc Hs]%andb_true_iff _.
  destruct s as [|d s]; [exact Hc|]. apply IH; [exact Hs | reflexivity].
Qed.

Lemma strtok_r_del k : strtok_r ("DEL " ++ k) = Some ("DEL", k).
Proof. reflexivity. Qed.

(** The tokens of the line DEL, one space, [k]. *)
Lemma parse_command_del k :
  no_delim k = true -> ends_nonspace k = true ->
  trim_whitespace ("DEL " ++ k) = "DEL " ++ k /\
  parse_command ("DEL " ++ k) 10 = ["DEL"; k].
Proof.
  intros Hk Hend. pose proof (ends_nonspace_nonempty _ Hend) as Hne. split.
  - pose proof (trim_whitespace_body EmptyString ("DEL " ++ k) EmptyString) as Htrim.
    rewrite append_nil, append_empty_r in Htrim. apply Htrim; try reflexivity.
    rewrite ends_nonspace_append by exact Hne. exact Hend.
  - rewrite parse_command_S, strtok_r_del, parse_command_S.
    rewrite (strtok_r_last _ Hk Hne), parse_command_empty. reflexivity.
Qed.

(** X19. Round trip through the protocol. For a key without white space
    of at most 256 bytes and a value of at most 4096 bytes that neither
    begins nor ends with white space, inner spaces allowed: the line SET,
    key, value is answered with OK, and the line GET, key that follows is
    answered with the value, byte for byte (allocations granted). *)
Theorem set_then_get_over_the_protocol ht k v :
  bucket_shape ht ->
  no_space k = true -> nonempty k = true ->
  starts_nonspace v = true -> ends_nonspace v = true ->
  (strlen k <= 256)%Z -> (strlen v <= 4096)%Z ->
  let ht' := snd (fst (ht_set ht k v [])) in
  process_command ht ("SET " ++ k ++ " " ++ v) [] = (Reply (Some "OK") ht', []) /\
  process_command ht' ("GET " ++ k) [] = (Reply (Some v) ht', []).
Proof.
  intros Hs Hk Hkne Hstart Hend Hklen Hvlen ht'.
  assert (ht_get ht' k = Some v) as Hget.
  { apply ht_set_get; try assumption. apply ht_set_granted; assumption. }
  split.
  - replace ("SET " ++ k ++ " " ++ v)
      with (EmptyString ++ "SET" ++ " " ++ k ++ " " ++ v ++ EmptyString)
      by (rewrite append_empty_r; reflexivity).
    pose proof (command_line_body EmptyString "SET" " " k " " v EmptyString
                  eq_refl eq_refl eq_refl eq_refl eq_refl Hkne eq_refl Hend)
      as Htrim.
    destruct (parse_command_set "SET" " " k " " v eq_refl eq_refl eq_refl eq_refl
                Hk Hkne eq_refl eq_refl Hstart) as (t2 & more & Htok).
    rewrite <- Htrim in Htok.
    rewrite (process_command_set ht _ [] [] [] "SET" k t2 more v
               eq_refl eq_refl Htok eq_refl).
    + apply set_and_reply_granted; assumption.
    + rewrite Htrim. apply rescan_rest; auto.
    + apply (ends_nonspace_nonempty _ Hend).
  - destruct (parse_command_get k (no_space_no_delim _ Hk)
                (no_space_ends _ Hk Hkne)) as [Htrim Htok].
    rewrite <- Htrim in Htok.
    rewrite (process_command_get ht' _ [] [] "GET" k [] eq_refl Htok eq_refl).
    rewrite Hget. apply reply_nil.
Qed.

Lemma set_then_get_over_the_protocol_witness :
  process_command default_store "SET name Bob Smith" []
  = (Reply (Some "OK") (snd (fst (ht_set default_store "name" "Bob Smith" []))), []) /\
  process_command (snd (fst (ht_set default_store "name" "Bob Smith" []))) "GET name" []
  = (Reply (Some "Bob Smith") (snd (fst (ht_set default_store "name" "Bob Smith" []))), []).
Proof.
  apply (set_then_get_over_the_protocol default_store "name" "Bob Smith");
    try reflexivity.
  - unfold bucket_shape. vm_compute. repeat split; reflexivity.
  - vm_compute. discriminate.
  - vm_compute. discriminate.
Defined.

(** X20. DEL over the protocol, on a reachable store and for a key
    without blanks: the reply is OK when the key is there and NOT FOUND when
    it is not; afterwards GET of the key is answered with NULL and a second
    DEL with NOT FOUND, the store being left as the first DEL left it. *)
Theorem del_over_the_protocol n ht k :
  reachable n ht -> no_delim k = true -> ends_nonspace k = true ->
  let ht' := snd (ht_delete ht k) in
  process_command ht ("DEL " ++ k) []
  = (Reply (Some (match ht_get ht k with Some _ => "OK" | None => "NOT FOUND" end)) ht',
     []) /\
  process_command ht' ("GET " ++ k) [] = (Reply (Some "NULL") ht', []) /\
  process_command ht' ("DEL " ++ k) [] = (Reply (Some "NOT FOUND") ht', []).
Proof.
  intros Hreach Hk Hend ht'. pose proof (reachable_wf _ _ Hreach) as Hwf.
  destruct (parse_command_del k Hk Hend) as [Htrim Htok]. rewrite <- Htrim in Htok.
  destruct (parse_command_get k Hk Hend) as [Htrimg Htokg]. rewrite <- Htrimg in Htokg.
  pose proof (ht_delete_gone ht k Hwf) as Hgone. fold ht' in Hgone.
  assert (forall h, process_command h ("DEL " ++ k) []
                    = (Reply (Some (match ht_get h k with
                                    | Some _ => "OK" | None => "NOT FOUND" end))
                             (snd (ht_delete h k)), [])) as Hdel.
  { intros h. rewrite (process_command_del h _ [] [] "DEL" k [] eq_refl Htok eq_refl).
    destruct (ht_delete_result h k) as [Hr _]. rewrite Hr.
    destruct (ht_get h k); apply reply_nil. }
  split; [apply Hdel|]. split.
  - rewrite (process_command_get ht' _ [] [] "GET" k [] eq_refl Htokg eq_refl).
    rewrite Hgone. apply reply_nil.
  - rewrite Hdel, Hgone.
    destruct (ht_delete_result ht' k) as [_ Hsame]. rewrite (Hsame Hgone). reflexivity.
Qed.

Lemma del_over_the_protocol_witness :
  process_command store_ab "DEL a" []
  = (Reply (Some "OK") (snd (ht_delete store_ab "a")), []) /\
  process_command (snd (ht_delete store_ab "a")) "GET a" []
  = (Reply (Some "NULL") (snd (ht_delete store_ab "a")), []).
Proof.
  destruct (del_over_the_protocol INITIAL_BUCKETS store_ab "a" store_ab_reachable
              eq_refl eq_refl) as (Hdel & Hget & _).
  split; [exact Hdel | exact Hget].
Defined.

(** ** Replies of the other commands *)

Lemma command_name_tokens command :
  command_name command <> EmptyString ->
  exists token0 args,
    parse_command (trim_whitespace command) 10 = token0 :: args /\
    uppercase token0 = command_name command.
Proof.
  unfold command_name.
  destruct (parse_command _ _) as [|token0 args]; [congruence | eauto].
Qed.

Lemma substring_0_length n s : (String.length (substring 0 n s) <= n)%nat.
Proof.
  revert s. induction n as [|n IH]; intros [|c s]; simpl; try lia.
  specialize (IH s). lia.
Qed.

Lemma substring_0_short n s :
  (String.length s <= n)%nat -> substring 0 n s = s.
Proof.
  revert s. induction n as [|n IH]; intros [|c s]; simpl; intros Hlen;
    try reflexivity; try lia.
  f_equal. apply IH. lia.
Qed.

Lemma length_append s t :
  String.length (s ++ t) = (String.length s + String.length t)%nat.
Proof.
  induction s as [|c s IH]; push_append; simpl; [reflexivity | rewrite IH; reflexivity].
Qed.

(** X21. A first word that is none of the seven commands is answered
    with the unknown-command error, which quotes the word in upper case,
    and the store is left alone. The reply is cut to the 255 bytes of the
    interpreter's buffer: it is never longer, and it is complete for a word
    of at most 230 bytes. *)
Theorem unknown_command_is_reported ht command :
  command_name command <> "" ->
  command_name command ∉ ["SET"; "GET"; "DEL"; "STATS"; "KEYS"; "PING"; "QUIT"] ->
  let text := "ERROR: Unknown command '" ++ command_name command ++ "'" in
  process_command ht command [] = (Reply (Some (snprintf_256 text)) ht, []) /\
  (strlen (snprintf_256 text) <= 255)%Z /\
  ((strlen (command_name command) <= 230)%Z -> snprintf_256 text = text).
Proof.
  intros Hne Hnot text.
  destruct (command_name_tokens command Hne) as (token0 & args & Htok & Hname).
  split; [|split].
  - enter_command (str_duplicate_nil command) Htok. rewrite Hname. fold text.
    repeat match goal with
    | |- context [String.eqb (command_name command) ?name] =>
        destruct (String.eqb_spec (command_name command) name) as [Heq|_];
        [exfalso; apply Hnot; rewrite Heq, !elem_of_cons; auto 10|]
    end.
    apply reply_nil.
  - unfold snprintf_256, strlen.
    pose proof (substring_0_length 255 text). lia.
  - intros Hlen. unfold snprintf_256. apply substring_0_short.
    unfold text. rewrite !length_append. unfold strlen in Hlen. simpl. lia.
Qed.

Lemma unknown_command_is_reported_witness :
  process_command store_ab "incr a" []
  = (Reply (Some "ERROR: Unknown command 'INCR'") store_ab, []).
Proof.
  refine (proj1 (unknown_command_is_reported store_ab "incr a" _ _)).
  - vm_compute. discriminate.
  - intros Hin. rewrite !elem_of_cons, elem_of_nil in Hin. vm_compute in Hin.
    intuition discriminate.
Defined.

(** The tokens of a line that holds one word. *)
Lemma parse_command_single lead name trail :
  all_space lead = true -> all_space trail = true ->
  no_space name = true -> nonempty name = true ->
  parse_command (trim_whitespace (lead ++ name ++ trail)) 10 = [name].
Proof.
  intros Hlead Htrail Hname Hne.
  rewrite trim_whitespace_body by auto using no_space_starts, no_space_ends.
  rewrite parse_command_S, (strtok_r_last _ (no_space_no_delim _ Hname) Hne).
  rewrite parse_command_empty. reflexivity.
Qed.

(** The tokens of a line that holds two words, one space between them. *)
Lemma parse_command_pair lead name k trail :
  all_space lead = true -> all_space trail = true ->
  no_space name = true -> nonempty name = true ->
  no_space k = true -> nonempty k = true ->
  parse_command (trim_whitespace (lead ++ name ++ " " ++ k ++ trail)) 10 = [name; k].
Proof.
  intros Hlead Htrail Hname Hne Hk Hkne.
  assert (trim_whitespace (lead ++ name ++ " " ++ k ++ trail) = name ++ " " ++ k)
    as ->.
  { replace (lead ++ name ++ " " ++ k ++ trail)
      with (lead ++ (name ++ " " ++ k) ++ trail)
      by (rewrite !append_assoc; reflexivity).
    apply trim_whitespace_body; auto.
    + apply starts_nonspace_append, no_space_starts; assumption.
    + rewrite !ends_nonspace_append by auto using nonempty_append_l.
      apply no_space_ends; assumption. }
  destruct (strtok_r_token EmptyString name " " k eq_refl Hname Hne eq_refl eq_refl)
    as (w & Hw & Htok).
  rewrite append_nil in Htok. rewrite parse_command_S, Htok, parse_command_S.
  assert (strtok_r (w ++ k) = Some (k, EmptyString)) as Hlast.
  { pose proof (strtok_r_last k (no_space_no_delim _ Hk) Hkne) as Hlast.
    unfold strtok_r in *. rewrite (skip_delims_run _ _ Hw). exact Hlast. }
  rewrite Hlast, parse_command_empty. reflexivity.
Qed.

(** X22. Missing arguments are reported and change nothing: GET or DEL
    alone on the line is answered with its requires-a-key error, SET alone
    or SET with a key and no value with the requires-key-and-value error,
    in any mix of upper and lower case, and the store is the one given. *)
Theorem missing_arguments_are_reported ht lead name trail :
  all_space lead = true -> all_space trail = true ->
  no_space name = true -> nonempty name = true ->
  (uppercase name = "GET" ->
   process_command ht (lead ++ name ++ trail) []
   = (Reply (Some "ERROR: GET requires a key") ht, [])) /\
  (uppercase name = "DEL" ->
   process_command ht (lead ++ name ++ trail) []
   = (Reply (Some "ERROR: DEL requires a key") ht, [])) /\
  (uppercase name = "SET" ->
   process_command ht (lead ++ name ++ trail) []
   = (Reply (Some "ERROR: SET requires key and value") ht, []) /\
   forall k, no_space k = true -> nonempty k = true ->
     process_command ht (lead ++ name ++ " " ++ k ++ trail) []
     = (Reply (Some "ERROR: SET requires key and value") ht, [])).
Proof.
  intros Hlead Htrail Hname Hne.
  pose proof (parse_command_single lead name trail Hlead Htrail Hname Hne) as Htok.
  split; [|split; [|intros Hup0; split; revert Hup0]].
  - intros Hup. enter_command (str_duplicate_nil (lead ++ name ++ trail)) Htok.
    rewrite Hup. reflexivity.
  - intros Hup. enter_command (str_duplicate_nil (lead ++ name ++ trail)) Htok.
    rewrite Hup. reflexivity.
  - intros Hup. enter_command (str_duplicate_nil (lead ++ name ++ trail)) Htok.
    rewrite Hup. reflexivity.
  - intros Hup k Hk Hkne.
    pose proof (parse_command_pair lead name k trail Hlead Htrail Hname Hne Hk Hkne)
      as Htok2.
    enter_command (str_duplicate_nil (lead ++ name ++ " " ++ k ++ trail)) Htok2.
    rewrite Hup. reflexivity.
Qed.

Lemma missing_arguments_are_reported_witness :
  process_command store_ab " get  " []
  = (Reply (Some "ERROR: GET requires a key") store_ab, []).
Proof.
  exact (proj1 (missing_arguments_are_reported store_ab " " "get" "  "
                  eq_refl eq_refl eq_refl eq_refl) eq_refl).
Defined.

(** *** KEYS *)

Lemma keys_loop_granted entries buffer buffer_size first :
  keys_loop entries buffer buffer_size first []
  = (Some (buffer ++ quoted_keys first entries), []).
Proof.
  revert buffer buffer_size first.
  induction entries as [|entry next IH]; intros buffer buffer_size first.
  - simpl. rewrite append_empty_r. reflexivity.
  - cbn [keys_loop quoted_keys]. cbv zeta. rewrite bind_unfold.
    destruct (sub64 buffer_size 2 <=? add64 (strlen buffer) (add64 (strlen (key entry)) 5))%Z;
      cbn [fst snd Alloc.ret Alloc.bind Alloc.request realloc]; rewrite IH;
      destruct first; rewrite ?append_nil, !append_assoc; reflexivity.
Qed.

(** X23. KEYS lists the store: with its memory granted the reply is the
    keys of the entries, bucket after bucket, each between double quotes,
    separated by commas and enclosed in brackets, and the store is left
    alone. In a reachable store these keys are pairwise different and are
    exactly the keys that [ht_get] finds. *)
Theorem keys_lists_every_key n ht command :
  reachable n ht -> command_name command = "KEYS" ->
  process_command ht command []
  = (Reply (Some ("[" ++ quoted_keys true (all_entries ht) ++ "]")) ht, []) /\
  NoDup (key <$> all_entries ht) /\
  forall k, k ∈ key <$> all_entries ht <-> ht_get ht k <> None.
Proof.
  intros Hreach Hkeys. pose proof (reachable_wf _ _ Hreach) as Hwf.
  split; [|split].
  - destruct (command_name_tokens command) as (token0 & args & Htok & Hname);
      [rewrite Hkeys; discriminate|].
    rewrite Hkeys in Hname.
    enter_command (str_duplicate_nil command) Htok.
    rewrite Hname. cbn [String.eqb Ascii.eqb Bool.eqb].
    rewrite bind_unfold. cbn [malloc Alloc.request fst snd negb].
    rewrite bind_unfold, keys_loop_granted. cbn [fst snd].
    unfold all_entries. rewrite append_assoc. reflexivity.
  - apply (wf_unique _ Hwf).
  - intros k. pose proof (ht_get_None ht k Hwf) as Hnone. split.
    + intros Hin Hg. apply Hnone in Hg. contradiction.
    + intros Hg. destruct (decide (k ∈ key <$> all_entries ht)) as [Hin|Hout];
        [exact Hin|]. apply Hnone in Hout. contradiction.
Qed.

Lemma keys_lists_every_key_witness :
  process_command store_ab "keys" []
  = (Reply (Some ("[" ++ dquote ++ "a" ++ dquote ++ "]")) store_ab, []).
Proof.
  exact (proj1 (keys_lists_every_key INITIAL_BUCKETS store_ab "keys"
                  store_ab_reachable eq_refl)).
Defined.

(** With its memory granted the interpreter answers every line. *)
Lemma process_command_granted ht command :
  exists response ht',
    process_command ht command [] = (Reply (Some response) ht', []).
Proof.
  unfold process_command. rewrite bind_unfold, str_duplicate_nil.
  cbn [fst snd]. cbv zeta.
  destruct (strlen (trim_whitespace command) =? 0)%Z; [rewrite reply_nil; eauto|].
  destruct (parse_command (trim_whitespace command) 10) as [|token0 args];
    [rewrite reply_nil; eauto|].
  destruct (String.eqb (uppercase token0) "SET").
  { destruct args as [|k [|t2 more]]; try (rewrite reply_nil; eauto).
    rewrite bind_unfold, str_duplicate_nil. cbn [fst snd].
    destruct (skip_space _) as [|c p]; [rewrite reply_nil; eauto|].
    rewrite bind_unfold, ht_set_nil_oracle.
    destruct (fst (fst (ht_set ht k (String c p) [])) =? 0)%Z;
      rewrite reply_nil; eauto. }
  destruct (String.eqb (uppercase token0) "GET").
  { destruct args as [|k more]; [rewrite reply_nil; eauto|].
    destruct (ht_get ht k); rewrite reply_nil; eauto. }
  destruct (String.eqb (uppercase token0) "DEL").
  { destruct args as [|k more]; [rewrite reply_nil; eauto|].
    cbv zeta. destruct (fst (ht_delete ht k) =? 0)%Z; rewrite reply_nil; eauto. }
  destruct (String.eqb (uppercase token0) "STATS").
  { unfold ht_stats. rewrite reply_nil. eauto. }
  destruct (String.eqb (uppercase token0) "KEYS").
  { rewrite bind_unfold. cbn [malloc Alloc.request fst snd negb].
    rewrite bind_unfold, keys_loop_granted. cbn [fst snd]. unfold Alloc.ret. eauto. }
  destruct (String.eqb (uppercase token0) "PING"); [rewrite reply_nil; eauto|].
  destruct (String.eqb (uppercase token0) "QUIT"); rewrite reply_nil; eauto.
Qed.

(** ** Connections *)

Lemma process_command_reaches n ht command o :
  reachable n ht ->
  match fst (process_command ht command o) with
  | Reply _ ht' => reachable n ht'
  | Undefined => True
  end.
Proof.
  intros Hreach. pose proof (process_command_store ht command o) as Hst.
  destruct (fst (process_command ht command o)) as [response ht'|]; [|exact I].
  destruct Hst as [-> | [(_ & k & v & o1 & ->) | (_ & k & ->)]].
  - exact Hreach.
  - destruct (ht_set ht k v o1) as [[r ht1] o2] eqn:Hset.
    apply (reach_set _ _ _ _ _ _ _ _ Hreach Hset).
  - destruct (ht_delete ht k) as [r ht1] eqn:Hdel.
    apply (reach_delete _ _ _ _ _ Hreach Hdel).
Qed.

(** One turn of the loop on a request. *)
Lemma client_loop_received ht bytes turns sent o :
  (strlen bytes =? 0)%Z = false ->
  client_loop ht (Received bytes :: turns) sent o
  = let o1 := snd (process_command ht (c_string bytes) o) in
    match fst (process_command ht (c_string bytes) o) with
    | Undefined => (UndefinedConnection, o1)
    | Reply None ht' => client_loop ht' turns sent o1
    | Reply (Some response) ht' =>
        let sent' := if fst (Alloc.request o1)
                     then (sent ++ [(response ++ newline)%string])%list else sent in
        if String.eqb response "BYE" then (Connection sent' ht' true, snd (Alloc.request o1))
        else client_loop ht' turns sent' (snd (Alloc.request o1))
    end.
Proof.
  intros Hlen. cbn [client_loop]. rewrite Hlen, bind_unfold. cbv zeta.
  destruct (fst (process_command ht (c_string bytes) o)) as [[response|] ht'|];
    try reflexivity.
  rewrite bind_unfold. unfold malloc.
  destruct (String.eqb response "BYE"); reflexivity.
Qed.

Lemma client_loop_closed ht bytes turns sent o :
  (strlen bytes =? 0)%Z = true ->
  client_loop ht (Received bytes :: turns) sent o = (Connection sent ht true, o).
Proof. intros Hlen. cbn [client_loop]. rewrite Hlen. reflexivity. Qed.

Lemma client_loop_reachable n turns :
  forall ht sent o,
    reachable n ht ->
    match fst (client_loop ht turns sent o) with
    | Connection _ ht' _ => reachable n ht'
    | UndefinedConnection => True
    end.
Proof.
  induction turns as [|t turns IH]; intros ht sent o Hreach; [exact Hreach|].
  destruct t as [| | |bytes]; try exact Hreach; [apply IH; exact Hreach|].
  destruct (strlen bytes =? 0)%Z eqn:Hlen.
  - rewrite client_loop_closed by exact Hlen. exact Hreach.
  - rewrite client_loop_received by exact Hlen. cbv zeta.
    pose proof (process_command_reaches n ht (c_string bytes) o Hreach) as Hpc.
    destruct (fst (process_command ht (c_string bytes) o)) as [[response|] ht'|];
      [|apply IH; exact Hpc|exact I].
    destruct (String.eqb response "BYE"); [exact Hpc | apply IH; exact Hpc].
Qed.

(** X24. A connection keeps the store among the reachable ones: whatever
    the client sends, however [recv] fails and whatever the allocator does,
    the store that [handle_client] leaves when the connection ends, or has
    at any point where it waits for input, is reachable when the store it
    started with is; so every property of reachable stores holds for the
    next client. *)
Theorem connection_keeps_the_store_reachable n ht turns o sent ht' closed :
  reachable n ht ->
  fst (handle_client ht turns o) = Connection sent ht' closed ->
  reachable n ht'.
Proof.
  intros Hreach Hconn.
  pose proof (client_loop_reachable n turns ht [] o Hreach) as Hloop.
  unfold handle_client in Hconn. rewrite Hconn in Hloop. exact Hloop.
Qed.

Lemma connection_keeps_the_store_reachable_witness :
  reachable INITIAL_BUCKETS
    (snd (fst (ht_set (snd (ht_delete default_store "y")) "x" "NULL" []))).
Proof.
  apply (connection_keeps_the_store_reachable INITIAL_BUCKETS default_store
           [Received "DEL y"; Interrupted; Received "SET x NULL"; Received "QUIT";
            Received "SET z 1"] []
           ["NOT FOUND" ++ newline; "OK" ++ newline; "BYE" ++ newline] _ true
           default_store_reachable).
  vm_compute. reflexivity.
Defined.

Lemma client_loop_app turns more :
  forall ht sent o,
    client_loop ht (turns ++ more) sent o
    = match client_loop ht turns sent o with
      | (Connection sent' ht' false, o') => client_loop ht' more sent' o'
      | ended => ended
      end.
Proof.
  induction turns as [|t turns IH]; intros ht sent o; [reflexivity|].
  rewrite <- app_comm_cons.
  destruct t as [| | |bytes]; try reflexivity; [apply IH|].
  destruct (strlen bytes =? 0)%Z eqn:Hlen.
  - rewrite !client_loop_closed by exact Hlen. reflexivity.
  - rewrite !client_loop_received by exact Hlen. cbv zeta.
    destruct (fst (process_command ht (c_string bytes) o)) as [[response|] ht'|];
      [|apply IH|reflexivity].
    destruct (String.eqb response "BYE"); [reflexivity | apply IH].
Qed.

Lemma all_chars_append p s t :
  all_chars p (s ++ t) = all_chars p s && all_chars p t.
Proof.
  induction s as [|c s IH]; push_append; simpl; [reflexivity|].
  rewrite IH, andb_assoc. reflexivity.
Qed.

Lemma c_string_no_nul s : no_nul s = true -> c_string s = s.
Proof.
  unfold no_nul. induction s as [|c s IH]; simpl; [reflexivity|].
  intros [Hc Hs]%andb_true_iff. apply negb_true_iff in Hc.
  rewrite Hc, (IH Hs). reflexivity.
Qed.

Lemma nonempty_strlen s : nonempty s = true -> (strlen s =? 0)%Z = false.
Proof.
  destruct s as [|c s]; [discriminate|]. intros _.
  apply Z.eqb_neq. unfold strlen. simpl. lia.
Qed.

(** A request answered with [response] while memory is granted. *)
Lemma client_loop_granted_reply ht bytes turns sent response ht' :
  nonempty bytes = true ->
  process_command ht (c_string bytes) [] = (Reply (Some response) ht', []) ->
  client_loop ht (Received bytes :: turns) sent []
  = if String.eqb response "BYE"
    then (Connection (sent ++ [(response ++ newline)%string])%list ht' true, [])
    else client_loop ht' turns (sent ++ [(response ++ newline)%string])%list [].
Proof.
  intros Hne Hpc. rewrite client_loop_received by (apply nonempty_strlen, Hne).
  rewrite Hpc. reflexivity.
Qed.

(** X25. What ends a connection and what does not. After any input that
    has left the connection open: shutdown ([g_running] cleared), an error
    of [recv] other than an interruption, and the peer's close each end the
    loop of [handle_client] at once, with nothing more sent, the store as
    it was, and whatever input follows unread; an interrupted [recv] is
    retried as if it had not happened; and a request is handed to
    [process_command] on the store the earlier requests left, its reply is
    sent after theirs with one newline, and the loop ends after it exactly
    when the reply is BYE (memory granted). *)
Theorem connection_is_served_in_order ht turns more o sent ht' o' :
  handle_client ht turns o = (Connection sent ht' false, o') ->
  (forall ending, ending ∈ [Stopped; Failed; Received ""] ->
     handle_client ht (turns ++ ending :: more) o = (Connection sent ht' true, o')) /\
  handle_client ht (turns ++ Interrupted :: more) o
  = handle_client ht (turns ++ more) o /\
  (forall bytes, nonempty bytes = true -> o' = [] ->
     exists response ht1,
       process_command ht' (c_string bytes) [] = (Reply (Some response) ht1, []) /\
       handle_client ht (turns ++ Received bytes :: more) o
       = if String.eqb response "BYE"
         then (Connection (sent ++ [(response ++ newline)%string])%list ht1 true, [])
         else client_loop ht1 more (sent ++ [(response ++ newline)%string])%list []).
Proof.
  unfold handle_client. intros Hopen. split; [|split].
  - intros ending Hin. rewrite client_loop_app, Hopen.
    rewrite !elem_of_cons, elem_of_nil in Hin.
    destruct Hin as [->|[->|[->|[]]]]; reflexivity.
  - rewrite !client_loop_app, Hopen. reflexivity.
  - intros bytes Hne ->.
    destruct (process_command_granted ht' (c_string bytes)) as (response & ht1 & Hpc).
    exists response, ht1. split; [exact Hpc|].
    rewrite client_loop_app, Hopen.
    apply client_loop_granted_reply; assumption.
Qed.

Lemma connection_is_served_in_order_witness :
  handle_client default_store ([Received "SET x 1"] ++ Failed :: [Received "GET x"]) []
  = (Connection ["OK" ++ newline] (snd (fst (ht_set default_store "x" "1" []))) true,
     []).
Proof.
  refine (proj1 (connection_is_served_in_order default_store [Received "SET x 1"]
                   [Received "GET x"] [] ["OK" ++ newline]
                   (snd (fst (ht_set default_store "x" "1" []))) [] _) Failed _).
  - vm_compute. reflexivity.
  - rewrite !elem_of_cons. auto.
Defined.

(** The reply to GET and a key, with white space after it. *)
Lemma get_line_granted ht k trail :
  no_space k = true -> nonempty k = true -> all_space trail = true ->
  process_command ht ("GET " ++ k ++ trail) []
  = (Reply (Some (match ht_get ht k with Some v => v | None => "NULL" end)) ht, []).
Proof.
  intros Hk Hkne Htrail.
  pose proof (parse_command_pair EmptyString "GET" k trail eq_refl Htrail
                eq_refl eq_refl Hk Hkne) as Htok.
  rewrite append_nil in Htok. change ("GET" ++ " " ++ k ++ trail)
    with ("GET " ++ k ++ trail) in Htok.
  rewrite (process_command_get ht _ [] [] "GET" k [] eq_refl Htok eq_refl).
  apply reply_nil.
Qed.

(** The reply to SET, a key and a value, with white space after them. *)
Lemma set_line_granted ht k v trail :
  no_space k = true -> nonempty k = true ->
  starts_nonspace v = true -> ends_nonspace v = true ->
  (strlen k <= 256)%Z -> (strlen v <= 4096)%Z -> all_space trail = true ->
  process_command ht ("SET " ++ k ++ " " ++ v ++ trail) []
  = (Reply (Some "OK") (snd (fst (ht_set ht k v []))), []).
Proof.
  intros Hk Hkne Hstart Hend Hklen Hvlen Htrail.
  pose proof (command_line_body EmptyString "SET" " " k " " v trail
                eq_refl Htrail eq_refl eq_refl eq_refl Hkne eq_refl Hend) as Htrim.
  rewrite append_nil in Htrim.
  change ("SET" ++ " " ++ k ++ " " ++ v ++ trail)
    with ("SET " ++ k ++ " " ++ v ++ trail) in Htrim.
  destruct (parse_command_set "SET" " " k " " v eq_refl eq_refl eq_refl eq_refl
              Hk Hkne eq_refl eq_refl Hstart) as (t2 & more & Htok).
  rewrite <- Htrim in Htok.
  rewrite (process_command_set ht _ [] [] [] "SET" k t2 more v
             eq_refl eq_refl Htok eq_refl).
  - apply set_and_reply_granted; assumption.
  - rewrite Htrim. apply rescan_rest; auto.
  - apply (ends_nonspace_nonempty _ Hend).
Qed.

(** X26. The reply BYE ends the connection, whatever produced it: QUIT
    does, and so does GET of a key whose value is the three bytes BYE. The
    reply is sent and nothing that follows is read. GET of any other value
    sends the value and goes on with the next input. *)
Theorem bye_reply_closes_the_connection ht k rest :
  no_space k = true -> nonempty k = true -> no_nul k = true ->
  handle_client ht (Received "QUIT" :: rest) []
  = (Connection ["BYE" ++ newline] ht true, []) /\
  (ht_get ht k = Some "BYE" ->
   handle_client ht (Received ("GET " ++ k) :: rest) []
   = (Connection ["BYE" ++ newline] ht true, [])) /\
  (forall v, ht_get ht k = Some v -> v <> "BYE" ->
   handle_client ht (Received ("GET " ++ k) :: rest) []
   = client_loop ht rest [v ++ newline] []).
Proof.
  intros Hk Hkne Hnul.
  assert (c_string ("GET " ++ k) = "GET " ++ k) as Hline.
  { apply c_string_no_nul. unfold no_nul. rewrite all_chars_append.
    exact Hnul. }
  assert (forall v, ht_get ht k = Some v ->
            process_command ht (c_string ("GET " ++ k)) [] = (Reply (Some v) ht, []))
    as Hget.
  { intros v Hv. rewrite Hline.
    pose proof (get_line_granted ht k EmptyString Hk Hkne eq_refl) as Hpc.
    rewrite append_empty_r, Hv in Hpc. exact Hpc. }
  unfold handle_client. split; [|split].
  - rewrite (client_loop_granted_reply ht "QUIT" rest [] "BYE" ht eq_refl);
      [reflexivity|].
    change (c_string "QUIT") with (EmptyString ++ "QUIT" ++ EmptyString).
    pose proof (parse_command_single EmptyString "QUIT" EmptyString
                  eq_refl eq_refl eq_refl eq_refl) as Htok.
    enter_command (str_duplicate_nil (EmptyString ++ "QUIT" ++ EmptyString)) Htok.
    reflexivity.
  - intros Hv.
    rewrite (client_loop_granted_reply ht ("GET " ++ k) rest [] "BYE" ht eq_refl
               (Hget _ Hv)).
    reflexivity.
  - intros v Hv Hnot.
    rewrite (client_loop_granted_reply ht ("GET " ++ k) rest [] v ht eq_refl
               (Hget _ Hv)).
    apply String.eqb_neq in Hnot. rewrite Hnot. reflexivity.
Qed.

Lemma bye_reply_closes_the_connection_witness :
  handle_client (snd (fst (ht_set default_store "x" "BYE" [])))
    [Received "GET x"; Received "SET x 1"] []
  = (Connection ["BYE" ++ newline] (snd (fst (ht_set default_store "x" "BYE" []))) true,
     []).
Proof.
  exact (proj1 (proj2 (bye_reply_closes_the_connection
                         (snd (fst (ht_set default_store "x" "BYE" []))) "x"
                         [Received "SET x 1"] eq_refl eq_refl eq_refl))
           ltac:(vm_compute; reflexivity)).
Defined.

(** X27. SET and GET over a connection, as a terminal sends them. For a
    key without white space of at most 256 bytes and a value of at most
    4096 bytes that neither begins nor ends with white space and is not
    BYE (no NUL in either), each line ended by any white space, a carriage
    return and a line feed say: the client is sent OK and then the value,
    each followed by one newline, and the connection stays open
    (allocations granted). *)
Theorem set_then_get_over_a_connection ht k v trail :
  bucket_shape ht ->
  no_space k = true -> nonempty k = true -> no_nul k = true ->
  starts_nonspace v = true -> ends_nonspace v = true -> no_nul v = true ->
  (strlen k <= 256)%Z -> (strlen v <= 4096)%Z -> v <> "BYE" ->
  all_space trail = true -> no_nul trail = true ->
  handle_client ht [Received ("SET " ++ k ++ " " ++ v ++ trail);
                    Received ("GET " ++ k ++ trail)] []
  = (Connection ["OK" ++ newline; v ++ newline] (snd (fst (ht_set ht k v []))) false,
     []).
Proof.
  intros Hs Hk Hkne Hknul Hstart Hend Hvnul Hklen Hvlen Hnot Htrail Htnul.
  assert (ht_get (snd (fst (ht_set ht k v []))) k = Some v) as Hget.
  { apply ht_set_get; try assumption. apply ht_set_granted; assumption. }
  assert (c_string ("SET " ++ k ++ " " ++ v ++ trail) = "SET " ++ k ++ " " ++ v ++ trail)
    as Hline1.
  { apply c_string_no_nul. unfold no_nul in *.
    rewrite !all_chars_append, Hknul, Hvnul, Htnul. reflexivity. }
  assert (c_string ("GET " ++ k ++ trail) = "GET " ++ k ++ trail) as Hline2.
  { apply c_string_no_nul. unfold no_nul in *.
    rewrite !all_chars_append, Hknul, Htnul. reflexivity. }
  unfold handle_client.
  rewrite (client_loop_granted_reply ht ("SET " ++ k ++ " " ++ v ++ trail) _ [] "OK"
             (snd (fst (ht_set ht k v []))) eq_refl)
    by (rewrite Hline1; apply set_line_granted; assumption).
  change (String.eqb "OK" "BYE") with false. cbv iota.
  rewrite (client_loop_granted_reply _ ("GET " ++ k ++ trail) _ _ v
             (snd (fst (ht_set ht k v []))) eq_refl)
    by (rewrite Hline2, get_line_granted, Hget by assumption; reflexivity).
  apply String.eqb_neq in Hnot. rewrite Hnot. reflexivity.
Qed.

Lemma set_then_get_over_a_connection_witness :
  handle_client default_store
    [Received ("SET name Bob Smith" ++ crlf); Received ("GET name" ++ crlf)] []
  = (Connection ["OK" ++ newline; "Bob Smith" ++ newline]
       (snd (fst (ht_set default_store "name" "Bob Smith" []))) false, []).
Proof.
  apply (set_then_get_over_a_connection default_store "name" "Bob Smith" crlf);
    try reflexivity.
  - unfold bucket_shape. vm_compute. repeat split; reflexivity.
  - vm_compute. discriminate.
  - vm_compute. discriminate.
  - discriminate.
Defined.

Lemma client_loop_granted turns :
  forall ht sent,
  exists sent' ht' closed,
    client_loop ht turns sent [] = (Connection (sent ++ sent')%list ht' closed, []) /\
    (length sent' <= requests turns)%nat /\
    (closed = false -> length sent' = requests turns) /\
    Forall (fun message => exists response, message = response ++ newline) sent'.
Proof.
  unfold requests.
  induction turns as [|t turns IH]; intros ht sent.
  - exists [], ht, false. rewrite app_nil_r. auto.
  - destruct t as [| | |bytes].
    + exists [], ht, true. rewrite app_nil_r. cbn. split; [reflexivity|].
      split; [lia|]. split; [discriminate | constructor].
    + apply IH.
    + exists [], ht, true. rewrite app_nil_r. cbn. split; [reflexivity|].
      split; [lia|]. split; [discriminate | constructor].
    + cbn [List.filter is_request].
      destruct (strlen bytes =? 0)%Z eqn:Hlen.
      * exists [], ht, true. rewrite app_nil_r, client_loop_closed by exact Hlen.
        cbn. split; [reflexivity|]. split; [lia|]. split; [discriminate | constructor].
      * destruct (process_command_granted ht (c_string bytes)) as (response & ht1 & Hpc).
        rewrite client_loop_received by exact Hlen. rewrite Hpc.
        cbn [fst snd Alloc.request negb length]. cbv zeta.
        destruct (String.eqb response "BYE").
        -- exists [response ++ newline], ht1, true. split; [reflexivity|].
           split; [simpl; lia|]. split; [discriminate|]. repeat constructor. eauto.
        -- destruct (IH ht1 (sent ++ [(response ++ newline)%string])%list)
             as (sent' & ht' & closed & Hloop & Hle & Heq & Hall).
           exists ((response ++ newline) :: sent'), ht', closed.
           rewrite Hloop, <- app_assoc. split; [reflexivity|].
           split; [simpl; lia|]. split; [intros Hc; simpl; rewrite (Heq Hc); reflexivity|].
           constructor; eauto.
Qed.

(** X28. With its memory granted the server answers every request. The
    interpreter returns a string for every line, never a null pointer, and
    its behaviour is defined; so a connection sends one message for each
    request it reads, the reply and one newline: no more messages than
    requests, and as many as requests while the connection is open. *)
Theorem granted_memory_answers_every_request ht :
  (forall command, exists response ht',
      process_command ht command [] = (Reply (Some response) ht', [])) /\
  (forall turns, exists sent ht' closed,
      handle_client ht turns [] = (Connection sent ht' closed, []) /\
      (length sent <= requests turns)%nat /\
      (closed = false -> length sent = requests turns) /\
      Forall (fun message => exists response, message = response ++ newline) sent).
Proof.
  split; [apply process_command_granted|].
  intros turns. apply (client_loop_granted turns ht []).
Qed.

(** ** Undefined behaviour *)

Lemma str_duplicate_refused s o : str_duplicate s (false :: o) = (None, o).
Proof. reflexivity. Qed.

Lemma undefined_cause ht command o :
  fst (process_command ht command o) = Undefined ->
  command_name command = "SET" /\
  (3 <= length (parse_command (trim_whitespace command) 10))%nat /\
  exists o', o = true :: false :: o'.
Proof.
  intros Hu. pose proof (process_command_store ht command o) as Hst.
  rewrite Hu in Hst. split; [exact Hst|].
  unfold command_name in Hst.
  destruct (parse_command (trim_whitespace command) 10) as [|token0 args] eqn:Htok;
    [discriminate|].
  revert Hu. unfold process_command. rewrite bind_unfold.
  destruct o as [|[|] o1];
    [rewrite str_duplicate_nil | rewrite str_duplicate_granted
    | rewrite str_duplicate_refused];
    cbn [fst snd]; cbv zeta; [| |rewrite reply_fst; discriminate].
  - rewrite (tokens_trimmed_nonempty _ _ _ Htok), Htok, Hst.
    cbn [String.eqb Ascii.eqb Bool.eqb].
    destruct args as [|k [|t2 more]]; try (rewrite reply_fst; discriminate).
    rewrite bind_unfold, str_duplicate_nil. cbn [fst snd].
    destruct (skip_space _) as [|c p]; [rewrite reply_fst; discriminate|].
    rewrite bind_unfold.
    destruct (fst (fst (ht_set ht k (String c p) [])) =? 0)%Z;
      rewrite reply_fst; discriminate.
  - rewrite (tokens_trimmed_nonempty _ _ _ Htok), Htok, Hst.
    cbn [String.eqb Ascii.eqb Bool.eqb].
    destruct args as [|k [|t2 more]]; try (rewrite reply_fst; discriminate).
    rewrite bind_unfold.
    destruct o1 as [|[|] o2];
      [rewrite str_duplicate_nil | rewrite str_duplicate_granted
      | rewrite str_duplicate_refused]; cbn [fst snd].
    + destruct (skip_space _) as [|c p]; [rewrite reply_fst; discriminate|].
      rewrite bind_unfold.
      destruct (fst (fst (ht_set ht k (String c p) [])) =? 0)%Z;
        rewrite reply_fst; discriminate.
    + destruct (skip_space _) as [|c p]; [rewrite reply_fst; discriminate|].
      rewrite bind_unfold.
      destruct (fst (fst (ht_set ht k (String c p) o2)) =? 0)%Z;
        rewrite reply_fst; discriminate.
    + intros _. split; [simpl; lia | eauto].
Qed.

(** X29. The behaviour of the interpreter is undefined in one case only:
    a SET with a key and a value whose scratch copy was granted and whose
    second copy of the line, which [trim_whitespace] reads without a check,
    was refused. Every other line, and every other behaviour of the
    allocator, gets a reply or a null result. *)
Theorem undefined_only_without_the_second_copy ht command o :
  fst (process_command ht command o) = Undefined <->
  (command_name command = "SET" /\
   (3 <= length (parse_command (trim_whitespace command) 10))%nat /\
   exists o', o = true :: false :: o').
Proof.
  split; [apply undefined_cause|].
  intros (Hset & Hlen & o' & ->). unfold command_name in Hset.
  destruct (parse_command (trim_whitespace command) 10)
    as [|token0 [|k [|t2 more]]] eqn:Htok; try (simpl in Hlen; lia).
  enter_command (str_duplicate_granted command (false :: o')) Htok.
  rewrite Hset. cbn [String.eqb Ascii.eqb Bool.eqb].
  rewrite bind_unfold, str_duplicate_refused. reflexivity.
Qed.

(** ** STATS *)

Lemma string_of_uint_length d :
  String.length (NilZero.string_of_uint d) = Nat.max 1 (Decimal.nb_digits d).
Proof.
  assert (forall u, String.length (NilEmpty.string_of_uint u) = Decimal.nb_digits u)
    as Hlen by (intros u; induction u; simpl; congruence).
  destruct d; try reflexivity; unfold NilZero.string_of_uint; rewrite Hlen; simpl; lia.
Qed.

Lemma to_lu_small r :
  (r < 10)%N -> Decimal.nb_digits (Unsigned.to_lu r) = 1%nat.
Proof.
  intros Hr.
  assert (r = 0 \/ r = 1 \/ r = 2 \/ r = 3 \/ r = 4 \/ r = 5 \/ r = 6 \/ r = 7
          \/ r = 8 \/ r = 9)%N as Hcases by lia.
  repeat (destruct Hcases as [->|Hcases]; [reflexivity|]). subst r. reflexivity.
Qed.

Lemma to_lu_add (j : nat) m :
  Unsigned.to_lu (m + N.of_nat j) = Nat.iter j Decimal.Little.succ (Unsigned.to_lu m).
Proof.
  induction j as [|j IH]; [rewrite N.add_0_r; reflexivity|].
  rewrite Nat2N.inj_succ, N.add_succ_r, Unsigned.to_lu_succ, IH. reflexivity.
Qed.

Lemma to_lu_step q r :
  (q <> 0)%N -> (r < 10)%N ->
  Decimal.nb_digits (Unsigned.to_lu (10 * q + r))
  = S (Decimal.nb_digits (Unsigned.to_lu q)).
Proof.
  intros Hq Hr. destruct q as [|p]; [congruence|].
  rewrite <- (N2Nat.id r), to_lu_add, Unsigned.to_ldec_tenfold.
  remember (N.to_nat r) as j eqn:Ej.
  assert (j < 10)%nat as Hj by lia. clear Ej Hr.
  do 10 (destruct j as [|j]; [reflexivity|]). lia.
Qed.

Lemma to_lu_digits (k : nat) n :
  (n < 10 ^ N.of_nat (S k))%N ->
  (Decimal.nb_digits (Unsigned.to_lu n) <= S k)%nat.
Proof.
  revert n. induction k as [|k IH]; intros n Hn.
  - rewrite to_lu_small; [lia | exact Hn].
  - rewrite Nat2N.inj_succ, N.pow_succ_r' in Hn.
    pose proof (N.div_mod' n 10) as Hdiv.
    pose proof (N.mod_lt n 10 ltac:(discriminate)) as Hmod.
    destruct (N.eq_dec (n / 10)%N 0%N) as [Hzero|Hpos].
    + rewrite Hzero in Hdiv. rewrite to_lu_small; lia.
    + rewrite Hdiv, (to_lu_step _ _ Hpos Hmod).
      apply le_n_S, IH, N.Div0.div_lt_upper_bound. exact Hn.
Qed.

Lemma print_size_t_length n :
  (0 <= n < 2 ^ 64)%Z -> (String.length (print_size_t n) <= 20)%nat.
Proof.
  intros Hn. unfold print_size_t. rewrite string_of_uint_length.
  assert (N.to_uint (Z.to_N n) = Decimal.rev (Unsigned.to_lu (Z.to_N n))) as ->
    by (destruct (Z.to_N n); reflexivity).
  rewrite nb_digits_rev.
  pose proof (to_lu_digits 19 (Z.to_N n)) as Hdigits.
  assert (Z.to_N n < 10 ^ N.of_nat 20)%N as Hlt.
  { change (10 ^ N.of_nat 20)%N with 100000000000000000000%N.
    change (2 ^ 64)%Z with 18446744073709551616%Z in Hn. lia. }
  specialize (Hdigits Hlt). lia.
Qed.

(** X30. STATS reports the counters of the store in full: for a reachable
    store the reply is the JSON object with [num_entries] and [memory_used]
    in decimal; it is at most 68 bytes long, so the 256-byte buffer never
    cuts it; and in a store small enough for its counters not to have
    wrapped the two numbers are the number of entries and the number of
    bytes accounted for. *)
Theorem stats_reply_is_complete n ht command :
  reachable n ht -> command_name command = "STATS" ->
  process_command ht command []
  = (Reply (Some (stats_text (num_entries ht) (memory_used ht))) ht, []) /\
  (strlen (stats_text (num_entries ht) (memory_used ht)) <= 68)%Z /\
  ((accounted ht < 2 ^ 64)%Z ->
   stats_text (num_entries ht) (memory_used ht)
   = stats_text (Z.of_nat (length (all_entries ht))) (accounted ht)).
Proof.
  intros Hreach Hstats. pose proof (reachable_wf _ _ Hreach) as Hwf.
  assert (String.length (stats_text (num_entries ht) (memory_used ht)) <= 68)%nat
    as Hlen.
  { pose proof (print_size_t_length (num_entries ht)) as Hkeys.
    pose proof (print_size_t_length (memory_used ht)) as Hmem.
    rewrite (wf_count _ Hwf) in Hkeys. rewrite (wf_memory _ Hwf) in Hmem.
    assert (forall x, (0 <= wrap64 x < 2 ^ 64)%Z) as Hrange
      by (intros x; apply Z.mod_pos_bound; reflexivity).
    specialize (Hkeys (Hrange _)). specialize (Hmem (Hrange _)).
    rewrite <- (wf_count _ Hwf) in Hkeys. rewrite <- (wf_memory _ Hwf) in Hmem.
    unfold stats_text. rewrite !length_append. simpl. lia. }
  split; [|split].
  - destruct (command_name_tokens command) as (token0 & args & Htok & Hname);
      [rewrite Hstats; discriminate|].
    rewrite Hstats in Hname.
    enter_command (str_duplicate_nil command) Htok.
    rewrite Hname. cbn [String.eqb Ascii.eqb Bool.eqb]. unfold ht_stats.
    fold (stats_text (num_entries ht) (memory_used ht)).
    unfold snprintf_256. rewrite substring_0_short by lia. apply reply_nil.
  - unfold strlen. lia.
  - intros Hfits.
    rewrite (num_entries_exact ht Hwf Hfits), (memory_used_exact ht Hwf Hfits).
    reflexivity.
Qed.

Lemma stats_reply_is_complete_witness :
  process_command store_ab "stats" []
  = (Reply (Some (stats_text 1 588)) store_ab, []).
Proof.
  exact (proj1 (stats_reply_is_complete INITIAL_BUCKETS store_ab "stats"
                  store_ab_reachable eq_refl)).
Defined.
